(** * Sweep-and-prune broad phase of ReactPhysics3D: codec and overlap tests

    Shallow embedding of [src/collision/broadphase/SweepAndPruneAlgorithm.h].
    Unsigned 32-bit integers ([uint]) are integers of [Z] in [0, 2^32); a C++
    [float] is represented by its IEEE 754 binary32 bit pattern, which is what
    the cast [(uint&) number] of the source reads. *)

From Stdlib Require Import ZArith Lia Bool List.
From Stdlib Require Import Floats.SpecFloat.
From stdpp Require Import base decidable option list sorting gmap.

Local Open Scope Z_scope.

(** ** Machine words *)

Module Word.

Definition modulus : Z := 2 ^ 32.

Definition wrap (x : Z) : Z := x mod modulus.

Definition is_word (x : Z) : Prop := 0 <= x < modulus.

(** C++ [~x] on a 32-bit unsigned operand. *)
Definition not32 (x : Z) : Z := wrap (Z.lnot x).

End Word.

(** ** Integer AABB codec *)

(** [encodeFloatIntoInteger]: [number] is the bit pattern of the float
    argument (the value of [(uint&) number]). *)
Definition encodeFloatIntoInteger (number : Z) : Z :=
  let intNumber := number in
  if negb (Z.land intNumber 0x80000000 =? 0)
  then Word.not32 intNumber
  else Z.lor intNumber 0x80000000.

(** ** IEEE 754 binary32 reading of a bit pattern

    The source compares encoded integers in place of floats; the order of the
    floats themselves is the one of IEEE 754, taken here from the Standard
    Library's [SpecFloat] ([SFcompare], [SFltb], [SFeqb]).  A 32-bit pattern
    is one sign bit, eight exponent bits and twenty-three fraction bits. *)

Module Float32.

Definition sign (w : Z) : bool := 2 ^ 31 <=? w.
Definition exponent (w : Z) : Z := (w / 2 ^ 23) mod 2 ^ 8.
Definition fraction (w : Z) : Z := w mod 2 ^ 23.

Definition decode (w : Z) : spec_float :=
  let s := sign w in
  let e := exponent w in
  let m := fraction w in
  if e =? 0 then
    match m with
    | Zpos p => S754_finite s p (-149)
    | _ => S754_zero s
    end
  else if e =? 255 then
    (if m =? 0 then S754_infinity s else S754_nan)
  else
    match m + 2 ^ 23 with
    | Zpos p => S754_finite s p (e - 150)
    | _ => S754_nan
    end.

(** A finite float: a 32-bit pattern that is neither an infinity nor a NaN. *)
Definition finite (w : Z) : Prop := Word.is_word w /\ exponent w <> 255.

Definition lt (a b : Z) : Prop := SFltb (decode a) (decode b) = true.
Definition eq (a b : Z) : Prop := SFeqb (decode a) (decode b) = true.

Definition pos_zero : Z := 0.
Definition neg_zero : Z := 0x80000000.

(** Sign-magnitude reading of the pattern as an integer: the float's value
    scaled by [2^149] is a monotone function of it. *)
Definition signed_magnitude (w : Z) : Z :=
  if sign w then - (w - 2 ^ 31) else w.

(** The patterns that are not finite floats: the two infinities (exponent
    all ones, fraction zero) and the NaNs (exponent all ones, fraction not
    zero). *)
Definition is_infinity (w : Z) : Prop :=
  Word.is_word w /\ exponent w = 255 /\ fraction w = 0.
Definition is_nan (w : Z) : Prop :=
  Word.is_word w /\ exponent w = 255 /\ fraction w <> 0.

Definition pos_infinity : Z := 0x7F800000.
Definition neg_infinity : Z := 0xFF800000.

(** The largest finite float, [FLT_MAX], and its opposite. *)
Definition pos_max : Z := 0x7F7FFFFF.
Definition neg_max : Z := 0xFF7FFFFF.

(** Negating a float flips the sign bit of its pattern. *)
Definition neg (w : Z) : Z := Z.lxor w 0x80000000.

End Float32.

(** ** The codec as the specification words it

    "Reinterpret the floating-point bit pattern as an unsigned integer of the
    same width; if the sign bit is set (negative number), invert all bits;
    otherwise, set the sign bit."  Written independently of the source, once
    on whole words and once bit by bit, to be compared with
    [encodeFloatIntoInteger]. *)

Definition sign_bit_set (w : Z) : bool := Z.testbit w 31.

(** All 32 bits inverted. *)
Definition complement32 (w : Z) : Z := 2 ^ 32 - 1 - w.

(** Bitwise OR with [0x80000000]. *)
Definition set_sign_bit (w : Z) : Z := Z.lor w 0x80000000.

Definition encode_rule (w : Z) : Z :=
  if sign_bit_set w then complement32 w else set_sign_bit w.

(** Bit [i] of the result the rule prescribes for the pattern [w]. *)
Definition encode_rule_bit (w : Z) (i : Z) : bool :=
  if sign_bit_set w then negb (Z.testbit w i)
  else if i =? 31 then true else Z.testbit w i.

(** ** Data of the sweep-and-prune structure *)

(** The three axes; the source indexes its three-element arrays by a [uint]
    axis in [0, 3). *)
Inductive Axis : Type := AxisX | AxisY | AxisZ.

Global Instance Axis_eq_dec : EqDecision Axis.
Proof. solve_decision. Defined.

(** A three-element array [T a[3]]. *)
Record Array3 (A : Type) : Type := MkArray3 { at0 : A; at1 : A; at2 : A }.
Arguments MkArray3 {A} _ _ _.
Arguments at0 {A} _.
Arguments at1 {A} _.
Arguments at2 {A} _.

Definition get3 {A : Type} (v : Array3 A) (axis : Axis) : A :=
  match axis with
  | AxisX => at0 v
  | AxisY => at1 v
  | AxisZ => at2 v
  end.

Definition set3 {A : Type} (v : Array3 A) (axis : Axis) (x : A) : Array3 A :=
  match axis with
  | AxisX => MkArray3 x (at1 v) (at2 v)
  | AxisY => MkArray3 (at0 v) x (at2 v)
  | AxisZ => MkArray3 (at0 v) (at1 v) x
  end.

Definition all_axes : list Axis := [AxisX; AxisY; AxisZ].

(** [bodyindex] and [CollisionBody*]: a body is known by its identity. *)
Abbreviation bodyindex := nat (only parsing).
Abbreviation CollisionBody := nat (only parsing).

(** [struct EndPoint]. *)
Record EndPoint : Type := MkEndPoint {
  boxID : bodyindex;
  isMin : bool;
  value : Z
}.

Arguments MkEndPoint _%_nat _ _%_Z.

Global Instance EndPoint_eq_dec : EqDecision EndPoint.
Proof. solve_decision. Defined.

(** [EndPoint::setValues]. *)
Definition setValues (_ : EndPoint) (boxID : bodyindex) (isMin : bool) (value : Z)
  : EndPoint :=
  MkEndPoint boxID isMin value.

(** [struct BoxAABB]: indices of the end-points in the three arrays. *)
Module BoxAABB.
Record t : Type := Mk {
  min : Array3 bodyindex;
  max : Array3 bodyindex;
  body : CollisionBody
}.
End BoxAABB.

(** [struct AABBInt]. *)
Module AABBInt.
Record t : Type := Mk {
  min : Array3 Z;
  max : Array3 Z
}.
End AABBInt.

(** [SweepAndPruneAlgorithm::testIntersect1DSortedAABBs].  Reading
    [endPointsArray] outside its bounds has no defined result: [None]. *)
Definition testIntersect1DSortedAABBs
    (box1 : BoxAABB.t) (box2 : AABBInt.t)
    (endPointsArray : list EndPoint) (axis : Axis) : option bool :=
  e ← endPointsArray !! get3 (BoxAABB.max box1) axis;
  Some (negb (value e <? get3 (AABBInt.min box2) axis)).

(** [SweepAndPruneAlgorithm::testIntersect2D]: on indices only. *)
Definition testIntersect2D
    (box1 box2 : BoxAABB.t) (axis1 axis2 : Axis) : bool :=
  negb ((get3 (BoxAABB.max box2) axis1 <? get3 (BoxAABB.min box1) axis1)%nat
        || (get3 (BoxAABB.max box1) axis1 <? get3 (BoxAABB.min box2) axis1)%nat
        || (get3 (BoxAABB.max box2) axis2 <? get3 (BoxAABB.min box1) axis2)%nat
        || (get3 (BoxAABB.max box1) axis2 <? get3 (BoxAABB.min box2) axis2)%nat).

(** ** Intervals and sorted end-point arrays *)

(** Two closed intervals [[lo1, hi1]] and [[lo2, hi2]] intersect when neither
    lies wholly below the other. *)
Definition intervals_intersect (lo1 hi1 lo2 hi2 : Z) : Prop :=
  lo1 <= hi2 /\ lo2 <= hi1.

Global Instance intervals_intersect_dec lo1 hi1 lo2 hi2 :
  Decision (intervals_intersect lo1 hi1 lo2 hi2).
Proof. unfold intervals_intersect. apply _. Defined.

(** A value lying in both intervals. *)
Definition common_point (lo1 hi1 lo2 hi2 : Z) : Prop :=
  exists v, (lo1 <= v <= hi1) /\ (lo2 <= v <= hi2).

Definition value_le (e1 e2 : EndPoint) : Prop := value e1 <= value e2.
Definition value_lt (e1 e2 : EndPoint) : Prop := value e1 < value e2.

Global Instance value_le_dec e1 e2 : Decision (value_le e1 e2).
Proof. unfold value_le. apply _. Defined.
Global Instance value_lt_dec e1 e2 : Decision (value_lt e1 e2).
Proof. unfold value_lt. apply _. Defined.

(** Ascending by [value]; and ascending with all values distinct. *)
Definition sorted_by_value (l : list EndPoint) : Prop :=
  StronglySorted value_le l.
Definition strictly_sorted_by_value (l : list EndPoint) : Prop :=
  StronglySorted value_lt l.

(** The value interval of a box on one axis, read through its indices. *)
Definition box_interval (endPointsArray : list EndPoint)
    (box : BoxAABB.t) (axis : Axis) : option (Z * Z) :=
  lo ← endPointsArray !! get3 (BoxAABB.min box) axis;
  hi ← endPointsArray !! get3 (BoxAABB.max box) axis;
  Some (value lo, value hi).

(** ** The sweep-and-prune structure

    The header declares the attributes of [class SweepAndPruneAlgorithm] and
    its three public operations; the bodies of the operations are in
    [SweepAndPruneAlgorithm.cpp], which is not among the sources.  The state
    below follows the declared attributes; the operations are modelled from
    sections 3, 4.2, 6 and 7 of the specification, and every definition that
    is so modelled says it. *)

Module SAP.

(** Modelled from the spec: the outbound notifications of section 6,
    pair-added and pair-removed, each on an unordered pair of bodies. *)
Inductive Event : Type :=
  | PairAdded (pair : CollisionBody * CollisionBody)
  | PairRemoved (pair : CollisionBody * CollisionBody).

Global Instance Event_eq_dec : EqDecision Event.
Proof. solve_decision. Defined.

(** Modelled from the spec: the error taxonomy of section 7. *)
Inductive Error : Type := UnknownBody | DuplicateBody.

(** Modelled from the spec: an operation returns the new state or reports
    an error ("explicit error result"). *)
Inductive Result (A : Type) : Type :=
  | Ok (a : A)
  | Failed (e : Error).
Arguments Ok {A} _.
Arguments Failed {A} _.

(** Modelled from the spec: the floating-point [AABB] of
    [collision/shapes/AABB.h], which is not under [src/]: six scalars, each
    held as its binary32 bit pattern. *)
Record AABB : Type := MkAABB {
  minCoordinates : Array3 Z;
  maxCoordinates : Array3 Z
}.

Definition map3 {A B : Type} (f : A -> B) (v : Array3 A) : Array3 B :=
  MkArray3 (f (at0 v)) (f (at1 v)) (f (at2 v)).

(** Modelled from the spec: the constructor [AABBInt(const AABB&)], declared
    in the header and defined in the absent [.cpp]: the codec "applied
    independently to each of the six scalar components". *)
Definition AABBInt_of_AABB (aabb : AABB) : AABBInt.t :=
  AABBInt.Mk (map3 encodeFloatIntoInteger (minCoordinates aabb))
             (map3 encodeFloatIntoInteger (maxCoordinates aabb)).

(** The attributes of [class SweepAndPruneAlgorithm], as the header declares
    them.  [mBoxes] keeps for each box slot in use its owning body; the six
    end-point indices of a [BoxAABB] are the positions of the box's markers
    in [mEndPoints] and are read off the arrays ([boxOf]).
    Modelled from the spec: [mPairs], the pair bookkeeping of the base class
    [BroadPhaseAlgorithm], and [mEvents], the notifications sent so far to
    the owning collision detection, oldest first; neither is under [src/]. *)
Record State : Type := MkState {
  mBoxes : gmap bodyindex CollisionBody;
  mEndPoints : Array3 (list EndPoint);
  mNbBoxes : nat;
  mNbMaxBoxes : nat;
  mFreeBoxIndices : list bodyindex;
  mMapBodyToBoxIndex : gmap CollisionBody bodyindex;
  mPairs : gset (CollisionBody * CollisionBody);
  mEvents : list Event
}.

(** Modelled from the spec: the structure as constructed, empty. *)
Definition initial : State :=
  MkState ∅ (MkArray3 [] [] []) 0 0 [] ∅ ∅ [].

Definition withEndPoints (s : State) (eps : Array3 (list EndPoint)) : State :=
  MkState (mBoxes s) eps (mNbBoxes s) (mNbMaxBoxes s) (mFreeBoxIndices s)
          (mMapBodyToBoxIndex s) (mPairs s) (mEvents s).

Definition withPairs (s : State)
    (pairs : gset (CollisionBody * CollisionBody)) (events : list Event) : State :=
  MkState (mBoxes s) (mEndPoints s) (mNbBoxes s) (mNbMaxBoxes s)
          (mFreeBoxIndices s) (mMapBodyToBoxIndex s) pairs events.

(** *** Pair bookkeeping *)

(** Modelled from the spec: "each pair unordered"; a pair is named smaller
    body first. *)
Definition unorderedPair (body1 body2 : CollisionBody)
  : CollisionBody * CollisionBody :=
  if (body1 <? body2)%nat then (body1, body2) else (body2, body1).

(** Modelled from the spec: a pair is reported added "at most once per
    transition": only when it is not reported already. *)
Definition addPairKey (s : State) (p : CollisionBody * CollisionBody) : State :=
  if decide (p ∈ mPairs s) then s
  else withPairs s ({[p]} ∪ mPairs s) (mEvents s ++ [PairAdded p]).

(** Modelled from the spec: a pair is reported removed "at most once per
    transition": only when it is reported. *)
Definition removePairKey (s : State) (p : CollisionBody * CollisionBody) : State :=
  if decide (p ∈ mPairs s)
  then withPairs s (mPairs s ∖ {[p]}) (mEvents s ++ [PairRemoved p])
  else s.

(** Modelled from the spec: [addPair], declared in the header ("add an
    overlapping pair of AABBs"), and its converse. *)
Definition addPair (s : State) (body1 body2 : CollisionBody) : State :=
  addPairKey s (unorderedPair body1 body2).

Definition removePair (s : State) (body1 body2 : CollisionBody) : State :=
  removePairKey s (unorderedPair body1 body2).

(** *** Reading a box off the arrays *)

(** Modelled from the spec: "every live box has exactly one min and one max
    marker per axis"; the marker of kind [k] of box [id]. *)
Definition isMarkerOf (id : bodyindex) (k : bool) (e : EndPoint) : bool :=
  (boxID e =? id)%nat && Bool.eqb (isMin e) k.

Definition markerValue (arr : list EndPoint) (id : bodyindex) (k : bool) : Z :=
  match find (isMarkerOf id k) arr with
  | Some e => value e
  | None => 0
  end.

Definition markerIndex (arr : list EndPoint) (id : bodyindex) (k : bool) : nat :=
  match list_find (fun e => isMarkerOf id k e = true) arr with
  | Some (i, _) => i
  | None => 0
  end.

(** Modelled from the spec: the integer AABB a box currently holds in the
    arrays (the values of its six markers). *)
Definition storedAABB (eps : Array3 (list EndPoint)) (id : bodyindex) : AABBInt.t :=
  AABBInt.Mk (MkArray3 (markerValue (at0 eps) id true)
                       (markerValue (at1 eps) id true)
                       (markerValue (at2 eps) id true))
             (MkArray3 (markerValue (at0 eps) id false)
                       (markerValue (at1 eps) id false)
                       (markerValue (at2 eps) id false)).

(** Modelled from the spec: the [BoxAABB] record of a slot, with the indices
    of its six markers and its body. *)
Definition boxOf (s : State) (id : bodyindex) : option BoxAABB.t :=
  body ← mBoxes s !! id;
  Some (BoxAABB.Mk
          (MkArray3 (markerIndex (at0 (mEndPoints s)) id true)
                    (markerIndex (at1 (mEndPoints s)) id true)
                    (markerIndex (at2 (mEndPoints s)) id true))
          (MkArray3 (markerIndex (at0 (mEndPoints s)) id false)
                    (markerIndex (at1 (mEndPoints s)) id false)
                    (markerIndex (at2 (mEndPoints s)) id false))
          body).

(** Modelled from the spec: "true 3D overlap (overlap on x AND y AND z
    simultaneously)" of two integer boxes, as closed intervals. *)
Definition overlap1D (a b : AABBInt.t) (axis : Axis) : bool :=
  negb (get3 (AABBInt.max a) axis <? get3 (AABBInt.min b) axis)
  && negb (get3 (AABBInt.max b) axis <? get3 (AABBInt.min a) axis).

Definition overlap3D (a b : AABBInt.t) : bool :=
  overlap1D a b AxisX && overlap1D a b AxisY && overlap1D a b AxisZ.

(** *** addObject *)

(** Modelled from the spec: insertion of a marker "at its sorted position
    (insertion, not append-then-sort)". *)
Fixpoint insertEndPoint (e : EndPoint) (l : list EndPoint) : list EndPoint :=
  match l with
  | [] => [e]
  | x :: l' =>
      if value e <? value x then e :: l else x :: insertEndPoint e l'
  end.

(** Modelled from the spec: a box slot, "reuse from free-list, else grow
    arrays when full (double capacity)".  Returns the slot, the remaining
    free list and the capacity. *)
Definition allocateBox (s : State) : bodyindex * list bodyindex * nat :=
  match mFreeBoxIndices s with
  | boxIndex :: rest => (boxIndex, rest, mNbMaxBoxes s)
  | [] =>
      (mNbBoxes s, [],
       if (mNbBoxes s =? mNbMaxBoxes s)%nat
       then Nat.max 1 (2 * mNbMaxBoxes s) else mNbMaxBoxes s)
  end.

(** Modelled from the spec: "inserts six new markers into the three axis
    arrays". *)
Definition insertBox (eps : Array3 (list EndPoint)) (boxIndex : bodyindex)
    (aabbInt : AABBInt.t) : Array3 (list EndPoint) :=
  let ins axis :=
    insertEndPoint
      (MkEndPoint boxIndex false (get3 (AABBInt.max aabbInt) axis))
      (insertEndPoint
         (MkEndPoint boxIndex true (get3 (AABBInt.min aabbInt) axis))
         (get3 eps axis)) in
  MkArray3 (ins AxisX) (ins AxisY) (ins AxisZ).

(** Modelled from the spec: the test of the newly inserted box against one
    other box, "to emit initial pair-added events". *)
Definition testNewPair (body : CollisionBody) (aabbInt : AABBInt.t)
    (s : State) (other : CollisionBody * bodyindex) : State :=
  if overlap3D aabbInt (storedAABB (mEndPoints s) other.2)
  then addPair s body other.1 else s.

(** Modelled from the spec: [addObject], section 4.2. *)
Definition addObject (s : State) (body : CollisionBody) (aabb : AABB)
  : Result State :=
  match mMapBodyToBoxIndex s !! body with
  | Some _ => Failed DuplicateBody
  | None =>
      let '(boxIndex, free, capacity) := allocateBox s in
      let aabbInt := AABBInt_of_AABB aabb in
      let s1 :=
        MkState (<[boxIndex := body]> (mBoxes s))
                (insertBox (mEndPoints s) boxIndex aabbInt)
                (S (mNbBoxes s)) capacity free
                (<[body := boxIndex]> (mMapBodyToBoxIndex s))
                (mPairs s) (mEvents s) in
      Ok (foldl (testNewPair body aabbInt) s1
                (map_to_list (mMapBodyToBoxIndex s)))
  end.

(** *** removeObject *)

(** Modelled from the spec: "every pair currently involving this box". *)
Definition involves (body : CollisionBody) (p : CollisionBody * CollisionBody)
  : Prop :=
  p.1 = body \/ p.2 = body.

Global Instance involves_dec body p : Decision (involves body p).
Proof. unfold involves. apply _. Defined.

(** Modelled from the spec: "removes its six markers from the axis arrays
    (shifting subsequent entries)". *)
Definition removeBox (eps : Array3 (list EndPoint)) (boxIndex : bodyindex)
  : Array3 (list EndPoint) :=
  map3 (filter (fun e => boxID e <> boxIndex)) eps.

(** Modelled from the spec: [removeObject], section 4.2; the pair-removed
    notifications go out before the markers are deleted. *)
Definition removeObject (s : State) (body : CollisionBody) : Result State :=
  match mMapBodyToBoxIndex s !! body with
  | None => Failed UnknownBody
  | Some boxIndex =>
      let s1 :=
        foldl removePairKey s (filter (involves body) (elements (mPairs s))) in
      Ok (MkState (delete boxIndex (mBoxes s1))
                  (removeBox (mEndPoints s1) boxIndex)
                  (pred (mNbBoxes s1)) (mNbMaxBoxes s1)
                  (boxIndex :: mFreeBoxIndices s1)
                  (delete body (mMapBodyToBoxIndex s1))
                  (mPairs s1) (mEvents s1))
  end.

(** *** updateObject *)

(** Modelled from the spec: the array split at the marker of box [id] and
    kind [k]: the markers before it (nearest first), the marker, the markers
    after it. *)
Fixpoint splitAtMarker (id : bodyindex) (k : bool)
    (before : list EndPoint) (l : list EndPoint)
  : option (list EndPoint * EndPoint * list EndPoint) :=
  match l with
  | [] => None
  | e :: after =>
      if isMarkerOf id k e then Some (before, e, after)
      else splitAtMarker id k (e :: before) after
  end.

(** Modelled from the spec: exchange with the left neighbour while it is out
    of order.  Returns the markers left before and after [e], and the
    markers [e] was swapped with, in the order of the swaps. *)
Fixpoint moveLeft (e : EndPoint) (before after : list EndPoint)
  : list EndPoint * list EndPoint * list EndPoint :=
  match before with
  | x :: before' =>
      if value e <? value x then
        let '(b, a, swapped) := moveLeft e before' (x :: after) in
        (b, a, x :: swapped)
      else (before, after, [])
  | [] => ([], after, [])
  end.

(** Modelled from the spec: exchange with the right neighbour while it is
    out of order. *)
Fixpoint moveRight (e : EndPoint) (before after : list EndPoint)
  : list EndPoint * list EndPoint * list EndPoint :=
  match after with
  | x :: after' =>
      if value x <? value e then
        let '(b, a, swapped) := moveRight e (x :: before) after' in
        (b, a, x :: swapped)
      else (before, after, [])
  | [] => (before, [], [])
  end.

(** Modelled from the spec: the local exchange pass of one marker, "compare
    against the immediate neighbour and swap if out of order, until no
    further swap is needed". *)
Definition exchangePass (e : EndPoint) (before after : list EndPoint)
  : list EndPoint * list EndPoint :=
  let '(b1, a1, swappedLeft) := moveLeft e before after in
  let '(b2, a2, swappedRight) := moveRight e b1 a1 in
  (reverse b2 ++ e :: a2, swappedLeft ++ swappedRight).

(** Modelled from the spec: "recompute full 3D overlap between the two boxes
    and emit pair-added if overlap newly became true, pair-removed if it
    newly became false".  The moved box is read at its new integer AABB, the
    other one at the values its markers hold. *)
Definition recheckPair (body : CollisionBody) (aabbInt : AABBInt.t)
    (s : State) (other : bodyindex) : State :=
  match mBoxes s !! other with
  | None => s
  | Some body2 =>
      if overlap3D aabbInt (storedAABB (mEndPoints s) other)
      then addPair s body body2
      else removePair s body body2
  end.

(** Modelled from the spec: one swap of the moved marker (kind [k] of box
    [boxIndex]) with [x]; a min marker crossing a max marker of another box,
    or the converse, asks for a recheck of the pair, swaps of two markers of
    the same kind do not. *)
Definition onSwap (body : CollisionBody) (boxIndex : bodyindex)
    (aabbInt : AABBInt.t) (k : bool) (s : State) (x : EndPoint) : State :=
  if negb (Bool.eqb (isMin x) k) && negb (boxID x =? boxIndex)%nat
  then recheckPair body aabbInt s (boxID x)
  else s.

(** Modelled from the spec: a marker of the box takes its new value and is
    exchanged into place; the swaps it made are handled in order. *)
Definition moveMarker (body : CollisionBody) (boxIndex : bodyindex)
    (aabbInt : AABBInt.t) (axis : Axis) (k : bool) (s : State) : State :=
  let v := if k then get3 (AABBInt.min aabbInt) axis
           else get3 (AABBInt.max aabbInt) axis in
  match splitAtMarker boxIndex k [] (get3 (mEndPoints s) axis) with
  | None => s
  | Some (before, e, after) =>
      let '(arr, swapped) :=
        exchangePass (setValues e boxIndex k v) before after in
      foldl (onSwap body boxIndex aabbInt k)
            (withEndPoints s (set3 (mEndPoints s) axis arr)) swapped
  end.

(** Modelled from the spec: "re-establishes sorted order per axis", the min
    marker of the box first, then its max marker. *)
Definition updateAxis (body : CollisionBody) (boxIndex : bodyindex)
    (aabbInt : AABBInt.t) (s : State) (axis : Axis) : State :=
  moveMarker body boxIndex aabbInt axis false
    (moveMarker body boxIndex aabbInt axis true s).

(** Modelled from the spec: [updateObject], section 4.2. *)
Definition updateObject (s : State) (body : CollisionBody) (aabb : AABB)
  : Result State :=
  match mMapBodyToBoxIndex s !! body with
  | None => Failed UnknownBody
  | Some boxIndex =>
      Ok (foldl (updateAxis body boxIndex (AABBInt_of_AABB aabb)) s all_axes)
  end.

(** *** Sequences of calls *)

(** The inbound interface of section 6: a call of one of the three public
    operations. *)
Inductive Op : Type :=
  | OpAdd (body : CollisionBody) (aabb : AABB)
  | OpRemove (body : CollisionBody)
  | OpUpdate (body : CollisionBody) (aabb : AABB).

Definition step (s : State) (op : Op) : Result State :=
  match op with
  | OpAdd body aabb => addObject s body aabb
  | OpRemove body => removeObject s body
  | OpUpdate body aabb => updateObject s body aabb
  end.

Fixpoint run (s : State) (ops : list Op) : Result State :=
  match ops with
  | [] => Ok s
  | op :: ops' =>
      match step s op with
      | Ok s' => run s' ops'
      | Failed e => Failed e
      end
  end.

(** The AABB most recently supplied for each tracked body. *)
Definition supply (g : gmap CollisionBody AABB) (op : Op)
  : gmap CollisionBody AABB :=
  match op with
  | OpAdd body aabb => <[body := aabb]> g
  | OpRemove body => delete body g
  | OpUpdate body aabb => <[body := aabb]> g
  end.

Definition supplied (ops : list Op) : gmap CollisionBody AABB :=
  foldl supply ∅ ops.

(** The pairs currently reported: added and not removed since. *)
Definition applyEvent (cur : gset (CollisionBody * CollisionBody)) (ev : Event)
  : gset (CollisionBody * CollisionBody) :=
  match ev with
  | PairAdded p => {[p]} ∪ cur
  | PairRemoved p => cur ∖ {[p]}
  end.

Definition reported (events : list Event) : gset (CollisionBody * CollisionBody) :=
  foldl applyEvent ∅ events.

End SAP.

(** ** Invariants of the structure

    The invariants are stated against the integer AABB last supplied for each
    tracked body. *)

Module Invariants.

Import SAP.

Definition coord (a : AABBInt.t) (axis : Axis) (k : bool) : Z :=
  if k then get3 (AABBInt.min a) axis else get3 (AABBInt.max a) axis.

Definition setCoord (a : AABBInt.t) (axis : Axis) (k : bool) (v : Z) : AABBInt.t :=
  if k then AABBInt.Mk (set3 (AABBInt.min a) axis v) (AABBInt.max a)
  else AABBInt.Mk (AABBInt.min a) (set3 (AABBInt.max a) axis v).

Definition markerKey (e : EndPoint) : bodyindex * bool := (boxID e, isMin e).

(** The array holds exactly one marker of each kind for every live box, with
    the value [val] assigns to it. *)
Definition markersOf (live : bodyindex -> Prop) (val : bodyindex -> bool -> Z)
    (arr : list EndPoint) : Prop :=
  NoDup (markerKey <$> arr) /\
  forall e, e ∈ arr <-> live (boxID e) /\ value e = val (boxID e) (isMin e).

(** The value a marker must hold: the coordinate of the integer AABB last
    supplied for the body that owns the box. *)
Definition expectedValue (boxes : gmap bodyindex CollisionBody)
    (g : gmap CollisionBody AABBInt.t) (axis : Axis)
    (id : bodyindex) (k : bool) : Z :=
  match boxes !! id with
  | Some body =>
      match g !! body with
      | Some a => coord a axis k
      | None => 0
      end
  | None => 0
  end.

Definition liveBox (s : State) (id : bodyindex) : Prop := is_Some (mBoxes s !! id).

(** Box slots: the two maps are inverse of one another, free slots are not in
    use, and every slot ever handed out is below the count of slots. *)
Record SlotsInv (s : State) : Prop := MkSlotsInv {
  inv_boxes : forall body id,
    mMapBodyToBoxIndex s !! body = Some id <-> mBoxes s !! id = Some body;
  inv_free_nodup : NoDup (mFreeBoxIndices s);
  inv_free : forall id, id ∈ mFreeBoxIndices s -> mBoxes s !! id = None;
  inv_bound : forall id,
    liveBox s id \/ id ∈ mFreeBoxIndices s ->
    (id < mNbBoxes s + length (mFreeBoxIndices s))%nat;
  inv_count : mNbBoxes s = size (mBoxes s)
}.

(** End-point arrays: sorted, and holding the markers of the live boxes at
    the values last supplied. *)
Record ArraysInv (s : State) (g : gmap CollisionBody AABBInt.t) : Prop := MkArraysInv {
  inv_ghost : forall body,
    is_Some (g !! body) <-> is_Some (mMapBodyToBoxIndex s !! body);
  inv_sorted : forall axis, sorted_by_value (get3 (mEndPoints s) axis);
  inv_markers : forall axis,
    markersOf (liveBox s) (expectedValue (mBoxes s) g axis)
              (get3 (mEndPoints s) axis)
}.

(** A trace in which every notification is a transition: a pair is added
    only when it is not reported, removed only when it is. *)
Fixpoint traceFrom (cur : gset (CollisionBody * CollisionBody))
    (events : list Event) : Prop :=
  match events with
  | [] => True
  | ev :: rest =>
      match ev with
      | PairAdded p => p ∉ cur
      | PairRemoved p => p ∈ cur
      end /\ traceFrom (applyEvent cur ev) rest
  end.

Definition eventPair (ev : Event) : CollisionBody * CollisionBody :=
  match ev with
  | PairAdded p => p
  | PairRemoved p => p
  end.

(** An unordered pair is written smaller body first. *)
Definition normalPair (p : CollisionBody * CollisionBody) : Prop :=
  (p.1 <= p.2)%nat.

(** The bookkeeping agrees with the trace, the trace is made of transitions,
    and every notification names its pair in the one normal way. *)
Definition pairsCore (s : State) : Prop :=
  mPairs s = reported (mEvents s) /\ traceFrom ∅ (mEvents s) /\
  Forall (fun ev => normalPair (eventPair ev)) (mEvents s).

Record PairsInv (s : State) : Prop := MkPairsInv {
  inv_reported : mPairs s = reported (mEvents s);
  inv_trace : traceFrom ∅ (mEvents s);
  inv_normal : Forall (fun ev => normalPair (eventPair ev)) (mEvents s);
  inv_tracked : forall p, p ∈ mPairs s ->
    is_Some (mMapBodyToBoxIndex s !! p.1) /\
    is_Some (mMapBodyToBoxIndex s !! p.2)
}.

Record Inv (s : State) (g : gmap CollisionBody AABBInt.t) : Prop := MkInv {
  inv_slots : SlotsInv s;
  inv_arrays : ArraysInv s g;
  inv_pairs : PairsInv s
}.

(** The integer AABBs last supplied by a sequence of calls. *)
Definition supplyInt (g : gmap CollisionBody AABBInt.t) (op : Op)
  : gmap CollisionBody AABBInt.t :=
  match op with
  | OpAdd body aabb => <[body := AABBInt_of_AABB aabb]> g
  | OpRemove body => delete body g
  | OpUpdate body aabb => <[body := AABBInt_of_AABB aabb]> g
  end.

Definition suppliedInt (ops : list Op) : gmap CollisionBody AABBInt.t :=
  AABBInt_of_AABB <$> supplied ops.

(** The structure part of two states is the same: they differ at most in the
    pair bookkeeping. *)
Definition sameStructure (s s' : State) : Prop :=
  mBoxes s' = mBoxes s /\ mEndPoints s' = mEndPoints s /\
  mNbBoxes s' = mNbBoxes s /\ mNbMaxBoxes s' = mNbMaxBoxes s /\
  mFreeBoxIndices s' = mFreeBoxIndices s /\
  mMapBodyToBoxIndex s' = mMapBodyToBoxIndex s.

End Invariants.

(** ** The properties of section 8 *)

Module Properties.

Import SAP.

(** No notification is repeated without the opposite one in between. *)
Definition alternating (events : list Event) : Prop :=
  forall p (i j : nat), (i < j)%nat ->
    (events !! i = Some (PairAdded p) -> events !! j = Some (PairAdded p) ->
     exists k, (i < k < j)%nat /\ events !! k = Some (PairRemoved p)) /\
    (events !! i = Some (PairRemoved p) -> events !! j = Some (PairRemoved p) ->
     exists k, (i < k < j)%nat /\ events !! k = Some (PairAdded p)).

(** The markers of a box on an axis are in order. *)
Definition boxesOrdered (s : State) : Prop :=
  forall axis body id emin emax,
    mMapBodyToBoxIndex s !! body = Some id ->
    emin ∈ get3 (mEndPoints s) axis -> emax ∈ get3 (mEndPoints s) axis ->
    boxID emin = id -> isMin emin = true ->
    boxID emax = id -> isMin emax = false ->
    value emin <= value emax.

Definition arraysSorted (s : State) : Prop :=
  forall axis, sorted_by_value (get3 (mEndPoints s) axis).

(** Float comparison [a <= b]. *)
Definition float_le (a b : Z) : Prop :=
  SFleb (Float32.decode a) (Float32.decode b) = true.

(** An AABB with finite coordinates and [min <= max] on every axis, the case
    [min = +0.0], [max = -0.0] apart. *)
Definition properAABB (aabb : AABB) : Prop :=
  Forall (fun axis =>
            Float32.finite (get3 (minCoordinates aabb) axis) /\
            Float32.finite (get3 (maxCoordinates aabb) axis) /\
            float_le (get3 (minCoordinates aabb) axis)
                     (get3 (maxCoordinates aabb) axis) /\
            ~ (get3 (minCoordinates aabb) axis = Float32.pos_zero /\
               get3 (maxCoordinates aabb) axis = Float32.neg_zero))
         all_axes.

(** The AABB last supplied for every tracked body is proper. *)
Definition properBoxes (g : gmap CollisionBody AABB) : Prop :=
  map_Forall (fun _ aabb => properAABB aabb) g.

Global Instance is_word_dec w : Decision (Word.is_word w).
Proof. unfold Word.is_word. apply _. Defined.

Global Instance finite_dec w : Decision (Float32.finite w).
Proof. unfold Float32.finite. apply _. Defined.

Global Instance float_le_dec a b : Decision (float_le a b).
Proof. unfold float_le. apply _. Defined.

Global Instance properAABB_dec aabb : Decision (properAABB aabb).
Proof. unfold properAABB. apply _. Defined.

Global Instance properBoxes_dec g : Decision (properBoxes g).
Proof. unfold properBoxes. apply _. Defined.

End Properties.

(** ** Pair completeness *)

Module Completeness.

Import SAP Invariants Properties.

(** *** On the floats supplied *)



Definition finiteAABB (a : AABB) : Prop :=
  Forall (fun axis => Float32.finite (get3 (minCoordinates a) axis) /\
                      Float32.finite (get3 (maxCoordinates a) axis))
         all_axes.

(** No minimum of [a1] equals, as a float, a maximum of [a2]. *)
Definition apart (a1 a2 : AABB) : Prop :=
  Forall (fun axis => ~ Float32.eq (get3 (minCoordinates a1) axis)
                                   (get3 (maxCoordinates a2) axis))
         all_axes.

(** All coordinates are finite and no two tracked boxes touch exactly. *)
Definition neverTouching (g : gmap CollisionBody AABB) : Prop :=
  map_Forall (fun b1 a1 =>
    finiteAABB a1 /\
    map_Forall (fun b2 a2 => b1 = b2 \/ apart a1 a2) g) g.

(** No minimum of [a1] is +0.0 while the maximum of [a2] on the same axis is
    -0.0: the one pair of finite floats with [min <= max] whose codes are in
    the opposite order. *)
Definition zeroSafePair (a1 a2 : AABB) : Prop :=
  Forall (fun axis => ~ (get3 (minCoordinates a1) axis = Float32.pos_zero /\
                         get3 (maxCoordinates a2) axis = Float32.neg_zero))
         all_axes.

(** All coordinates are finite and no two tracked boxes are in contact
    through the two zeros. *)
Definition zeroSafe (g : gmap CollisionBody AABB) : Prop :=
  map_Forall (fun b1 a1 =>
    finiteAABB a1 /\
    map_Forall (fun b2 a2 => b1 = b2 \/ zeroSafePair a1 a2) g) g.

(** No two boxes touch just before and just after every [updateObject] of
    the sequence; at its end no two boxes are in contact through the two
    zeros. *)
Definition quiet (g : gmap CollisionBody AABB) (op : Op) : Prop :=
  match op with
  | OpUpdate _ _ => neverTouching g /\ neverTouching (supply g op)
  | _ => True
  end.

Fixpoint contactFree (g : gmap CollisionBody AABB) (ops : list Op) : Prop :=
  match ops with
  | [] => zeroSafe g
  | op :: rest => quiet g op /\ contactFree (supply g op) rest
  end.

Global Instance float_eq_dec a b : Decision (Float32.eq a b).
Proof. unfold Float32.eq. apply _. Defined.

Global Instance finiteAABB_dec a : Decision (finiteAABB a).
Proof. unfold finiteAABB. apply _. Defined.

Global Instance apart_dec a1 a2 : Decision (apart a1 a2).
Proof. unfold apart. apply _. Defined.

Global Instance neverTouching_dec g : Decision (neverTouching g).
Proof. unfold neverTouching. apply _. Defined.

Global Instance zeroSafePair_dec a1 a2 : Decision (zeroSafePair a1 a2).
Proof. unfold zeroSafePair. apply _. Defined.

Global Instance zeroSafe_dec g : Decision (zeroSafe g).
Proof. unfold zeroSafe. apply _. Defined.

Global Instance quiet_dec g op : Decision (quiet g op).
Proof. destruct op; cbn; apply _. Defined.

Global Instance contactFree_dec g ops : Decision (contactFree g ops).
Proof. revert g. induction ops as [|op ops IH]; intros g; cbn; apply _. Defined.

(** *** On the integers stored *)






(** A swap that asks for a recheck of the pair with box [other]. *)
Definition hits (id : bodyindex) (k : bool) (other : bodyindex) (x : EndPoint) : Prop :=
  isMin x <> k /\ boxID x <> id /\ boxID x = other.

Global Instance hits_dec id k other x : Decision (hits id k other x).
Proof. unfold hits. apply _. Defined.


End Completeness.

(** ** The life cycle of a body

    Modelled from the spec: the state machine of section 4.2, "Untracked ->
    Live (on addObject) -> Live (on updateObject, self-loop) -> Untracked (on
    removeObject); no other transitions permitted", read on the calls alone,
    with no look at the structure. *)

Module Lifecycle.

Import SAP.

(** The live bodies after one more call. *)
Definition track (live : gset CollisionBody) (op : Op) : gset CollisionBody :=
  match op with
  | OpAdd body _ => {[body]} ∪ live
  | OpRemove body => live ∖ {[body]}
  | OpUpdate _ _ => live
  end.

(** The live bodies after a sequence of calls. *)
Definition tracked (ops : list Op) : gset CollisionBody := foldl track ∅ ops.

(** Modelled from the spec: the error of section 7 for a call that the
    state machine does not permit: "add called for a body already tracked",
    "update/remove called for a body not currently tracked". *)
Definition misuse (live : gset CollisionBody) (op : Op) : option Error :=
  match op with
  | OpAdd body _ => if decide (body ∈ live) then Some DuplicateBody else None
  | OpRemove body => if decide (body ∈ live) then None else Some UnknownBody
  | OpUpdate body _ => if decide (body ∈ live) then None else Some UnknownBody
  end.

End Lifecycle.

(** ** The scenario of section 8

    Box A is [0,1]^3; box B has y and z in [0,1] and starts at x in [5,6],
    then moves to x in [0.5,1.5] and back.  Floats are written as their bit
    patterns: 0.5 = [0x3F000000], 1.0 = [0x3F800000], 1.5 = [0x3FC00000],
    5.0 = [0x40A00000], 6.0 = [0x40C00000]. *)

Module Scenario.

Import SAP.

Definition bodyA : CollisionBody := 10%nat.
Definition bodyB : CollisionBody := 20%nat.

Definition boxA : AABB :=
  MkAABB (MkArray3 0 0 0) (MkArray3 0x3F800000 0x3F800000 0x3F800000).
Definition boxB_far : AABB :=
  MkAABB (MkArray3 0x40A00000 0 0) (MkArray3 0x40C00000 0x3F800000 0x3F800000).
Definition boxB_near : AABB :=
  MkAABB (MkArray3 0x3F000000 0 0) (MkArray3 0x3FC00000 0x3F800000 0x3F800000).

Definition approach : list Op :=
  [OpAdd bodyA boxA; OpAdd bodyB boxB_far; OpUpdate bodyB boxB_near].

Definition approach_and_leave : list Op :=
  approach ++ [OpUpdate bodyB boxB_far].

(** The notifications of a run, when it succeeds. *)
Definition eventsOf (r : Result State) : option (list Event) :=
  match r with
  | Ok s => Some (mEvents s)
  | Failed _ => None
  end.

End Scenario.


(** * Contact points

    Shallow embedding of [src/constraint/ContactPoint.h]: the attributes of
    [class ContactPoint] and its inline accessors.  A C++ method that writes
    a member of [this] is a function from the object to the object written.
    The members that [ContactPoint] inherits from [Constraint] are declared in
    [Constraint.h]; no accessor of this header reads or writes them. *)

Module ContactPoint.

Section Model.

(** [Vector3] and [decimal] are declared in [mathematics.h] and
    [configuration.h]; the accessors copy values of these types and look at
    nothing inside them. *)
Context {Vector3 decimal : Type}.

(** The attributes of [class ContactPoint].  [mFrictionVectors] is a
    [std::vector<Vector3>]. *)
Record t : Type := Mk {
  mNormal : Vector3;
  mPenetrationDepth : decimal;
  mLocalPointOnBody1 : Vector3;
  mLocalPointOnBody2 : Vector3;
  mWorldPointOnBody1 : Vector3;
  mWorldPointOnBody2 : Vector3;
  mIsRestingContact : bool;
  mFrictionVectors : list Vector3
}.

(** [ContactPoint::getNormal]. *)
Definition getNormal (this : t) : Vector3 := mNormal this.

(** [ContactPoint::setPenetrationDepth]. *)
Definition setPenetrationDepth (this : t) (penetrationDepth : decimal) : t :=
  Mk (mNormal this) penetrationDepth
     (mLocalPointOnBody1 this) (mLocalPointOnBody2 this)
     (mWorldPointOnBody1 this) (mWorldPointOnBody2 this)
     (mIsRestingContact this) (mFrictionVectors this).

(** [ContactPoint::getLocalPointOnBody1] and [getLocalPointOnBody2]. *)
Definition getLocalPointOnBody1 (this : t) : Vector3 := mLocalPointOnBody1 this.
Definition getLocalPointOnBody2 (this : t) : Vector3 := mLocalPointOnBody2 this.

(** [ContactPoint::getWorldPointOnBody1] and [getWorldPointOnBody2]. *)
Definition getWorldPointOnBody1 (this : t) : Vector3 := mWorldPointOnBody1 this.
Definition getWorldPointOnBody2 (this : t) : Vector3 := mWorldPointOnBody2 this.

(** [ContactPoint::setWorldPointOnBody1] and [setWorldPointOnBody2]. *)
Definition setWorldPointOnBody1 (this : t) (worldPoint : Vector3) : t :=
  Mk (mNormal this) (mPenetrationDepth this)
     (mLocalPointOnBody1 this) (mLocalPointOnBody2 this)
     worldPoint (mWorldPointOnBody2 this)
     (mIsRestingContact this) (mFrictionVectors this).
Definition setWorldPointOnBody2 (this : t) (worldPoint : Vector3) : t :=
  Mk (mNormal this) (mPenetrationDepth this)
     (mLocalPointOnBody1 this) (mLocalPointOnBody2 this)
     (mWorldPointOnBody1 this) worldPoint
     (mIsRestingContact this) (mFrictionVectors this).

(** [ContactPoint::getIsRestingContact] and [setIsRestingContact]. *)
Definition getIsRestingContact (this : t) : bool := mIsRestingContact this.
Definition setIsRestingContact (this : t) (isRestingContact : bool) : t :=
  Mk (mNormal this) (mPenetrationDepth this)
     (mLocalPointOnBody1 this) (mLocalPointOnBody2 this)
     (mWorldPointOnBody1 this) (mWorldPointOnBody2 this)
     isRestingContact (mFrictionVectors this).

(** [ContactPoint::getPenetrationDepth]. *)
Definition getPenetrationDepth (this : t) : decimal := mPenetrationDepth this.

(** The object with element [i] of [mFrictionVectors] overwritten.
    [std::vector::operator[]] outside the bounds of the vector has no defined
    result: [None]. *)
Definition writeFrictionVector (this : t) (i : nat) (v : Vector3) : option t :=
  _ ← mFrictionVectors this !! i;
  Some (Mk (mNormal this) (mPenetrationDepth this)
           (mLocalPointOnBody1 this) (mLocalPointOnBody2 this)
           (mWorldPointOnBody1 this) (mWorldPointOnBody2 this)
           (mIsRestingContact this) (<[i := v]> (mFrictionVectors this))).

(** [ContactPoint::getFrictionVector1]: [mFrictionVectors[0]]. *)
Definition getFrictionVector1 (this : t) : option Vector3 :=
  mFrictionVectors this !! 0%nat.

(** [ContactPoint::setFrictionVector1]: [mFrictionVectors[0] = frictionVector1]. *)
Definition setFrictionVector1 (this : t) (frictionVector1 : Vector3) : option t :=
  writeFrictionVector this 0 frictionVector1.

(** [ContactPoint::getFrictionVector2]: [mFrictionVectors[1]]. *)
Definition getFrictionVector2 (this : t) : option Vector3 :=
  mFrictionVectors this !! 1%nat.

(** [ContactPoint::setFrictionVector2]: [mFrictionVectors[1] = frictionVector2]. *)
Definition setFrictionVector2 (this : t) (frictionVector2 : Vector3) : option t :=
  writeFrictionVector this 1 frictionVector2.

(** *** Sequences of calls

    A call of one of the six methods of the header that write the object,
    with its argument. *)
Inductive Call : Type :=
  | SetPenetrationDepth (penetrationDepth : decimal)
  | SetWorldPointOnBody1 (worldPoint : Vector3)
  | SetWorldPointOnBody2 (worldPoint : Vector3)
  | SetIsRestingContact (isRestingContact : bool)
  | SetFrictionVector1 (frictionVector1 : Vector3)
  | SetFrictionVector2 (frictionVector2 : Vector3).

Definition call (this : t) (c : Call) : option t :=
  match c with
  | SetPenetrationDepth d => Some (setPenetrationDepth this d)
  | SetWorldPointOnBody1 v => Some (setWorldPointOnBody1 this v)
  | SetWorldPointOnBody2 v => Some (setWorldPointOnBody2 this v)
  | SetIsRestingContact b => Some (setIsRestingContact this b)
  | SetFrictionVector1 v => setFrictionVector1 this v
  | SetFrictionVector2 v => setFrictionVector2 this v
  end.

Fixpoint calls (this : t) (cs : list Call) : option t :=
  match cs with
  | [] => Some this
  | c :: cs => this' ← call this c; calls this' cs
  end.

(** The attributes that have a getter and a setter, and the values they
    hold. *)
Inductive Attribute : Type :=
  | PenetrationDepth
  | WorldPointOnBody1
  | WorldPointOnBody2
  | IsRestingContact
  | FrictionVector1
  | FrictionVector2.

Inductive Value : Type :=
  | VDecimal (d : decimal)
  | VVector3 (v : Vector3)
  | VBool (b : bool).

(** The attribute a call writes and the value it writes there. *)
Definition attribute (c : Call) : Attribute :=
  match c with
  | SetPenetrationDepth _ => PenetrationDepth
  | SetWorldPointOnBody1 _ => WorldPointOnBody1
  | SetWorldPointOnBody2 _ => WorldPointOnBody2
  | SetIsRestingContact _ => IsRestingContact
  | SetFrictionVector1 _ => FrictionVector1
  | SetFrictionVector2 _ => FrictionVector2
  end.

Definition argument (c : Call) : Value :=
  match c with
  | SetPenetrationDepth d => VDecimal d
  | SetWorldPointOnBody1 v => VVector3 v
  | SetWorldPointOnBody2 v => VVector3 v
  | SetIsRestingContact b => VBool b
  | SetFrictionVector1 v => VVector3 v
  | SetFrictionVector2 v => VVector3 v
  end.

(** The getter of an attribute. *)
Definition get (this : t) (a : Attribute) : option Value :=
  match a with
  | PenetrationDepth => Some (VDecimal (getPenetrationDepth this))
  | WorldPointOnBody1 => Some (VVector3 (getWorldPointOnBody1 this))
  | WorldPointOnBody2 => Some (VVector3 (getWorldPointOnBody2 this))
  | IsRestingContact => Some (VBool (getIsRestingContact this))
  | FrictionVector1 => VVector3 <$> getFrictionVector1 this
  | FrictionVector2 => VVector3 <$> getFrictionVector2 this
  end.

Global Instance Attribute_eq_dec : EqDecision Attribute.
Proof. solve_decision. Defined.

(** The argument of the last call in [cs] that writes the attribute [a]. *)
Definition lastWritten (a : Attribute) (cs : list Call) : option Value :=
  argument <$> last (filter (fun c => attribute c = a) cs).

(** The number of friction vectors a call needs the object to hold. *)
Definition needs (c : Call) : nat :=
  match c with
  | SetFrictionVector1 _ => 1
  | SetFrictionVector2 _ => 2
  | _ => 0
  end.

End Model.

Arguments t : clear implicits.
Arguments Call : clear implicits.
Arguments Value : clear implicits.

(** A contact with the two friction vectors allocated, vectors written as
    three integers and decimals as bit patterns. *)
Definition sampleContact : t (Array3 Z) Z :=
  Mk (MkArray3 0 1 0) 0x3F800000 (MkArray3 1 2 3) (MkArray3 4 5 6)
     (MkArray3 7 8 9) (MkArray3 10 11 12) false
     [MkArray3 1 0 0; MkArray3 0 0 1].

End ContactPoint.
(** ** Bit-level facts about the codec *)

Section CodecArith.

Lemma land_sign_mask (x : Z) :
  Word.is_word x -> (Z.land x 0x80000000 =? 0) = (x <? 2 ^ 31).
Proof.
  intros [H0 H1]. unfold Word.modulus in H1.
  change 0x80000000 with (2 ^ 31).
  destruct (Z.ltb_spec x (2 ^ 31)) as [Hlt | Hge].
  - apply Z.eqb_eq. apply Z.bits_inj'. intros n Hn.
    rewrite Z.land_spec, Z.bits_0, Z.pow2_bits_eqb by lia.
    destruct (Z.eqb_spec 31 n) as [<- | Hne]; [|apply andb_false_r].
    rewrite andb_true_r. apply Z.testbit_false; [lia|].
    rewrite Z.div_small; [reflexivity | lia].
  - apply Z.eqb_neq. intros Hz.
    assert (Ht : Z.testbit (Z.land x (2 ^ 31)) 31 = true).
    { rewrite Z.land_spec, Z.pow2_bits_eqb by lia. rewrite Z.eqb_refl, andb_true_r.
      apply Z.testbit_true; [lia|].
      assert (Hq : x / 2 ^ 31 = 1).
      { symmetry. apply (Z.div_unique x (2 ^ 31) 1 (x - 2 ^ 31)); lia. }
      rewrite Hq. reflexivity. }
    rewrite Hz, Z.bits_0 in Ht. discriminate.
Qed.

Lemma lor_sign_mask (x : Z) :
  0 <= x < 2 ^ 31 -> Z.lor x 0x80000000 = x + 2 ^ 31.
Proof.
  intros Hx. change 0x80000000 with (2 ^ 31).
  assert (Hl : Z.land x (2 ^ 31) = 0).
  { apply Z.eqb_eq. change (2 ^ 31) with 0x80000000 at 1.
    rewrite land_sign_mask; [apply Z.ltb_lt; lia|].
    unfold Word.is_word, Word.modulus. lia. }
  pose proof (Z.add_lor_land x (2 ^ 31)) as Ha. rewrite Hl in Ha. lia.
Qed.

Lemma not32_arith (x : Z) :
  Word.is_word x -> Word.not32 x = 2 ^ 32 - 1 - x.
Proof.
  intros [H0 H1]. unfold Word.not32, Word.wrap, Word.modulus in *.
  unfold Z.lnot, Z.pred.
  replace (- x + -1) with (2 ^ 32 - 1 - x + (-1) * 2 ^ 32) by lia.
  rewrite Z.mod_add by lia. apply Z.mod_small. lia.
Qed.

(** The codec in arithmetic form. *)
Lemma encode_arith (x : Z) :
  Word.is_word x ->
  encodeFloatIntoInteger x =
    if x <? 2 ^ 31 then x + 2 ^ 31 else 2 ^ 32 - 1 - x.
Proof.
  intros Hx. unfold encodeFloatIntoInteger. cbv zeta.
  rewrite land_sign_mask by assumption.
  destruct (Z.ltb_spec x (2 ^ 31)); cbn [negb].
  - apply lor_sign_mask. destruct Hx. lia.
  - apply not32_arith. assumption.
Qed.

Lemma encode_is_word (x : Z) :
  Word.is_word x -> Word.is_word (encodeFloatIntoInteger x).
Proof.
  intros Hx. rewrite encode_arith by assumption.
  unfold Word.is_word, Word.modulus in *.
  destruct (Z.ltb_spec x (2 ^ 31)); lia.
Qed.

End CodecArith.

(** ** The IEEE order of finite floats, read on bit patterns *)

Section FloatOrder.

Lemma word_fields (w : Z) :
  Word.is_word w ->
  0 <= Float32.exponent w < 256 /\ 0 <= Float32.fraction w < 2 ^ 23 /\
  w = (if Float32.sign w then 2 ^ 31 else 0)
      + Float32.exponent w * 2 ^ 23 + Float32.fraction w.
Proof.
  unfold Word.is_word, Word.modulus, Float32.exponent, Float32.fraction, Float32.sign.
  intros Hw. destruct (Z.leb_spec (2 ^ 31) w); Z.div_mod_to_equations; lia.
Qed.

Ltac split_compare :=
  repeat match goal with
         | |- context [Z.compare ?x ?y] => destruct (Z.compare_spec x y)
         end.

Lemma SFcompare_decode (a b : Z) :
  Float32.finite a -> Float32.finite b ->
  SFcompare (Float32.decode a) (Float32.decode b)
  = Some (Float32.signed_magnitude a ?= Float32.signed_magnitude b).
Proof.
  intros [Ha Hfa] [Hb Hfb].
  destruct (word_fields a Ha) as (Hea & Hma & Hwa).
  destruct (word_fields b Hb) as (Heb & Hmb & Hwb).
  unfold Float32.signed_magnitude, Float32.decode.
  rewrite (proj2 (Z.eqb_neq _ 255) Hfa), (proj2 (Z.eqb_neq _ 255) Hfb).
  generalize dependent (Float32.exponent a). intros ea Hfa Hea Hwa.
  generalize dependent (Float32.exponent b). intros eb Hfb Heb Hwb.
  generalize dependent (Float32.fraction a). intros ma Hma Hwa.
  generalize dependent (Float32.fraction b). intros mb Hmb Hwb.
  destruct (Float32.sign a), (Float32.sign b);
    destruct (Z.eqb_spec ea 0) as [Ea | Ea], (Z.eqb_spec eb 0) as [Eb | Eb];
    cbv zeta;
    destruct (ma + 2 ^ 23) as [|pa|pa] eqn:Epa; try lia;
    destruct (mb + 2 ^ 23) as [|pb|pb] eqn:Epb; try lia;
    destruct ma as [|qa|qa]; try lia; destruct mb as [|qb|qb]; try lia;
    cbn [SFcompare];
    repeat match goal with
           | |- context [Pos.compare_cont Eq ?p ?q] =>
               change (Pos.compare_cont Eq p q) with (Z.compare (Zpos p) (Zpos q))
           end;
    f_equal; split_compare; cbn [CompOpp]; try reflexivity; lia.
Qed.

End FloatOrder.

Section CodecTheorems.

(** The codes of -1.0, -0.0, +0.0 and 1.0, in this order. *)
Example encode_samples :
  map encodeFloatIntoInteger [0xBF800000; 0x80000000; 0x00000000; 0x3F800000]
  = [0x407FFFFF; 0x7FFFFFFF; 0x80000000; 0xBF800000].
Proof. vm_compute. reflexivity. Qed.

Lemma float_lt_signed_magnitude (a b : Z) :
  Float32.finite a -> Float32.finite b ->
  Float32.lt a b <-> Float32.signed_magnitude a < Float32.signed_magnitude b.
Proof.
  intros Ha Hb. unfold Float32.lt, SFltb.
  rewrite (SFcompare_decode a b Ha Hb).
  destruct (Z.compare_spec (Float32.signed_magnitude a) (Float32.signed_magnitude b));
    split; intros; try discriminate; try reflexivity; lia.
Qed.

Lemma encode_signed_magnitude (a : Z) :
  Word.is_word a ->
  encodeFloatIntoInteger a =
    if Float32.sign a then 2 ^ 31 - 1 + Float32.signed_magnitude a
    else 2 ^ 31 + Float32.signed_magnitude a.
Proof.
  intros Ha. rewrite encode_arith by assumption.
  unfold Float32.signed_magnitude, Float32.sign.
  destruct (Z.ltb_spec a (2 ^ 31)), (Z.leb_spec (2 ^ 31) a); lia.
Qed.

Lemma signed_magnitude_range (a : Z) :
  Word.is_word a ->
  if Float32.sign a then - 2 ^ 31 < Float32.signed_magnitude a <= 0 /\ a = 2 ^ 31 - Float32.signed_magnitude a
  else 0 <= Float32.signed_magnitude a < 2 ^ 31 /\ a = Float32.signed_magnitude a.
Proof.
  unfold Word.is_word, Word.modulus, Float32.signed_magnitude, Float32.sign.
  intros Ha. destruct (Z.leb_spec (2 ^ 31) a); lia.
Qed.

(** C1, as stated, fails at the pair (-0.0, +0.0): the two zeros are finite
    floats, -0.0 < +0.0 is false, and yet the code of -0.0 is below the code
    of +0.0. *)
Lemma encode_order_signed_zero :
  Float32.finite Float32.neg_zero /\ Float32.finite Float32.pos_zero /\
  ~ (Float32.lt Float32.neg_zero Float32.pos_zero <->
     encodeFloatIntoInteger Float32.neg_zero < encodeFloatIntoInteger Float32.pos_zero).
Proof.
  split; [|split].
  - split; [unfold Word.is_word; vm_compute; split; congruence | vm_compute; congruence].
  - split; [unfold Word.is_word; vm_compute; split; congruence | vm_compute; congruence].
  - intros [_ H]. assert (Hlt : Float32.lt Float32.neg_zero Float32.pos_zero).
    { apply H. vm_compute. reflexivity. }
    vm_compute in Hlt. discriminate.
Qed.

(** C1 (amended): on finite floats the codec is strictly monotone and
    injective; conversely an order between two codes is an order between the
    floats, except for the single pair (-0.0, +0.0), which the codec separates
    although the floats compare equal. *)
Theorem encode_order_preserving (a b : Z) :
  Float32.finite a -> Float32.finite b ->
  (Float32.lt a b -> encodeFloatIntoInteger a < encodeFloatIntoInteger b) /\
  (encodeFloatIntoInteger a < encodeFloatIntoInteger b ->
     Float32.lt a b \/ (a = Float32.neg_zero /\ b = Float32.pos_zero)) /\
  (encodeFloatIntoInteger a = encodeFloatIntoInteger b -> a = b).
Proof.
  intros Ha Hb.
  rewrite (float_lt_signed_magnitude a b Ha Hb).
  destruct Ha as [Ha _], Hb as [Hb _].
  rewrite (encode_signed_magnitude a Ha), (encode_signed_magnitude b Hb).
  pose proof (signed_magnitude_range a Ha) as Ra.
  pose proof (signed_magnitude_range b Hb) as Rb.
  unfold Float32.neg_zero, Float32.pos_zero.
  change 0x80000000 with (2 ^ 31).
  destruct (Float32.sign a), (Float32.sign b); lia.
Qed.

Lemma encode_order_preserving_witness :
  (Float32.lt 0xBF800000 0x3F800000 ->
   encodeFloatIntoInteger 0xBF800000 < encodeFloatIntoInteger 0x3F800000) /\
  (encodeFloatIntoInteger 0xBF800000 < encodeFloatIntoInteger 0x3F800000 ->
     Float32.lt 0xBF800000 0x3F800000
     \/ (0xBF800000 = Float32.neg_zero /\ 0x3F800000 = Float32.pos_zero)) /\
  (encodeFloatIntoInteger 0xBF800000 = encodeFloatIntoInteger 0x3F800000 ->
     0xBF800000 = 0x3F800000).
Proof.
  apply (encode_order_preserving 0xBF800000 0x3F800000).
  - split; [unfold Word.is_word; vm_compute; split; congruence | vm_compute; congruence].
  - split; [unfold Word.is_word; vm_compute; split; congruence | vm_compute; congruence].
Defined.

End CodecTheorems.

Section CodecBits.

Lemma testbit_sign (w : Z) :
  Word.is_word w -> Z.testbit w 31 = (2 ^ 31 <=? w).
Proof.
  unfold Word.is_word, Word.modulus. intros Hw.
  destruct (Z.leb_spec (2 ^ 31) w) as [Hge | Hlt].
  - apply Z.testbit_true; [lia|].
    replace (w / 2 ^ 31) with 1; [reflexivity|].
    apply (Z.div_unique w (2 ^ 31) 1 (w - 2 ^ 31)); lia.
  - apply Z.testbit_false; [lia|]. rewrite Z.div_small; [reflexivity | lia].
Qed.

(** C2: the codec follows the rule of the specification bit for bit: the
    result is a 32-bit word whose bit [i] is the complement of the input's
    bit [i] when the input's sign bit is set, and otherwise the input's bit
    [i] with bit 31 forced to one. *)
Theorem encode_bit_rule (w : Z) :
  Word.is_word w ->
  Word.is_word (encodeFloatIntoInteger w) /\
  encodeFloatIntoInteger w = encode_rule w /\
  forall i, 0 <= i < 32 ->
    Z.testbit (encodeFloatIntoInteger w) i = encode_rule_bit w i.
Proof.
  intros Hw. split; [apply encode_is_word; assumption|].
  assert (Hsign : negb (Z.land w 0x80000000 =? 0) = Z.testbit w 31).
  { rewrite land_sign_mask, testbit_sign by assumption.
    destruct (Z.ltb_spec w (2 ^ 31)), (Z.leb_spec (2 ^ 31) w); try reflexivity; lia. }
  split.
  - unfold encodeFloatIntoInteger, encode_rule, sign_bit_set. cbv zeta.
    rewrite Hsign. destruct (Z.testbit w 31) eqn:Hs.
    + unfold complement32. apply not32_arith. assumption.
    + unfold set_sign_bit. reflexivity.
  - intros i Hi. unfold encodeFloatIntoInteger, encode_rule_bit, sign_bit_set. cbv zeta.
    rewrite Hsign. destruct (Z.testbit w 31) eqn:Hs.
    + unfold Word.not32, Word.wrap, Word.modulus.
      rewrite Z.mod_pow2_bits_low by lia. apply Z.lnot_spec. lia.
    + rewrite Z.lor_spec. change 0x80000000 with (2 ^ 31).
      rewrite Z.pow2_bits_eqb by lia. rewrite (Z.eqb_sym 31 i).
      destruct (i =? 31); [apply orb_true_r | apply orb_false_r].
Qed.

Lemma encode_bit_rule_witness :
  Word.is_word (encodeFloatIntoInteger 0xC0490FDB) /\
  encodeFloatIntoInteger 0xC0490FDB = encode_rule 0xC0490FDB /\
  forall i, 0 <= i < 32 ->
    Z.testbit (encodeFloatIntoInteger 0xC0490FDB) i = encode_rule_bit 0xC0490FDB i.
Proof.
  apply (encode_bit_rule 0xC0490FDB).
  unfold Word.is_word. vm_compute. split; congruence.
Defined.

(** C10: the codec is a bijection of the 32-bit words; it sends -0.0 to
    [0x7FFFFFFF] and +0.0 to [0x80000000], two different codes for two floats
    that compare equal. *)
Theorem encode_bijective_on_words :
  (forall a b, Word.is_word a -> Word.is_word b ->
     encodeFloatIntoInteger a = encodeFloatIntoInteger b -> a = b) /\
  (forall c, Word.is_word c ->
     exists a, Word.is_word a /\ encodeFloatIntoInteger a = c) /\
  encodeFloatIntoInteger Float32.neg_zero = 0x7FFFFFFF /\
  encodeFloatIntoInteger Float32.pos_zero = 0x80000000 /\
  Float32.eq Float32.neg_zero Float32.pos_zero.
Proof.
  split; [|split; [|split; [|split]]].
  - intros a b Ha Hb. rewrite !encode_arith by assumption.
    unfold Word.is_word, Word.modulus in *.
    destruct (Z.ltb_spec a (2 ^ 31)), (Z.ltb_spec b (2 ^ 31)); lia.
  - intros c Hc.
    exists (if c <? 2 ^ 31 then 2 ^ 32 - 1 - c else c - 2 ^ 31).
    unfold Word.is_word, Word.modulus in Hc.
    assert (Hw : Word.is_word (if c <? 2 ^ 31 then 2 ^ 32 - 1 - c else c - 2 ^ 31)).
    { unfold Word.is_word, Word.modulus. destruct (Z.ltb_spec c (2 ^ 31)); lia. }
    split; [exact Hw|]. rewrite encode_arith by exact Hw.
    destruct (Z.ltb_spec c (2 ^ 31));
      match goal with |- context [?x <? ?y] => destruct (Z.ltb_spec x y) end; lia.
  - vm_compute. reflexivity.
  - vm_compute. reflexivity.
  - vm_compute. reflexivity.
Qed.

Lemma encode_bijective_on_words_witness :
  (encodeFloatIntoInteger 0x3F800000 = encodeFloatIntoInteger 0x3F800000 ->
   0x3F800000 = 0x3F800000) /\
  (exists a, Word.is_word a /\ encodeFloatIntoInteger a = 0x12345678).
Proof.
  destruct encode_bijective_on_words as (Hinj & Hsurj & _).
  split.
  - apply (Hinj 0x3F800000 0x3F800000);
      unfold Word.is_word; vm_compute; split; congruence.
  - apply (Hsurj 0x12345678). unfold Word.is_word. vm_compute. split; congruence.
Defined.

End CodecBits.

(** ** The two overlap tests *)

Section OverlapTests.

Lemma intervals_intersect_common_point (lo1 hi1 lo2 hi2 : Z) :
  lo1 <= hi1 -> lo2 <= hi2 ->
  intervals_intersect lo1 hi1 lo2 hi2 <-> common_point lo1 hi1 lo2 hi2.
Proof.
  intros H1 H2. unfold intervals_intersect, common_point. split.
  - intros [Ha Hb]. exists (Z.max lo1 lo2). lia.
  - intros (v & Hv1 & Hv2). lia.
Qed.

Lemma strictly_sorted_lookup (l : list EndPoint) (i j : nat) (ei ej : EndPoint) :
  strictly_sorted_by_value l ->
  l !! i = Some ei -> l !! j = Some ej ->
  (i < j)%nat -> value ei < value ej.
Proof.
  unfold strictly_sorted_by_value. intros Hs. revert i j ei ej.
  induction Hs as [|x l Hs IH Hx]; intros i j ei ej Hi Hj Hlt.
  - rewrite lookup_nil in Hi. discriminate.
  - destruct j as [|j]; [lia|]. cbn in Hj.
    destruct i as [|i]; cbn in Hi.
    + injection Hi as <-. rewrite Forall_forall in Hx.
      apply Hx. eapply list_elem_of_lookup_2. exact Hj.
    + apply (IH i j); [assumption | assumption | lia].
Qed.

(** On a strictly sorted array the order of two indices is the order of the
    values they hold. *)
Lemma strictly_sorted_index_order (l : list EndPoint) (i j : nat) (ei ej : EndPoint) :
  strictly_sorted_by_value l ->
  l !! i = Some ei -> l !! j = Some ej ->
  (j <? i)%nat = (value ej <? value ei).
Proof.
  intros Hs Hi Hj.
  destruct (Nat.ltb_spec j i) as [Hlt | Hge], (Z.ltb_spec (value ej) (value ei)) as [Hv | Hv];
    try reflexivity.
  - pose proof (strictly_sorted_lookup l j i ej ei Hs Hj Hi Hlt). lia.
  - destruct (decide (i = j)) as [-> | Hne].
    + rewrite Hi in Hj. injection Hj as ->. lia.
    + pose proof (strictly_sorted_lookup l i j ei ej Hs Hi Hj ltac:(lia)). lia.
Qed.

Lemma box_interval_inv (arr : list EndPoint) (box : BoxAABB.t) (axis : Axis) (lo hi : Z) :
  box_interval arr box axis = Some (lo, hi) ->
  exists elo ehi,
    arr !! get3 (BoxAABB.min box) axis = Some elo /\
    arr !! get3 (BoxAABB.max box) axis = Some ehi /\
    value elo = lo /\ value ehi = hi.
Proof.
  unfold box_interval. intros H.
  destruct (arr !! get3 (BoxAABB.min box) axis) as [elo|]; [|discriminate].
  destruct (arr !! get3 (BoxAABB.max box) axis) as [ehi|]; [|discriminate].
  cbn in H. injection H as <- <-. exists elo, ehi. repeat split; reflexivity.
Qed.

(** C8, as stated, fails when the second box is not a proper interval.  Such
    a box comes out of the codec for the floats [min = +0.0], [max = -0.0]
    (equal as floats): its integer minimum [0x80000000] is above its integer
    maximum [0x7FFFFFFF].  With box1 = [+0.0, 1.0] in a sorted array, the
    minimum of box1 is not above the minimum of box2, the test answers true,
    and yet no value lies in both intervals. *)
Lemma testIntersect1DSortedAABBs_improper_box :
  let lo2 := encodeFloatIntoInteger Float32.pos_zero in
  let hi2 := encodeFloatIntoInteger Float32.neg_zero in
  let arr := [MkEndPoint 0 true 0x80000000; MkEndPoint 0 false 0xBF800000] in
  let box1 := BoxAABB.Mk (MkArray3 0%nat 0%nat 0%nat) (MkArray3 1%nat 1%nat 1%nat) 7%nat in
  let box2 := AABBInt.Mk (MkArray3 lo2 lo2 lo2) (MkArray3 hi2 hi2 hi2) in
  sorted_by_value arr /\
  box_interval arr box1 AxisX = Some (0x80000000, 0xBF800000) /\
  0x80000000 <= get3 (AABBInt.min box2) AxisX /\
  testIntersect1DSortedAABBs box1 box2 arr AxisX = Some true /\
  ~ intervals_intersect 0x80000000 0xBF800000
      (get3 (AABBInt.min box2) AxisX) (get3 (AABBInt.max box2) AxisX) /\
  ~ common_point 0x80000000 0xBF800000
      (get3 (AABBInt.min box2) AxisX) (get3 (AABBInt.max box2) AxisX).
Proof.
  cbv zeta. split; [|split; [|split; [|split; [|split]]]].
  - unfold sorted_by_value. repeat constructor. unfold value_le. cbn. lia.
  - reflexivity.
  - vm_compute. congruence.
  - vm_compute. reflexivity.
  - unfold intervals_intersect. vm_compute. intros [H _]. apply H. reflexivity.
  - unfold common_point. intros (v & Hv1 & Hv2). cbn [get3 AABBInt.min AABBInt.max at0] in Hv2.
    assert (E1 : encodeFloatIntoInteger Float32.pos_zero = 0x80000000)
      by (vm_compute; reflexivity).
    assert (E2 : encodeFloatIntoInteger Float32.neg_zero = 0x7FFFFFFF)
      by (vm_compute; reflexivity).
    rewrite E1, E2 in Hv2. lia.
Qed.

(** C8 (amended): when moreover the second box is a proper interval on the
    axis (its minimum is not above its maximum), the single comparison of
    [testIntersect1DSortedAABBs] decides whether the two closed intervals
    intersect. *)
Theorem testIntersect1DSortedAABBs_correct
    (arr : list EndPoint) (box1 : BoxAABB.t) (box2 : AABBInt.t) (axis : Axis)
    (lo1 hi1 : Z) :
  sorted_by_value arr ->
  box_interval arr box1 axis = Some (lo1, hi1) ->
  lo1 <= get3 (AABBInt.min box2) axis ->
  get3 (AABBInt.min box2) axis <= get3 (AABBInt.max box2) axis ->
  exists b,
    testIntersect1DSortedAABBs box1 box2 arr axis = Some b /\
    (b = true <->
     intervals_intersect lo1 hi1
       (get3 (AABBInt.min box2) axis) (get3 (AABBInt.max box2) axis)) /\
    (b = true <->
     common_point lo1 hi1
       (get3 (AABBInt.min box2) axis) (get3 (AABBInt.max box2) axis)).
Proof.
  intros _ Hbox Hmin Hproper.
  destruct (box_interval_inv _ _ _ _ _ Hbox) as (elo & ehi & Hlo & Hhi & <- & <-).
  unfold testIntersect1DSortedAABBs. rewrite Hhi. cbn.
  eexists. split; [reflexivity|].
  unfold intervals_intersect, common_point.
  destruct (Z.ltb_spec (value ehi) (get3 (AABBInt.min box2) axis)) as [Hlt | Hge]; cbn.
  - split; split; try discriminate; [lia|]. intros (v & Hv1 & Hv2). lia.
  - split; split; try reflexivity; intros _; [lia|].
    exists (get3 (AABBInt.min box2) axis). lia.
Qed.

Lemma testIntersect1DSortedAABBs_correct_witness :
  exists b,
    testIntersect1DSortedAABBs
      (BoxAABB.Mk (MkArray3 0%nat 0%nat 0%nat) (MkArray3 2%nat 2%nat 2%nat) 7%nat)
      (AABBInt.Mk (MkArray3 4 4 4) (MkArray3 9 9 9))
      [MkEndPoint 0 true 1; MkEndPoint 1 true 4; MkEndPoint 0 false 6;
       MkEndPoint 1 false 9] AxisY = Some b /\
    (b = true <-> intervals_intersect 1 6 4 9) /\
    (b = true <-> common_point 1 6 4 9).
Proof.
  apply (testIntersect1DSortedAABBs_correct
           [MkEndPoint 0 true 1; MkEndPoint 1 true 4; MkEndPoint 0 false 6;
            MkEndPoint 1 false 9]
           (BoxAABB.Mk (MkArray3 0%nat 0%nat 0%nat) (MkArray3 2%nat 2%nat 2%nat) 7%nat)
           (AABBInt.Mk (MkArray3 4 4 4) (MkArray3 9 9 9)) AxisY 1 6).
  - unfold sorted_by_value. repeat constructor; unfold value_le; cbn; lia.
  - reflexivity.
  - cbn. lia.
  - cbn. lia.
Defined.

(** C9: [testIntersect2D] compares indices of end-points only; when the
    arrays of the two axes are sorted by value with all values distinct, it
    answers true exactly when the value intervals of the two boxes intersect
    on [axis1] and on [axis2]: neither interval lies wholly below the other
    or, what is the same for boxes whose minimum is not above their maximum,
    the two intervals have a value in common. *)
Theorem testIntersect2D_correct
    (endPoints : Array3 (list EndPoint)) (box1 box2 : BoxAABB.t)
    (axis1 axis2 : Axis) (lo11 hi11 lo21 hi21 lo12 hi12 lo22 hi22 : Z) :
  strictly_sorted_by_value (get3 endPoints axis1) ->
  strictly_sorted_by_value (get3 endPoints axis2) ->
  box_interval (get3 endPoints axis1) box1 axis1 = Some (lo11, hi11) ->
  box_interval (get3 endPoints axis1) box2 axis1 = Some (lo21, hi21) ->
  box_interval (get3 endPoints axis2) box1 axis2 = Some (lo12, hi12) ->
  box_interval (get3 endPoints axis2) box2 axis2 = Some (lo22, hi22) ->
  (testIntersect2D box1 box2 axis1 axis2 = true <->
   intervals_intersect lo11 hi11 lo21 hi21 /\
   intervals_intersect lo12 hi12 lo22 hi22) /\
  (lo11 <= hi11 -> lo21 <= hi21 -> lo12 <= hi12 -> lo22 <= hi22 ->
   (testIntersect2D box1 box2 axis1 axis2 = true <->
    common_point lo11 hi11 lo21 hi21 /\ common_point lo12 hi12 lo22 hi22)).
Proof.
  intros Hs1 Hs2 H11 H21 H12 H22.
  assert (Hmain : testIntersect2D box1 box2 axis1 axis2 = true <->
                  intervals_intersect lo11 hi11 lo21 hi21 /\
                  intervals_intersect lo12 hi12 lo22 hi22).
  { destruct (box_interval_inv _ _ _ _ _ H11) as (a1 & b1 & Ha1 & Hb1 & <- & <-).
    destruct (box_interval_inv _ _ _ _ _ H21) as (a2 & b2 & Ha2 & Hb2 & <- & <-).
    destruct (box_interval_inv _ _ _ _ _ H12) as (c1 & d1 & Hc1 & Hd1 & <- & <-).
    destruct (box_interval_inv _ _ _ _ _ H22) as (c2 & d2 & Hc2 & Hd2 & <- & <-).
    unfold testIntersect2D, intervals_intersect.
    rewrite (strictly_sorted_index_order _ _ _ _ _ Hs1 Ha1 Hb2).
    rewrite (strictly_sorted_index_order _ _ _ _ _ Hs1 Ha2 Hb1).
    rewrite (strictly_sorted_index_order _ _ _ _ _ Hs2 Hc1 Hd2).
    rewrite (strictly_sorted_index_order _ _ _ _ _ Hs2 Hc2 Hd1).
    rewrite negb_true_iff, !orb_false_iff, !Z.ltb_ge. tauto. }
  split; [exact Hmain|].
  intros P11 P21 P12 P22. rewrite Hmain.
  rewrite (intervals_intersect_common_point _ _ _ _ P11 P21).
  rewrite (intervals_intersect_common_point _ _ _ _ P12 P22).
  reflexivity.
Qed.

Lemma testIntersect2D_correct_witness :
  let arrX := [MkEndPoint 0 true 1; MkEndPoint 1 true 4; MkEndPoint 0 false 6;
               MkEndPoint 1 false 9] in
  let arrY := [MkEndPoint 1 true 2; MkEndPoint 1 false 3; MkEndPoint 0 true 5;
               MkEndPoint 0 false 8] in
  let box0 := BoxAABB.Mk (MkArray3 0%nat 2%nat 0%nat) (MkArray3 2%nat 3%nat 0%nat) 7%nat in
  let box1 := BoxAABB.Mk (MkArray3 1%nat 0%nat 0%nat) (MkArray3 3%nat 1%nat 0%nat) 8%nat in
  (testIntersect2D box0 box1 AxisX AxisY = true <->
   intervals_intersect 1 6 4 9 /\ intervals_intersect 5 8 2 3) /\
  (testIntersect2D box0 box1 AxisX AxisY = true <->
   common_point 1 6 4 9 /\ common_point 5 8 2 3).
Proof.
  cbv zeta.
  destruct (testIntersect2D_correct
              (MkArray3
                 [MkEndPoint 0 true 1; MkEndPoint 1 true 4; MkEndPoint 0 false 6;
                  MkEndPoint 1 false 9]
                 [MkEndPoint 1 true 2; MkEndPoint 1 false 3; MkEndPoint 0 true 5;
                  MkEndPoint 0 false 8]
                 [])
              (BoxAABB.Mk (MkArray3 0%nat 2%nat 0%nat) (MkArray3 2%nat 3%nat 0%nat) 7%nat)
              (BoxAABB.Mk (MkArray3 1%nat 0%nat 0%nat) (MkArray3 3%nat 1%nat 0%nat) 8%nat)
              AxisX AxisY 1 6 4 9 5 8 2 3) as [H1 H2].
  - unfold strictly_sorted_by_value. repeat constructor; unfold value_lt; cbn; lia.
  - unfold strictly_sorted_by_value. repeat constructor; unfold value_lt; cbn; lia.
  - reflexivity.
  - reflexivity.
  - reflexivity.
  - reflexivity.
  - split; [exact H1|]. apply H2; lia.
Defined.

End OverlapTests.

(** ** Sorted arrays of end-points *)

Section SortedArrays.

Import SAP.

Lemma sorted_by_value_app (l1 l2 : list EndPoint) :
  sorted_by_value (l1 ++ l2) <->
  sorted_by_value l1 /\ sorted_by_value l2 /\
  (forall x y, x ∈ l1 -> y ∈ l2 -> value x <= value y).
Proof.
  unfold sorted_by_value. rewrite StronglySorted_app. unfold value_le. tauto.
Qed.

Lemma sorted_by_value_cons (e : EndPoint) (l : list EndPoint) :
  sorted_by_value (e :: l) <->
  sorted_by_value l /\ (forall y, y ∈ l -> value e <= value y).
Proof.
  unfold sorted_by_value. rewrite StronglySorted_cons, Forall_forall.
  unfold value_le. tauto.
Qed.

Lemma sorted_by_value_nil : sorted_by_value [].
Proof. constructor. Qed.

(** A marker fits between two halves of a sorted array. *)
Lemma sorted_by_value_middle (l1 l2 : list EndPoint) (e : EndPoint) :
  sorted_by_value (l1 ++ l2) ->
  (forall x, x ∈ l1 -> value x <= value e) ->
  (forall y, y ∈ l2 -> value e <= value y) ->
  sorted_by_value (l1 ++ e :: l2).
Proof.
  rewrite !sorted_by_value_app, sorted_by_value_cons.
  intros (H1 & H2 & H12) Hl Hr. repeat split; try assumption.
  intros x y Hx Hy. apply elem_of_cons in Hy as [-> | Hy]; auto.
Qed.

Lemma sorted_by_value_remove_middle (l1 l2 : list EndPoint) (e : EndPoint) :
  sorted_by_value (l1 ++ e :: l2) ->
  sorted_by_value (l1 ++ l2) /\
  (forall x, x ∈ l1 -> value x <= value e) /\
  (forall y, y ∈ l2 -> value e <= value y).
Proof.
  rewrite !sorted_by_value_app, sorted_by_value_cons.
  intros (H1 & (H2 & He) & H12). repeat split; try assumption.
  - intros x y Hx Hy. apply H12; [assumption | apply elem_of_cons; auto].
  - intros x Hx. apply H12; [assumption | apply elem_of_cons; auto].
Qed.

Lemma insertEndPoint_perm (e : EndPoint) (l : list EndPoint) :
  insertEndPoint e l ≡ₚ e :: l.
Proof.
  induction l as [|x l IH]; cbn; [reflexivity|].
  destruct (value e <? value x); [reflexivity|].
  rewrite IH. apply Permutation_swap.
Qed.

Lemma elem_of_insertEndPoint (e x : EndPoint) (l : list EndPoint) :
  x ∈ insertEndPoint e l <-> x = e \/ x ∈ l.
Proof. rewrite insertEndPoint_perm. apply elem_of_cons. Qed.

Lemma insertEndPoint_sorted (e : EndPoint) (l : list EndPoint) :
  sorted_by_value l -> sorted_by_value (insertEndPoint e l).
Proof.
  induction l as [|x l IH]; cbn; intros Hs.
  - apply sorted_by_value_cons. split; [constructor|]. intros y Hy. inversion Hy.
  - apply sorted_by_value_cons in Hs as [Hl Hx].
    destruct (Z.ltb_spec (value e) (value x)) as [Hlt | Hge].
    + apply sorted_by_value_cons. split.
      * apply sorted_by_value_cons. auto.
      * intros y Hy. apply elem_of_cons in Hy as [-> | Hy]; [lia|].
        specialize (Hx y Hy). lia.
    + apply sorted_by_value_cons. split; [auto|].
      intros y Hy. apply elem_of_insertEndPoint in Hy as [-> | Hy]; auto.
Qed.

Lemma filter_sorted (P : EndPoint -> Prop) `{!forall e, Decision (P e)}
    (l : list EndPoint) :
  sorted_by_value l -> sorted_by_value (filter P l).
Proof.
  induction l as [|x l IH]; intros Hs; [exact Hs|].
  apply sorted_by_value_cons in Hs as [Hl Hx].
  rewrite filter_cons. destruct (decide (P x)); [|auto].
  apply sorted_by_value_cons. split; [auto|].
  intros y Hy. apply list_elem_of_filter in Hy as [_ Hy]. auto.
Qed.

End SortedArrays.

(** ** The exchange pass *)

Section ExchangePass.

Import SAP.

Lemma splitAtMarker_spec (id : bodyindex) (k : bool)
    (before l b a : list EndPoint) (e : EndPoint) :
  splitAtMarker id k before l = Some (b, e, a) ->
  reverse b ++ e :: a = reverse before ++ l /\ isMarkerOf id k e = true.
Proof.
  revert before. induction l as [|x l IH]; intros before H; cbn in H; [discriminate|].
  destruct (isMarkerOf id k x) eqn:Hx.
  - injection H as <- <- <-. auto.
  - apply IH in H as [H1 H2]. split; [|exact H2].
    rewrite H1, reverse_cons, <- app_assoc. reflexivity.
Qed.

Lemma splitAtMarker_None (id : bodyindex) (k : bool) (before l : list EndPoint) :
  splitAtMarker id k before l = None ->
  forall x, x ∈ l -> isMarkerOf id k x = false.
Proof.
  revert before. induction l as [|y l IH]; intros before H x Hx; [inversion Hx|].
  cbn in H. destruct (isMarkerOf id k y) eqn:Hy; [discriminate|].
  apply elem_of_cons in Hx as [-> | Hx]; [assumption | eauto].
Qed.

Lemma moveLeft_spec (e : EndPoint) (before after b a sw : list EndPoint) :
  moveLeft e before after = (b, a, sw) ->
  before = sw ++ b /\ a = reverse sw ++ after /\
  Forall (fun x => value e < value x) sw /\
  (forall x b', b = x :: b' -> value x <= value e).
Proof.
  revert after b a sw. induction before as [|x before IH]; intros after b a sw H; cbn in H.
  - injection H as <- <- <-. repeat split; [constructor | discriminate].
  - destruct (Z.ltb_spec (value e) (value x)) as [Hlt | Hge].
    + destruct (moveLeft e before (x :: after)) as [[b1 a1] sw1] eqn:Hrec.
      injection H as <- <- <-.
      destruct (IH _ _ _ _ Hrec) as (Hb & Ha & Hsw & Hhd).
      repeat split.
      * rewrite Hb. reflexivity.
      * rewrite Ha, reverse_cons, <- app_assoc. reflexivity.
      * constructor; assumption.
      * exact Hhd.
    + injection H as <- <- <-. repeat split; [constructor|].
      intros y b' Hy. injection Hy as <- <-. exact Hge.
Qed.

Lemma moveRight_spec (e : EndPoint) (before after b a sw : list EndPoint) :
  moveRight e before after = (b, a, sw) ->
  after = sw ++ a /\ b = reverse sw ++ before /\
  Forall (fun x => value x < value e) sw /\
  (forall x a', a = x :: a' -> value e <= value x).
Proof.
  revert before b a sw. induction after as [|x after IH]; intros before b a sw H; cbn in H.
  - injection H as <- <- <-. repeat split; [constructor | discriminate].
  - destruct (Z.ltb_spec (value x) (value e)) as [Hlt | Hge].
    + destruct (moveRight e (x :: before) after) as [[b1 a1] sw1] eqn:Hrec.
      injection H as <- <- <-.
      destruct (IH _ _ _ _ Hrec) as (Ha & Hb & Hsw & Hhd).
      repeat split.
      * rewrite Ha. reflexivity.
      * rewrite Hb, reverse_cons, <- app_assoc. reflexivity.
      * constructor; assumption.
      * exact Hhd.
    + injection H as <- <- <-. repeat split; [constructor|].
      intros y a' Hy. injection Hy as <- <-. exact Hge.
Qed.

(** What the pass returns, on an array that was sorted around the marker. *)
Lemma exchangePass_spec (e : EndPoint) (before after arr swapped : list EndPoint) :
  sorted_by_value (reverse before ++ after) ->
  exchangePass e before after = (arr, swapped) ->
  sorted_by_value arr /\
  arr ≡ₚ e :: reverse before ++ after /\
  (forall x, x ∈ swapped <->
     (x ∈ before /\ value e < value x) \/ (x ∈ after /\ value x < value e)).
Proof.
  intros Hs H. unfold exchangePass in H.
  destruct (moveLeft e before after) as [[b1 a1] swL] eqn:HL.
  destruct (moveRight e b1 a1) as [[b2 a2] swR] eqn:HR.
  injection H as <- <-.
  destruct (moveLeft_spec _ _ _ _ _ _ HL) as (Hb1 & Ha1 & HswL & HhdL).
  destruct (moveRight_spec _ _ _ _ _ _ HR) as (Ha2 & Hb2 & HswR & HhdR).
  rewrite Forall_forall in HswL, HswR.
  assert (Hwhole : reverse b1 ++ a1 = reverse before ++ after).
  { rewrite Hb1, Ha1, reverse_app, <- app_assoc. reflexivity. }
  assert (Hwhole2 : reverse b2 ++ a2 = reverse before ++ after).
  { rewrite <- Hwhole, Hb2, Ha2, reverse_app, reverse_involutive, <- app_assoc.
    reflexivity. }
  assert (Hs1 : sorted_by_value (reverse b1 ++ a1)) by (rewrite Hwhole; exact Hs).
  assert (Hb1le : forall x, x ∈ b1 -> value x <= value e).
  { intros x Hx. destruct b1 as [|y b1']; [inversion Hx|].
    specialize (HhdL y b1' eq_refl).
    apply elem_of_cons in Hx as [-> | Hx]; [exact HhdL|].
    apply sorted_by_value_app in Hs1 as (Hsb & _ & _).
    rewrite reverse_cons in Hsb. apply sorted_by_value_app in Hsb as (_ & _ & Hc).
    assert (value x <= value y); [|lia].
    apply Hc; [rewrite elem_of_reverse; exact Hx | apply list_elem_of_singleton; reflexivity]. }
  assert (Ha2ge : forall y, y ∈ a2 -> value e <= value y).
  { intros y Hy. destruct a2 as [|z a2']; [inversion Hy|].
    specialize (HhdR z a2' eq_refl).
    apply elem_of_cons in Hy as [-> | Hy]; [exact HhdR|].
    apply sorted_by_value_app in Hs1 as (_ & Hsa & _).
    rewrite Ha2 in Hsa. apply sorted_by_value_app in Hsa as (_ & Hsa2 & _).
    apply sorted_by_value_cons in Hsa2 as [_ Hz]. specialize (Hz y Hy). lia. }
  split; [|split].
  - apply sorted_by_value_middle.
    + rewrite Hwhole2. exact Hs.
    + intros x Hx. rewrite elem_of_reverse in Hx. rewrite Hb2 in Hx.
      apply elem_of_app in Hx as [Hx | Hx]; [|auto].
      rewrite elem_of_reverse in Hx. specialize (HswR x Hx). cbn in HswR. lia.
    + exact Ha2ge.
  - rewrite <- Hwhole2. symmetry. apply Permutation_middle.
  - intros x. rewrite elem_of_app. split.
    + intros [Hx | Hx].
      * left. split; [rewrite Hb1; apply elem_of_app; auto | exact (HswL x Hx)].
      * specialize (HswR x Hx). cbn in HswR.
        assert (Hxa1 : x ∈ a1) by (rewrite Ha2; apply elem_of_app; auto).
        rewrite Ha1 in Hxa1. apply elem_of_app in Hxa1 as [Hxa1 | Hxa1]; [|auto].
        rewrite elem_of_reverse in Hxa1. specialize (HswL x Hxa1). cbn in HswL. lia.
    + intros [[Hx Hv] | [Hx Hv]].
      * rewrite Hb1 in Hx. apply elem_of_app in Hx as [Hx | Hx]; [auto|].
        specialize (Hb1le x Hx). lia.
      * assert (Hxa1 : x ∈ a1) by (rewrite Ha1; apply elem_of_app; auto).
        rewrite Ha2 in Hxa1. apply elem_of_app in Hxa1 as [Hxa1 | Hxa1]; [auto|].
        specialize (Ha2ge x Hxa1). lia.
Qed.

End ExchangePass.

(** ** Pair bookkeeping and the trace of notifications *)

Section PairBookkeeping.

Import SAP Invariants.

Lemma reported_snoc (events : list Event) (ev : Event) :
  reported (events ++ [ev]) = applyEvent (reported events) ev.
Proof. unfold reported. rewrite foldl_app. reflexivity. Qed.

Lemma traceFrom_snoc (cur : gset (CollisionBody * CollisionBody))
    (events : list Event) (ev : Event) :
  traceFrom cur (events ++ [ev]) <->
  traceFrom cur events /\
  match ev with
  | PairAdded p => p ∉ foldl applyEvent cur events
  | PairRemoved p => p ∈ foldl applyEvent cur events
  end.
Proof.
  revert cur. induction events as [|e events IH]; intros cur; cbn.
  - tauto.
  - rewrite IH. tauto.
Qed.

Lemma sameStructure_refl (s : State) : sameStructure s s.
Proof. repeat split. Qed.

Lemma sameStructure_trans (s1 s2 s3 : State) :
  sameStructure s1 s2 -> sameStructure s2 s3 -> sameStructure s1 s3.
Proof.
  unfold sameStructure. intros (A1 & A2 & A3 & A4 & A5 & A6) (B1 & B2 & B3 & B4 & B5 & B6).
  repeat split; congruence.
Qed.

Lemma addPairKey_structure (s : State) p : sameStructure s (addPairKey s p).
Proof. unfold addPairKey. destruct (decide (p ∈ mPairs s)); repeat split. Qed.

Lemma removePairKey_structure (s : State) p : sameStructure s (removePairKey s p).
Proof. unfold removePairKey. destruct (decide (p ∈ mPairs s)); repeat split. Qed.

Lemma addPairKey_pairs (s : State) p :
  mPairs (addPairKey s p) = {[p]} ∪ mPairs s.
Proof.
  unfold addPairKey. destruct (decide (p ∈ mPairs s)); cbn; [set_solver | reflexivity].
Qed.

Lemma removePairKey_pairs (s : State) p :
  mPairs (removePairKey s p) = mPairs s ∖ {[p]}.
Proof.
  unfold removePairKey. destruct (decide (p ∈ mPairs s)); cbn; [reflexivity | set_solver].
Qed.

Lemma reported_from_added (cur : gset (CollisionBody * CollisionBody))
    (events : list Event) p :
  p ∈ foldl applyEvent cur events -> p ∈ cur \/ PairAdded p ∈ events.
Proof.
  revert cur. induction events as [|ev events IH]; intros cur Hin; cbn in Hin; [auto|].
  apply IH in Hin as [Hin | Hin]; [|right; apply elem_of_cons; auto].
  destruct ev as [q | q]; cbn in Hin.
  - apply elem_of_union in Hin as [Hin | Hin]; [|auto].
    apply elem_of_singleton in Hin as ->. right. apply elem_of_cons. auto.
  - apply elem_of_difference in Hin as [Hin _]. auto.
Qed.

Lemma pairsCore_normal (s : State) p : pairsCore s -> p ∈ mPairs s -> normalPair p.
Proof.
  intros (Hr & _ & Hn) Hin. rewrite Hr in Hin.
  apply reported_from_added in Hin as [Hin | Hin]; [inversion Hin|].
  rewrite Forall_forall in Hn. apply (Hn _ Hin).
Qed.

Lemma addPairKey_core (s : State) p :
  normalPair p -> pairsCore s -> pairsCore (addPairKey s p).
Proof.
  unfold pairsCore, addPairKey. intros Hnp (Hr & Ht & Hn).
  destruct (decide (p ∈ mPairs s)) as [Hin | Hnin]; [auto|]. cbn. split; [|split].
  - rewrite reported_snoc, <- Hr. reflexivity.
  - apply traceFrom_snoc. split; [exact Ht|].
    fold (reported (mEvents s)). rewrite <- Hr. exact Hnin.
  - apply Forall_app. split; [exact Hn|]. constructor; [exact Hnp | constructor].
Qed.

Lemma removePairKey_core (s : State) p : pairsCore s -> pairsCore (removePairKey s p).
Proof.
  intros Hc. pose proof Hc as (Hr & Ht & Hn). unfold pairsCore, removePairKey.
  destruct (decide (p ∈ mPairs s)) as [Hin | Hnin]; [|auto]. cbn. split; [|split].
  - rewrite reported_snoc, <- Hr. reflexivity.
  - apply traceFrom_snoc. split; [exact Ht|].
    fold (reported (mEvents s)). rewrite <- Hr. exact Hin.
  - apply Forall_app. split; [exact Hn|].
    constructor; [exact (pairsCore_normal s p Hc Hin) | constructor].
Qed.

Lemma traceFrom_removed_between (cur : gset (CollisionBody * CollisionBody))
    (events : list Event) p (j : nat) :
  traceFrom cur events -> p ∈ cur ->
  events !! j = Some (PairAdded p) ->
  exists k, (k < j)%nat /\ events !! k = Some (PairRemoved p).
Proof.
  revert cur j. induction events as [|ev events IH]; intros cur j Ht Hin Hj.
  - rewrite lookup_nil in Hj. discriminate.
  - destruct Ht as [Hg Ht]. destruct j as [|j]; cbn in Hj.
    + injection Hj as ->. contradiction.
    + destruct (decide (ev = PairRemoved p)) as [-> | Hne].
      * exists 0%nat. split; [lia | reflexivity].
      * destruct (IH (applyEvent cur ev) j Ht) as (k & Hk & Hev); [|exact Hj|].
        { destruct ev as [q | q]; cbn; [set_solver|].
          assert (q <> p) by congruence. set_solver. }
        exists (S k). split; [lia | exact Hev].
Qed.

Lemma traceFrom_added_between (cur : gset (CollisionBody * CollisionBody))
    (events : list Event) p (j : nat) :
  traceFrom cur events -> p ∉ cur ->
  events !! j = Some (PairRemoved p) ->
  exists k, (k < j)%nat /\ events !! k = Some (PairAdded p).
Proof.
  revert cur j. induction events as [|ev events IH]; intros cur j Ht Hin Hj.
  - rewrite lookup_nil in Hj. discriminate.
  - destruct Ht as [Hg Ht]. destruct j as [|j]; cbn in Hj.
    + injection Hj as ->. contradiction.
    + destruct (decide (ev = PairAdded p)) as [-> | Hne].
      * exists 0%nat. split; [lia | reflexivity].
      * destruct (IH (applyEvent cur ev) j Ht) as (k & Hk & Hev); [|exact Hj|].
        { destruct ev as [q | q]; cbn; [|set_solver].
          assert (q <> p) by congruence. set_solver. }
        exists (S k). split; [lia | exact Hev].
Qed.

Lemma traceFrom_alternating (cur : gset (CollisionBody * CollisionBody))
    (events : list Event) :
  traceFrom cur events -> Properties.alternating events.
Proof.
  revert cur. induction events as [|ev events IH]; intros cur Ht p i j Hij.
  - split; intros Hi; rewrite lookup_nil in Hi; discriminate.
  - destruct Ht as [Hg Ht]. destruct j as [|j]; [lia|].
    destruct i as [|i]; cbn.
    + split; intros Hi Hj; injection Hi as ->.
      * destruct (traceFrom_removed_between _ _ p j Ht) as (k & Hk & Hev);
          [cbn; set_solver | exact Hj |].
        exists (S k). split; [lia | exact Hev].
      * destruct (traceFrom_added_between _ _ p j Ht) as (k & Hk & Hev);
          [cbn; set_solver | exact Hj |].
        exists (S k). split; [lia | exact Hev].
    + destruct (IH _ Ht p i j ltac:(lia)) as [HA HR].
      split; intros Hi Hj.
      * destruct (HA Hi Hj) as (k & Hk & Hev). exists (S k). split; [lia | exact Hev].
      * destruct (HR Hi Hj) as (k & Hk & Hev). exists (S k). split; [lia | exact Hev].
Qed.

End PairBookkeeping.

(** ** Markers of the live boxes *)

Section Markers.

Import SAP Invariants.

Lemma isMarkerOf_true (id : bodyindex) (k : bool) (e : EndPoint) :
  isMarkerOf id k e = true <-> boxID e = id /\ isMin e = k.
Proof.
  unfold isMarkerOf. rewrite andb_true_iff, Nat.eqb_eq, eqb_true_iff. tauto.
Qed.

Lemma isMarkerOf_false (id : bodyindex) (k : bool) (e : EndPoint) :
  isMarkerOf id k e = false <-> ~ (boxID e = id /\ isMin e = k).
Proof. rewrite <- isMarkerOf_true. destruct (isMarkerOf id k e); split; congruence. Qed.

Lemma endpoint_eq (e1 e2 : EndPoint) :
  boxID e1 = boxID e2 -> isMin e1 = isMin e2 -> value e1 = value e2 -> e1 = e2.
Proof. destruct e1, e2; cbn; congruence. Qed.

Lemma markersOf_ext (live live' : bodyindex -> Prop)
    (val val' : bodyindex -> bool -> Z) (arr : list EndPoint) :
  (forall id, live id <-> live' id) ->
  (forall id k, live id -> val id k = val' id k) ->
  markersOf live val arr -> markersOf live' val' arr.
Proof.
  intros Hl Hv [Hnd Hm]. split; [exact Hnd|].
  intros e. rewrite Hm, <- Hl. split; intros [H1 H2]; split; try assumption.
  - rewrite <- Hv; assumption.
  - rewrite Hv; assumption.
Qed.


Lemma markersOf_key_live (live : bodyindex -> Prop) (val : bodyindex -> bool -> Z)
    (arr : list EndPoint) (e : EndPoint) :
  markersOf live val arr -> e ∈ arr -> live (boxID e).
Proof. intros [_ Hm] He. apply Hm in He. tauto. Qed.

Lemma markersOf_key_fresh (live : bodyindex -> Prop) (val : bodyindex -> bool -> Z)
    (arr : list EndPoint) (id : bodyindex) (k : bool) :
  markersOf live val arr -> ~ live id -> (id, k) ∉ markerKey <$> arr.
Proof.
  intros Hm Hfresh Hin. apply list_elem_of_fmap in Hin as (e & He & Hin).
  unfold markerKey in He. injection He as -> ->.
  apply Hfresh. eapply markersOf_key_live; eassumption.
Qed.

(** Two new markers of a fresh box. *)
Lemma markersOf_insert (live live' : bodyindex -> Prop)
    (val val' : bodyindex -> bool -> Z) (arr : list EndPoint) (id : bodyindex) :
  markersOf live val arr -> ~ live id ->
  (forall i, live' i <-> live i \/ i = id) ->
  (forall i k, live i -> val' i k = val i k) ->
  markersOf live' val'
    (insertEndPoint (MkEndPoint id false (val' id false))
       (insertEndPoint (MkEndPoint id true (val' id true)) arr)).
Proof.
  intros Hm Hfresh Hl Hv. pose proof Hm as [Hnd Hiff]. split.
  - rewrite !insertEndPoint_perm. cbn. apply NoDup_cons. split.
    + rewrite elem_of_cons. intros [Heq | Hin]; [discriminate|].
      eapply markersOf_key_fresh in Hin; eassumption.
    + apply NoDup_cons. split; [|exact Hnd].
      eapply markersOf_key_fresh; eassumption.
  - intros e. rewrite !elem_of_insertEndPoint, Hiff, Hl. split.
    + intros [-> | [-> | [H1 H2]]]; cbn; auto.
      split; [auto|]. rewrite Hv; assumption.
    + intros [[H1 | H1] H2].
      * right. right. split; [assumption|]. rewrite <- Hv; assumption.
      * destruct (isMin e) eqn:Hk.
        -- right. left. apply endpoint_eq; cbn; congruence.
        -- left. apply endpoint_eq; cbn; congruence.
Qed.

(** The markers of a removed box leave. *)
Lemma markersOf_filter (live live' : bodyindex -> Prop)
    (val val' : bodyindex -> bool -> Z) (arr : list EndPoint) (id : bodyindex) :
  markersOf live val arr ->
  (forall i, live' i <-> live i /\ i <> id) ->
  (forall i k, live' i -> val' i k = val i k) ->
  markersOf live' val' (filter (fun e => boxID e <> id) arr).
Proof.
  intros [Hnd Hiff] Hl Hv. split.
  - apply (sublist_NoDup _ _ Hnd).
    apply fmap_sublist. apply sublist_filter.
  - intros e. rewrite list_elem_of_filter, Hiff, Hl. split.
    + intros (H1 & H2 & H3). repeat split; try assumption.
      rewrite Hv; [assumption | apply Hl; auto].
    + intros ((H1 & H2) & H3). repeat split; try assumption.
      rewrite <- Hv; [assumption | apply Hl; auto].
Qed.

(** One marker takes a new value and is exchanged into place. *)
Lemma markersOf_exchange (live : bodyindex -> Prop)
    (val val' : bodyindex -> bool -> Z)
    (before after arr : list EndPoint) (e : EndPoint) (v : Z) :
  markersOf live val (reverse before ++ e :: after) ->
  arr ≡ₚ MkEndPoint (boxID e) (isMin e) v :: reverse before ++ after ->
  val' (boxID e) (isMin e) = v ->
  (forall i k, (i, k) <> markerKey e -> val' i k = val i k) ->
  markersOf live val' arr.
Proof.
  intros [Hnd Hiff] Hperm Hv Hother.
  assert (Hperm0 : reverse before ++ e :: after ≡ₚ e :: reverse before ++ after).
  { symmetry. apply Permutation_middle. }
  rewrite Hperm0 in Hnd. cbn in Hnd. apply NoDup_cons in Hnd as [Hfresh Hnd].
  split.
  - rewrite Hperm. cbn. apply NoDup_cons. split; assumption.
  - intros x. rewrite Hperm, elem_of_cons.
    assert (Hx : x ∈ reverse before ++ after <->
                 x ∈ reverse before ++ e :: after /\ markerKey x <> markerKey e).
    { rewrite Hperm0, elem_of_cons. split.
      - intros Hin. split; [auto|]. intros Hk. apply Hfresh. rewrite <- Hk.
        apply list_elem_of_fmap. eauto.
      - intros [[-> | Hin] Hk]; [contradiction | assumption]. }
    rewrite Hx, Hiff. split.
    + intros [-> | [[H1 H2] Hk]]; cbn.
      * split; [|congruence]. apply (proj1 (Hiff e)).
        rewrite Hperm0. apply elem_of_cons. auto.
      * split; [assumption|]. rewrite Hother; assumption.
    + intros [H1 H2]. destruct (decide (markerKey x = markerKey e)) as [Hk | Hk].
      * left. unfold markerKey in Hk. injection Hk as Hb Hm.
        apply endpoint_eq; cbn; congruence.
      * right. split; [|assumption]. split; [assumption|].
        rewrite <- Hother; assumption.
Qed.

End Markers.

(** ** Box slots *)

Section Slots.

Import SAP Invariants.

Lemma SlotsInv_frame (s s' : State) :
  mBoxes s' = mBoxes s -> mNbBoxes s' = mNbBoxes s ->
  mFreeBoxIndices s' = mFreeBoxIndices s ->
  mMapBodyToBoxIndex s' = mMapBodyToBoxIndex s ->
  SlotsInv s -> SlotsInv s'.
Proof.
  intros H1 H2 H3 H4 [A B C D E].
  split; unfold liveBox in *; rewrite ?H1, ?H2, ?H3, ?H4; assumption.
Qed.

Lemma SlotsInv_structure (s s' : State) :
  sameStructure s s' -> SlotsInv s -> SlotsInv s'.
Proof.
  intros (H1 & _ & H3 & _ & H5 & H6). apply SlotsInv_frame; assumption.
Qed.

(** The slot handed out is not in use. *)
Lemma allocateBox_spec (s : State) (id : bodyindex) (free : list bodyindex) (cap : nat) :
  SlotsInv s -> allocateBox s = (id, free, cap) ->
  mBoxes s !! id = None /\ NoDup free /\ (id ∉ free) /\
  (forall i, i ∈ free -> mBoxes s !! i = None) /\
  (forall i, liveBox s i \/ i ∈ free \/ i = id ->
             (i < S (mNbBoxes s) + length free)%nat).
Proof.
  intros Hs H. unfold allocateBox in H.
  destruct (mFreeBoxIndices s) as [|x rest] eqn:Hfree.
  - injection H as <- <- <-.
    assert (Hnone : mBoxes s !! mNbBoxes s = None).
    { destruct (mBoxes s !! mNbBoxes s) eqn:Hl; [|reflexivity]. exfalso.
      assert (mNbBoxes s < mNbBoxes s + length (mFreeBoxIndices s))%nat.
      { apply (inv_bound s Hs). left. unfold liveBox. rewrite Hl. eauto. }
      rewrite Hfree in H. cbn in H. lia. }
    repeat split.
    + exact Hnone.
    + constructor.
    + intros Hin. inversion Hin.
    + intros i Hin. inversion Hin.
    + intros i [Hl | [Hin | ->]]; cbn; [|inversion Hin|lia].
      pose proof (inv_bound s Hs i (or_introl Hl)) as Hb.
      rewrite Hfree in Hb. cbn in Hb. lia.
  - injection H as <- <- <-.
    pose proof (inv_free_nodup s Hs) as Hnd. rewrite Hfree in Hnd.
    apply NoDup_cons in Hnd as [Hx Hnd].
    repeat split.
    + apply (inv_free s Hs). rewrite Hfree. apply elem_of_cons. auto.
    + exact Hnd.
    + exact Hx.
    + intros i Hin. apply (inv_free s Hs). rewrite Hfree. apply elem_of_cons. auto.
    + intros i Hi.
      assert (Hb : (i < mNbBoxes s + length (mFreeBoxIndices s))%nat).
      { apply (inv_bound s Hs). rewrite Hfree.
        destruct Hi as [Hl | [Hin | ->]]; [auto | |]; right; apply elem_of_cons; auto. }
      rewrite Hfree in Hb. cbn in Hb. lia.
Qed.

Lemma SlotsInv_add (s : State) (body : CollisionBody) (id : bodyindex)
    (free : list bodyindex) (cap : nat) eps pairs events :
  SlotsInv s -> mMapBodyToBoxIndex s !! body = None ->
  allocateBox s = (id, free, cap) ->
  SlotsInv (MkState (<[id := body]> (mBoxes s)) eps (S (mNbBoxes s)) cap free
                    (<[body := id]> (mMapBodyToBoxIndex s)) pairs events).
Proof.
  intros Hs Hnew Halloc.
  destruct (allocateBox_spec s id free cap Hs Halloc) as (Hid & Hnd & Hnin & Hfree & Hbound).
  split; cbn; unfold liveBox; cbn.
  - intros b i. rewrite !lookup_insert_Some. split.
    + intros [[<- <-] | [Hb Hl]]; [left; auto|].
      right. apply (inv_boxes s Hs) in Hl. split; [congruence | assumption].
    + intros [[<- <-] | [Hi Hl]]; [left; auto|].
      right. apply (inv_boxes s Hs) in Hl. split; [congruence | assumption].
  - exact Hnd.
  - intros i Hin. rewrite lookup_insert_ne; [auto | congruence].
  - intros i [Hl | Hin]; apply Hbound; [|auto].
    rewrite lookup_insert_is_Some in Hl. destruct Hl as [<- | [_ Hl]]; auto.
  - rewrite map_size_insert_None by exact Hid. rewrite (inv_count s Hs). reflexivity.
Qed.

Lemma SlotsInv_remove (s : State) (body : CollisionBody) (id : bodyindex)
    eps cap pairs events :
  SlotsInv s -> mMapBodyToBoxIndex s !! body = Some id ->
  SlotsInv (MkState (delete id (mBoxes s)) eps (pred (mNbBoxes s)) cap
                    (id :: mFreeBoxIndices s)
                    (delete body (mMapBodyToBoxIndex s)) pairs events).
Proof.
  intros Hs Hbody.
  assert (Hbox : mBoxes s !! id = Some body) by (apply (inv_boxes s Hs); exact Hbody).
  assert (Hpos : (mNbBoxes s <> 0)%nat).
  { rewrite (inv_count s Hs). apply map_size_ne_0_lookup_2 with id. eauto. }
  split; cbn; unfold liveBox; cbn.
  - intros b i. rewrite !lookup_delete_Some. split.
    + intros [Hb Hl]. apply (inv_boxes s Hs) in Hl. split; [congruence | assumption].
    + intros [Hi Hl]. apply (inv_boxes s Hs) in Hl. split; [congruence | assumption].
  - apply NoDup_cons. split; [|apply (inv_free_nodup s Hs)].
    intros Hin. apply (inv_free s Hs) in Hin. congruence.
  - intros i Hin. apply lookup_delete_None.
    apply elem_of_cons in Hin as [-> | Hin]; [auto|]. right. apply (inv_free s Hs). exact Hin.
  - intros i Hi.
    assert (Hb : (i < mNbBoxes s + length (mFreeBoxIndices s))%nat).
    { apply (inv_bound s Hs). unfold liveBox. destruct Hi as [Hl | Hin].
      - rewrite lookup_delete_is_Some in Hl. left. tauto.
      - apply elem_of_cons in Hin as [-> | Hin]; [left; eauto | right; assumption]. }
    lia.
  - rewrite map_size_delete_Some by eauto. rewrite (inv_count s Hs). reflexivity.
Qed.

End Slots.

(** ** End-point arrays under the three operations *)

Section Arrays.

Import SAP Invariants.

Lemma elem_of_all_axes (axis : Axis) : axis ∈ all_axes.
Proof. unfold all_axes. destruct axis; set_solver. Qed.

Lemma get3_set3_eq {A : Type} (v : Array3 A) (axis : Axis) (x : A) :
  get3 (set3 v axis x) axis = x.
Proof. destruct axis; reflexivity. Qed.

Lemma get3_set3_ne {A : Type} (v : Array3 A) (axis axis' : Axis) (x : A) :
  axis <> axis' -> get3 (set3 v axis x) axis' = get3 v axis'.
Proof. destruct axis, axis'; intros H; try reflexivity; contradiction. Qed.

Lemma get3_map3 {A B : Type} (f : A -> B) (v : Array3 A) (axis : Axis) :
  get3 (map3 f v) axis = f (get3 v axis).
Proof. destruct axis; reflexivity. Qed.

Lemma get3_insertBox (eps : Array3 (list EndPoint)) (id : bodyindex)
    (a : AABBInt.t) (axis : Axis) :
  get3 (insertBox eps id a) axis =
  insertEndPoint (MkEndPoint id false (coord a axis false))
    (insertEndPoint (MkEndPoint id true (coord a axis true)) (get3 eps axis)).
Proof. destruct axis; reflexivity. Qed.

Lemma coord_setCoord_eq (a : AABBInt.t) (axis : Axis) (k : bool) (v : Z) :
  coord (setCoord a axis k v) axis k = v.
Proof. destruct k; cbn; apply get3_set3_eq. Qed.

Lemma coord_setCoord_ne (a : AABBInt.t) (axis axis' : Axis) (k k' : bool) (v : Z) :
  (axis, k) <> (axis', k') ->
  coord (setCoord a axis k v) axis' k' = coord a axis' k'.
Proof.
  intros Hne. destruct k, k'; cbn; try reflexivity;
    apply get3_set3_ne; congruence.
Qed.

Lemma ArraysInv_structure (s s' : State) g :
  sameStructure s s' -> ArraysInv s g -> ArraysInv s' g.
Proof.
  intros (H1 & H2 & _ & _ & _ & H6) [A B C].
  split; unfold liveBox in *; rewrite ?H1, ?H2, ?H6; assumption.
Qed.


Lemma markerIndex_lookup (live : bodyindex -> Prop) (val : bodyindex -> bool -> Z)
    (arr : list EndPoint) (id : bodyindex) (k : bool) :
  markersOf live val arr -> live id ->
  arr !! markerIndex arr id k = Some (MkEndPoint id k (val id k)).
Proof.
  intros [_ Hm] Hlive. unfold markerIndex.
  destruct (list_find (fun e => isMarkerOf id k e = true) arr) as [[i e]|] eqn:Hf.
  - apply list_find_Some in Hf as (Hi & He & _). rewrite Hi. f_equal.
    apply isMarkerOf_true in He as [Hb Hk].
    assert (Hin : e ∈ arr) by (eapply list_elem_of_lookup_2; exact Hi).
    apply Hm in Hin as [_ Hv]. apply endpoint_eq; cbn; congruence.
  - exfalso. apply list_find_None in Hf. rewrite Forall_forall in Hf.
    apply (Hf (MkEndPoint id k (val id k))).
    + apply Hm. cbn. auto.
    + apply isMarkerOf_true. cbn. auto.
Qed.

(** The [BoxAABB] record read off the arrays points at the two markers of
    the box on every axis. *)
Lemma boxOf_interval (s : State) g (body : CollisionBody) (id : bodyindex)
    (a : AABBInt.t) (axis : Axis) :
  ArraysInv s g -> mBoxes s !! id = Some body -> g !! body = Some a ->
  exists box,
    boxOf s id = Some box /\ BoxAABB.body box = body /\
    box_interval (get3 (mEndPoints s) axis) box axis
    = Some (coord a axis true, coord a axis false).
Proof.
  intros Ha Hbox Hg. unfold boxOf. rewrite Hbox. cbn.
  eexists. split; [reflexivity|]. split; [reflexivity|].
  assert (Hlive : liveBox s id) by (unfold liveBox; rewrite Hbox; eauto).
  assert (Hl : forall k,
             get3 (mEndPoints s) axis !! markerIndex (get3 (mEndPoints s) axis) id k
             = Some (MkEndPoint id k (coord a axis k))).
  { intros k.
    rewrite (markerIndex_lookup _ _ _ id k (inv_markers s g Ha axis) Hlive).
    unfold expectedValue. rewrite Hbox, Hg. reflexivity. }
  pose proof (Hl true) as Hmin. pose proof (Hl false) as Hmax.
  unfold box_interval. destruct axis; cbn in Hmin, Hmax |- *;
    rewrite Hmin, Hmax; reflexivity.
Qed.

Lemma ArraysInv_add (s : State) g (body : CollisionBody) (id : bodyindex)
    (a : AABBInt.t) nb cap free pairs events :
  SlotsInv s -> ArraysInv s g ->
  mMapBodyToBoxIndex s !! body = None -> mBoxes s !! id = None ->
  ArraysInv (MkState (<[id := body]> (mBoxes s)) (insertBox (mEndPoints s) id a)
                     nb cap free (<[body := id]> (mMapBodyToBoxIndex s))
                     pairs events)
            (<[body := a]> g).
Proof.
  intros Hs Ha Hnew Hid. split; cbn.
  - intros b. rewrite !lookup_insert_is_Some'. rewrite (inv_ghost s g Ha b). reflexivity.
  - intros axis. rewrite get3_insertBox.
    apply insertEndPoint_sorted, insertEndPoint_sorted, (inv_sorted s g Ha).
  - intros axis. rewrite get3_insertBox.
    assert (Hval : forall k,
               expectedValue (<[id:=body]> (mBoxes s)) (<[body:=a]> g) axis id k
               = coord a axis k).
    { intros k. unfold expectedValue. rewrite !lookup_insert_eq. reflexivity. }
    rewrite <- (Hval false), <- (Hval true).
    eapply markersOf_insert; [apply (inv_markers s g Ha axis) | | |].
    + unfold liveBox. rewrite Hid. intros [? ?]. discriminate.
    + intros i. unfold liveBox; cbn. rewrite lookup_insert_is_Some.
      split; [intros [<- | [_ H]]; auto | intros [H | ->]; [|auto]].
      right. split; [|assumption]. intros <-. rewrite Hid in H. destruct H. discriminate.
    + intros i k [b Hb]. unfold expectedValue.
      assert (i <> id) by congruence.
      rewrite lookup_insert_ne by congruence. rewrite Hb.
      assert (b <> body).
      { intros ->. apply (inv_boxes s Hs) in Hb. congruence. }
      rewrite lookup_insert_ne by congruence. reflexivity.
Qed.

Lemma ArraysInv_remove (s : State) g (body : CollisionBody) (id : bodyindex)
    nb cap free pairs events :
  SlotsInv s -> ArraysInv s g ->
  mMapBodyToBoxIndex s !! body = Some id ->
  ArraysInv (MkState (delete id (mBoxes s)) (removeBox (mEndPoints s) id)
                     nb cap free (delete body (mMapBodyToBoxIndex s))
                     pairs events)
            (delete body g).
Proof.
  intros Hs Ha Hbody. split; cbn.
  - intros b. rewrite !lookup_delete_is_Some. rewrite (inv_ghost s g Ha b). reflexivity.
  - intros axis. unfold removeBox. rewrite get3_map3.
    apply filter_sorted, (inv_sorted s g Ha).
  - intros axis. unfold removeBox. rewrite get3_map3.
    eapply markersOf_filter; [apply (inv_markers s g Ha axis) | |].
    + intros i. unfold liveBox; cbn. rewrite lookup_delete_is_Some.
      split; intros [? ?]; split; congruence.
    + intros i k. unfold liveBox; cbn. rewrite lookup_delete_is_Some.
      intros [Hne [b Hb]]. unfold expectedValue.
      rewrite lookup_delete_ne by congruence. rewrite Hb.
      assert (b <> body).
      { intros ->. apply (inv_boxes s Hs) in Hb. congruence. }
      rewrite lookup_delete_ne by congruence. reflexivity.
Qed.

End Arrays.

(** ** Pairs under the three operations *)

Section PairsUnderOps.

Import SAP Invariants.

Lemma unorderedPair_cases (a b : CollisionBody) :
  unorderedPair a b = (a, b) \/ unorderedPair a b = (b, a).
Proof. unfold unorderedPair. destruct (a <? b)%nat; auto. Qed.



Lemma involves_unorderedPair (body a b : CollisionBody) :
  involves body (unorderedPair a b) <-> a = body \/ b = body.
Proof.
  unfold involves. destruct (unorderedPair_cases a b) as [-> | ->]; cbn; tauto.
Qed.

Lemma PairsInv_intro (s : State) :
  pairsCore s ->
  (forall p, p ∈ mPairs s ->
     is_Some (mMapBodyToBoxIndex s !! p.1) /\ is_Some (mMapBodyToBoxIndex s !! p.2)) ->
  PairsInv s.
Proof. intros (H1 & H2 & H3) H4. split; assumption. Qed.

Lemma PairsInv_core (s : State) : PairsInv s -> pairsCore s.
Proof. intros [H1 H2 H3 _]. repeat split; assumption. Qed.

Lemma unorderedPair_normal (a b : CollisionBody) : normalPair (unorderedPair a b).
Proof.
  unfold normalPair, unorderedPair. destruct (Nat.ltb_spec a b); cbn; lia.
Qed.

Lemma addPair_PairsInv (s : State) (body1 body2 : CollisionBody) :
  PairsInv s ->
  is_Some (mMapBodyToBoxIndex s !! body1) ->
  is_Some (mMapBodyToBoxIndex s !! body2) ->
  PairsInv (addPair s body1 body2).
Proof.
  intros Hp H1 H2. unfold addPair. apply PairsInv_intro.
  - apply addPairKey_core; [apply unorderedPair_normal | apply PairsInv_core, Hp].
  - intros p. rewrite addPairKey_pairs.
    destruct (addPairKey_structure s (unorderedPair body1 body2)) as (_ & _ & _ & _ & _ & ->).
    rewrite elem_of_union, elem_of_singleton. intros [-> | Hin].
    + destruct (unorderedPair_cases body1 body2) as [-> | ->]; cbn; auto.
    + apply (inv_tracked s Hp); exact Hin.
Qed.

Lemma removePairKey_PairsInv (s : State) p :
  PairsInv s -> PairsInv (removePairKey s p).
Proof.
  intros Hp. apply PairsInv_intro.
  - apply removePairKey_core, PairsInv_core, Hp.
  - intros q. rewrite removePairKey_pairs.
    destruct (removePairKey_structure s p) as (_ & _ & _ & _ & _ & ->).
    rewrite elem_of_difference. intros [Hin _]. apply (inv_tracked s Hp); exact Hin.
Qed.

Lemma PairsInv_withEndPoints (s : State) eps :
  PairsInv s -> PairsInv (withEndPoints s eps).
Proof. intros [A B C D]. split; assumption. Qed.

(** *** The tests of a new box *)

Lemma testNewPair_fold_structure body a (l : list (CollisionBody * bodyindex)) (s : State) :
  sameStructure s (foldl (testNewPair body a) s l).
Proof.
  revert s. induction l as [|x l IH]; intros s; cbn; [apply sameStructure_refl|].
  eapply sameStructure_trans; [|apply IH].
  unfold testNewPair. destruct (overlap3D _ _); [|apply sameStructure_refl].
  apply addPairKey_structure.
Qed.

Lemma testNewPair_fold_pairs body a (l : list (CollisionBody * bodyindex)) (s : State) p :
  p ∈ mPairs (foldl (testNewPair body a) s l) <->
  p ∈ mPairs s \/
  exists c i, (c, i) ∈ l /\
    overlap3D a (storedAABB (mEndPoints s) i) = true /\ p = unorderedPair body c.
Proof.
  revert s. induction l as [|[c i] l IH]; intros s; cbn.
  - split; [auto|]. intros [H | (c & i & Hin & _)]; [assumption | inversion Hin].
  - rewrite IH. clear IH.
    assert (Heps : mEndPoints (testNewPair body a s (c, i)) = mEndPoints s).
    { unfold testNewPair. cbn. destruct (overlap3D _ _); [|reflexivity].
      apply (addPairKey_structure s). }
    rewrite Heps. unfold testNewPair at 1. cbn.
    destruct (overlap3D a (storedAABB (mEndPoints s) i)) eqn:Hov.
    + unfold addPair. rewrite addPairKey_pairs, elem_of_union, elem_of_singleton.
      split.
      * intros [[-> | H] | (c' & i' & Hin & Ho & ->)]; [| auto |].
        -- right. exists c, i. split; [apply elem_of_cons; auto | auto].
        -- right. exists c', i'. split; [apply elem_of_cons; auto | auto].
      * intros [H | (c' & i' & Hin & Ho & ->)]; [auto|].
        apply elem_of_cons in Hin as [Heq | Hin].
        -- injection Heq as -> ->. auto.
        -- right. exists c', i'. auto.
    + split.
      * intros [H | (c' & i' & Hin & Ho & ->)]; [auto|].
        right. exists c', i'. split; [apply elem_of_cons; auto | auto].
      * intros [H | (c' & i' & Hin & Ho & ->)]; [auto|].
        apply elem_of_cons in Hin as [Heq | Hin].
        -- injection Heq as -> ->. congruence.
        -- right. exists c', i'. auto.
Qed.

Lemma testNewPair_fold_core body a (l : list (CollisionBody * bodyindex)) (s : State) :
  pairsCore s -> pairsCore (foldl (testNewPair body a) s l).
Proof.
  revert s. induction l as [|x l IH]; intros s Hc; cbn; [exact Hc|].
  apply IH. unfold testNewPair. destruct (overlap3D _ _); [|exact Hc].
  apply addPairKey_core; [apply unorderedPair_normal | exact Hc].
Qed.

(** *** The removal of the pairs of a box *)

Lemma removePairKey_fold_structure (l : list (CollisionBody * CollisionBody)) (s : State) :
  sameStructure s (foldl removePairKey s l).
Proof.
  revert s. induction l as [|x l IH]; intros s; cbn; [apply sameStructure_refl|].
  eapply sameStructure_trans; [apply removePairKey_structure | apply IH].
Qed.

Lemma removePairKey_fold_pairs (l : list (CollisionBody * CollisionBody)) (s : State) p :
  p ∈ mPairs (foldl removePairKey s l) <-> p ∈ mPairs s /\ p ∉ l.
Proof.
  revert s. induction l as [|x l IH]; intros s; cbn.
  - split; [intros H; split; [assumption | intros Hin; inversion Hin] | tauto].
  - rewrite IH, removePairKey_pairs, elem_of_difference, elem_of_singleton, not_elem_of_cons.
    tauto.
Qed.

Lemma removePairKey_fold_core (l : list (CollisionBody * CollisionBody)) (s : State) :
  pairsCore s -> pairsCore (foldl removePairKey s l).
Proof.
  revert s. induction l as [|x l IH]; intros s Hc; cbn; [exact Hc|].
  apply IH, removePairKey_core, Hc.
Qed.

Lemma removed_pairs (s : State) (body : CollisionBody) p :
  p ∈ mPairs (foldl removePairKey s (filter (involves body) (elements (mPairs s)))) <->
  p ∈ mPairs s /\ ~ involves body p.
Proof.
  rewrite removePairKey_fold_pairs, list_elem_of_filter, elem_of_elements. tauto.
Qed.

End PairsUnderOps.

(** ** The invariants hold after addObject and removeObject *)

Section AddRemove.

Import SAP Invariants.

Lemma addObject_inv (s s' : State) g (body : CollisionBody) (aabb : AABB) :
  Inv s g -> addObject s body aabb = Ok s' ->
  Inv s' (<[body := AABBInt_of_AABB aabb]> g).
Proof.
  intros [Hs Ha Hp] H. unfold addObject in H.
  destruct (mMapBodyToBoxIndex s !! body) as [?|] eqn:Hnew; [discriminate|].
  destruct (allocateBox s) as [[id free] cap] eqn:Halloc.
  injection H as <-.
  set (s1 := MkState _ _ _ _ _ _ _ _).
  pose proof (testNewPair_fold_structure body (AABBInt_of_AABB aabb)
                (map_to_list (mMapBodyToBoxIndex s)) s1) as Hst.
  destruct (allocateBox_spec s id free cap Hs Halloc) as (Hid & _).
  split.
  - apply (SlotsInv_structure s1); [exact Hst|].
    apply SlotsInv_add; assumption.
  - apply (ArraysInv_structure s1); [exact Hst|].
    apply ArraysInv_add; assumption.
  - apply PairsInv_intro.
    + apply testNewPair_fold_core. exact (PairsInv_core s Hp).
    + intros p Hin. destruct Hst as (_ & _ & _ & _ & _ & ->). cbn.
      rewrite !lookup_insert_is_Some'.
      apply testNewPair_fold_pairs in Hin as [Hin | (c & i & Hci & _ & ->)].
      * destruct (inv_tracked s Hp p Hin). auto.
      * apply elem_of_map_to_list in Hci.
        destruct (unorderedPair_cases body c) as [-> | ->]; cbn; eauto.
Qed.

Lemma removeObject_inv (s s' : State) g (body : CollisionBody) :
  Inv s g -> removeObject s body = Ok s' -> Inv s' (delete body g).
Proof.
  intros [Hs Ha Hp] H. unfold removeObject in H.
  destruct (mMapBodyToBoxIndex s !! body) as [id|] eqn:Hbody; [|discriminate].
  injection H as <-.
  set (s1 := foldl removePairKey s _).
  pose proof (removePairKey_fold_structure
                (filter (involves body) (elements (mPairs s))) s) as Hst.
  fold s1 in Hst.
  assert (Hs1 : SlotsInv s1) by (apply (SlotsInv_structure s); assumption).
  assert (Ha1 : ArraysInv s1 g) by (apply (ArraysInv_structure s); assumption).
  assert (Hbody1 : mMapBodyToBoxIndex s1 !! body = Some id).
  { destruct Hst as (_ & _ & _ & _ & _ & ->). exact Hbody. }
  split.
  - apply SlotsInv_remove; assumption.
  - apply ArraysInv_remove; assumption.
  - apply PairsInv_intro.
    + apply removePairKey_fold_core. exact (PairsInv_core s Hp).
    + intros p Hin. cbn in Hin |- *. apply removed_pairs in Hin as [Hin Hninv].
      destruct Hst as (_ & _ & _ & _ & _ & ->).
      destruct (inv_tracked s Hp p Hin) as [H1 H2].
      unfold involves in Hninv.
      rewrite !lookup_delete_is_Some. repeat split; try assumption; intros ->; tauto.
Qed.

End AddRemove.

(** ** The invariants hold after updateObject *)

Section Update.

Import SAP Invariants.

Lemma recheckPair_structure body a (s : State) (other : bodyindex) :
  sameStructure s (recheckPair body a s other).
Proof.
  unfold recheckPair. destruct (mBoxes s !! other); [|apply sameStructure_refl].
  destruct (overlap3D _ _); [apply addPairKey_structure | apply removePairKey_structure].
Qed.

Lemma onSwap_structure body id a k (s : State) (x : EndPoint) :
  sameStructure s (onSwap body id a k s x).
Proof.
  unfold onSwap. destruct (_ && _); [apply recheckPair_structure | apply sameStructure_refl].
Qed.

Lemma onSwap_fold_structure body id a k (l : list EndPoint) (s : State) :
  sameStructure s (foldl (onSwap body id a k) s l).
Proof.
  revert s. induction l as [|x l IH]; intros s; cbn; [apply sameStructure_refl|].
  eapply sameStructure_trans; [apply onSwap_structure | apply IH].
Qed.

Lemma recheckPair_PairsInv body a (s : State) (other : bodyindex) :
  SlotsInv s -> PairsInv s -> is_Some (mMapBodyToBoxIndex s !! body) ->
  PairsInv (recheckPair body a s other).
Proof.
  intros Hs Hp Hb. unfold recheckPair.
  destruct (mBoxes s !! other) as [body2|] eqn:Hbox; [|exact Hp].
  destruct (overlap3D _ _).
  - apply addPair_PairsInv; [assumption | assumption |].
    apply (inv_boxes s Hs) in Hbox. eauto.
  - apply removePairKey_PairsInv. assumption.
Qed.

Lemma onSwap_fold_PairsInv body id a k (l : list EndPoint) (s : State) :
  SlotsInv s -> PairsInv s -> is_Some (mMapBodyToBoxIndex s !! body) ->
  PairsInv (foldl (onSwap body id a k) s l).
Proof.
  revert s. induction l as [|x l IH]; intros s Hs Hp Hb; cbn; [exact Hp|].
  pose proof (onSwap_structure body id a k s x) as Hst.
  apply IH.
  - apply (SlotsInv_structure s); assumption.
  - unfold onSwap. destruct (_ && _); [|exact Hp].
    apply recheckPair_PairsInv; assumption.
  - destruct Hst as (_ & _ & _ & _ & _ & ->). exact Hb.
Qed.

(** The marker of a live box is in the array. *)
Lemma splitAtMarker_live (s : State) g (axis : Axis) (id : bodyindex) (k : bool) :
  ArraysInv s g -> liveBox s id ->
  exists before e after,
    splitAtMarker id k [] (get3 (mEndPoints s) axis) = Some (before, e, after) /\
    get3 (mEndPoints s) axis = reverse before ++ e :: after /\
    boxID e = id /\ isMin e = k.
Proof.
  intros Ha Hlive.
  destruct (splitAtMarker id k [] (get3 (mEndPoints s) axis)) as [[[before e] after]|] eqn:Hsplit.
  - destruct (splitAtMarker_spec _ _ _ _ _ _ _ Hsplit) as [Heq Hm].
    apply isMarkerOf_true in Hm as [Hb Hk].
    exists before, e, after. rewrite Heq. auto.
  - exfalso.
    pose proof (inv_markers s g Ha axis) as [_ Hiff].
    assert (Hin : MkEndPoint id k (expectedValue (mBoxes s) g axis id k)
                  ∈ get3 (mEndPoints s) axis) by (apply Hiff; cbn; auto).
    pose proof (splitAtMarker_None _ _ _ _ Hsplit _ Hin) as Hno.
    apply isMarkerOf_false in Hno. apply Hno. cbn. auto.
Qed.

Lemma exchange_ArraysInv (s : State) g (body : CollisionBody) (id : bodyindex)
    (cur : AABBInt.t) (axis : Axis) (k : bool) (v : Z)
    (before after arr swapped : list EndPoint) (e : EndPoint) :
  SlotsInv s -> ArraysInv s g ->
  mMapBodyToBoxIndex s !! body = Some id -> g !! body = Some cur ->
  get3 (mEndPoints s) axis = reverse before ++ e :: after ->
  boxID e = id -> isMin e = k ->
  exchangePass (MkEndPoint id k v) before after = (arr, swapped) ->
  ArraysInv (withEndPoints s (set3 (mEndPoints s) axis arr))
            (<[body := setCoord cur axis k v]> g).
Proof.
  intros Hs Ha Hbody Hcur Harr Hid Hk Hpass.
  assert (Hbox : mBoxes s !! id = Some body) by (apply (inv_boxes s Hs); exact Hbody).
  pose proof (inv_sorted s g Ha axis) as Hsorted. rewrite Harr in Hsorted.
  destruct (sorted_by_value_remove_middle _ _ _ Hsorted) as (Hrest & _ & _).
  destruct (exchangePass_spec _ _ _ _ _ Hrest Hpass) as (Hsorted' & Hperm & _).
  assert (Hother : forall axis' i k', (axis', i, k') <> (axis, id, k) ->
            expectedValue (mBoxes s) (<[body := setCoord cur axis k v]> g) axis' i k'
            = expectedValue (mBoxes s) g axis' i k').
  { intros axis' i k' Hne. unfold expectedValue.
    destruct (mBoxes s !! i) as [b|] eqn:Hb; [|reflexivity].
    destruct (decide (b = body)) as [-> | Hnb].
    - rewrite lookup_insert_eq, Hcur.
      assert (i = id) by (apply (inv_boxes s Hs) in Hb; congruence). subst i.
      apply coord_setCoord_ne. congruence.
    - rewrite lookup_insert_ne by congruence. reflexivity. }
  split; cbn.
  - intros b. rewrite lookup_insert_is_Some', (inv_ghost s g Ha b).
    split; [intros [<- | H]; eauto | auto].
  - intros axis'. destruct (decide (axis = axis')) as [<- | Hne].
    + rewrite get3_set3_eq. exact Hsorted'.
    + rewrite get3_set3_ne by assumption. apply (inv_sorted s g Ha).
  - intros axis'. destruct (decide (axis = axis')) as [<- | Hne].
    + rewrite get3_set3_eq.
      pose proof (inv_markers s g Ha axis) as Hm. rewrite Harr in Hm.
      eapply (markersOf_exchange _ _ _ before after arr e v); [exact Hm | | |].
      * rewrite Hid, Hk. exact Hperm.
      * rewrite Hid, Hk. unfold expectedValue.
        rewrite Hbox, lookup_insert_eq. apply coord_setCoord_eq.
      * intros i k' Hne. apply Hother. unfold markerKey in Hne. congruence.
    + rewrite get3_set3_ne by assumption.
      eapply markersOf_ext; [| |apply (inv_markers s g Ha axis')].
      * intros i. reflexivity.
      * intros i k' _. symmetry. apply Hother. congruence.
Qed.

Lemma moveMarker_inv (s : State) g (body : CollisionBody) (id : bodyindex)
    (cur a : AABBInt.t) (axis : Axis) (k : bool) :
  Inv s g -> mMapBodyToBoxIndex s !! body = Some id -> g !! body = Some cur ->
  Inv (moveMarker body id a axis k s)
      (<[body := setCoord cur axis k (coord a axis k)]> g).
Proof.
  intros [Hs Ha Hp] Hbody Hcur.
  assert (Hlive : liveBox s id).
  { unfold liveBox. apply (inv_boxes s Hs) in Hbody. rewrite Hbody. eauto. }
  destruct (splitAtMarker_live s g axis id k Ha Hlive)
    as (before & e & after & Hsplit & Harr & Hid & Hk).
  unfold moveMarker. rewrite Hsplit. unfold setValues.
  change (if k then get3 (AABBInt.min a) axis else get3 (AABBInt.max a) axis)
    with (coord a axis k).
  destruct (exchangePass (MkEndPoint id k (coord a axis k)) before after)
    as [arr swapped] eqn:Hpass.
  set (s1 := withEndPoints s (set3 (mEndPoints s) axis arr)).
  pose proof (onSwap_fold_structure body id a k swapped s1) as Hst.
  assert (Hs1 : SlotsInv s1) by (apply (SlotsInv_frame s); [reflexivity.. | exact Hs]).
  split.
  - apply (SlotsInv_structure s1); assumption.
  - apply (ArraysInv_structure s1); [exact Hst|].
    eapply exchange_ArraysInv; eassumption.
  - apply onSwap_fold_PairsInv; [exact Hs1 | | ].
    + apply PairsInv_withEndPoints. exact Hp.
    + cbn. rewrite Hbody. eauto.
Qed.

End Update.

(** ** The invariants hold after every sequence of calls *)

Section Reachable.

Import SAP Invariants.

Lemma moveMarker_slots body id a axis k (s : State) :
  mBoxes (moveMarker body id a axis k s) = mBoxes s /\
  mMapBodyToBoxIndex (moveMarker body id a axis k s) = mMapBodyToBoxIndex s.
Proof.
  unfold moveMarker.
  destruct (splitAtMarker id k [] (get3 (mEndPoints s) axis)) as [[[before e] after]|];
    [|auto].
  destruct (exchangePass _ before after) as [arr swapped].
  destruct (onSwap_fold_structure body id a k swapped
              (withEndPoints s (set3 (mEndPoints s) axis arr)))
    as (-> & _ & _ & _ & _ & ->).
  auto.
Qed.

Lemma setCoord_all (cur a : AABBInt.t) :
  let step c axis :=
    setCoord (setCoord c axis true (coord a axis true)) axis false (coord a axis false) in
  step (step (step cur AxisX) AxisY) AxisZ = a.
Proof. destruct cur as [[? ? ?] [? ? ?]], a as [[? ? ?] [? ? ?]]. reflexivity. Qed.

Lemma updateAxis_inv (s : State) g (body : CollisionBody) (id : bodyindex)
    (cur a : AABBInt.t) (axis : Axis) :
  Inv s g -> mMapBodyToBoxIndex s !! body = Some id -> g !! body = Some cur ->
  Inv (updateAxis body id a s axis)
      (<[body := setCoord (setCoord cur axis true (coord a axis true))
                          axis false (coord a axis false)]> g) /\
  mMapBodyToBoxIndex (updateAxis body id a s axis) !! body = Some id.
Proof.
  intros Hinv Hbody Hcur. unfold updateAxis.
  pose proof (moveMarker_inv s g body id cur a axis true Hinv Hbody Hcur) as H1.
  destruct (moveMarker_slots body id a axis true s) as [_ Hm1].
  set (s1 := moveMarker body id a axis true s) in *.
  assert (Hbody1 : mMapBodyToBoxIndex s1 !! body = Some id) by (rewrite Hm1; exact Hbody).
  pose proof (moveMarker_inv s1 _ body id _ a axis false H1 Hbody1
                (lookup_insert_eq _ _ _)) as H2.
  rewrite insert_insert_eq in H2. split; [exact H2|].
  destruct (moveMarker_slots body id a axis false s1) as [_ ->]. exact Hbody1.
Qed.

Lemma updateObject_inv (s s' : State) g (body : CollisionBody) (aabb : AABB) :
  Inv s g -> updateObject s body aabb = Ok s' ->
  Inv s' (<[body := AABBInt_of_AABB aabb]> g).
Proof.
  intros Hinv H. unfold updateObject in H.
  destruct (mMapBodyToBoxIndex s !! body) as [id|] eqn:Hbody; [|discriminate].
  injection H as <-.
  assert (Hg : is_Some (g !! body)).
  { apply (inv_ghost s g (inv_arrays s g Hinv)). rewrite Hbody. eauto. }
  destruct Hg as [cur Hcur]. cbn.
  destruct (updateAxis_inv s g body id cur (AABBInt_of_AABB aabb) AxisX Hinv Hbody Hcur)
    as [H1 Hb1].
  destruct (updateAxis_inv _ _ body id _ (AABBInt_of_AABB aabb) AxisY H1 Hb1
              (lookup_insert_eq _ _ _)) as [H2 Hb2].
  rewrite insert_insert_eq in H2.
  destruct (updateAxis_inv _ _ body id _ (AABBInt_of_AABB aabb) AxisZ H2 Hb2
              (lookup_insert_eq _ _ _)) as [H3 _].
  rewrite insert_insert_eq in H3.
  pose proof (setCoord_all cur (AABBInt_of_AABB aabb)) as Hall. cbv zeta in Hall.
  rewrite Hall in H3. exact H3.
Qed.

Lemma initial_inv : Inv initial ∅.
Proof.
  split.
  - split; cbn; unfold liveBox; cbn.
    + intros body id. rewrite !lookup_empty. split; discriminate.
    + constructor.
    + intros id Hin. inversion Hin.
    + intros id [[? H] | Hin]; [rewrite lookup_empty in H; discriminate | inversion Hin].
    + reflexivity.
  - split; cbn.
    + intros body. rewrite !lookup_empty. split; intros [? H]; discriminate.
    + intros axis. destruct axis; apply sorted_by_value_nil.
    + intros axis. split.
      * destruct axis; constructor.
      * intros e. unfold liveBox; cbn. rewrite lookup_empty.
        split; [destruct axis; intros Hin; inversion Hin | intros [[? H] _]; discriminate].
  - split; cbn.
    + reflexivity.
    + exact I.
    + constructor.
    + intros p Hin. inversion Hin.
Qed.

Lemma step_inv (s s' : State) g (op : Op) :
  Inv s g -> step s op = Ok s' -> Inv s' (supplyInt g op).
Proof.
  intros Hinv H. destruct op as [body aabb | body | body aabb]; cbn in H |- *.
  - eapply addObject_inv; eassumption.
  - eapply removeObject_inv; eassumption.
  - eapply updateObject_inv; eassumption.
Qed.

Lemma run_inv (ops : list Op) (s s' : State) g :
  Inv s g -> run s ops = Ok s' -> Inv s' (foldl supplyInt g ops).
Proof.
  revert s g. induction ops as [|op ops IH]; intros s g Hinv H; cbn in H |- *.
  - injection H as <-. exact Hinv.
  - destruct (step s op) as [s1|] eqn:Hstep; [|discriminate].
    eapply IH; [|exact H]. eapply step_inv; eassumption.
Qed.

Lemma supplyInt_fmap (g : gmap CollisionBody AABB) (op : Op) :
  AABBInt_of_AABB <$> supply g op = supplyInt (AABBInt_of_AABB <$> g) op.
Proof.
  destruct op; cbn; [apply fmap_insert | apply fmap_delete | apply fmap_insert].
Qed.

Lemma suppliedInt_foldl (ops : list Op) (g : gmap CollisionBody AABB) :
  AABBInt_of_AABB <$> foldl supply g ops
  = foldl supplyInt (AABBInt_of_AABB <$> g) ops.
Proof.
  revert g. induction ops as [|op ops IH]; intros g; cbn; [reflexivity|].
  rewrite IH, supplyInt_fmap. reflexivity.
Qed.

(** Every state reached from the empty structure satisfies the invariants,
    against the integer AABBs last supplied. *)
Lemma reachable_inv (ops : list Op) (s : State) :
  run initial ops = Ok s -> Inv s (suppliedInt ops).
Proof.
  intros H. unfold suppliedInt, supplied.
  rewrite suppliedInt_foldl, fmap_empty. eapply run_inv; [apply initial_inv | exact H].
Qed.

End Reachable.

(** ** Sorted arrays and ordered boxes (C3) *)

Section SortedInvariant.

Import SAP Invariants Properties.

Lemma float_le_signed_magnitude (a b : Z) :
  Float32.finite a -> Float32.finite b ->
  float_le a b <-> Float32.signed_magnitude a <= Float32.signed_magnitude b.
Proof.
  intros Ha Hb. unfold float_le, SFleb.
  rewrite (SFcompare_decode a b Ha Hb).
  destruct (Z.compare_spec (Float32.signed_magnitude a) (Float32.signed_magnitude b));
    split; intros; try discriminate; try reflexivity; lia.
Qed.

Lemma proper_encoded (aabb : AABB) (axis : Axis) :
  properAABB aabb ->
  coord (AABBInt_of_AABB aabb) axis true <= coord (AABBInt_of_AABB aabb) axis false.
Proof.
  intros Hp. unfold properAABB in Hp. rewrite Forall_forall in Hp.
  destruct (Hp axis (elem_of_all_axes axis)) as (Hfmin & Hfmax & Hle & Hzero).
  unfold coord, AABBInt_of_AABB. cbn. rewrite !get3_map3.
  apply (float_le_signed_magnitude _ _ Hfmin Hfmax) in Hle.
  destruct Hfmin as [Hwmin _], Hfmax as [Hwmax _].
  rewrite (encode_signed_magnitude _ Hwmin), (encode_signed_magnitude _ Hwmax).
  pose proof (signed_magnitude_range _ Hwmin) as Rmin.
  pose proof (signed_magnitude_range _ Hwmax) as Rmax.
  unfold Float32.pos_zero, Float32.neg_zero in Hzero.
  change 0x80000000 with (2 ^ 31) in Hzero.
  destruct (Float32.sign (get3 (minCoordinates aabb) axis)),
           (Float32.sign (get3 (maxCoordinates aabb) axis)); lia.
Qed.

Lemma inv_boxesOrdered (s : State) g :
  Inv s g ->
  (forall body a axis, g !! body = Some a -> coord a axis true <= coord a axis false) ->
  boxesOrdered s.
Proof.
  intros [Hs Ha Hp] Hord axis body id emin emax Hbody Hemin Hemax Hid1 Hk1 Hid2 Hk2.
  pose proof (inv_markers s g Ha axis) as [_ Hiff].
  apply Hiff in Hemin as [_ Hv1]. apply Hiff in Hemax as [_ Hv2].
  rewrite Hv1, Hv2, Hid1, Hk1, Hid2, Hk2. unfold expectedValue.
  apply (inv_boxes s Hs) in Hbody. rewrite Hbody.
  destruct (g !! body) as [a|] eqn:Hg; [|lia]. eapply Hord; eassumption.
Qed.

(** C3, as stated, fails for a box whose minimum is +0.0 and whose maximum is
    -0.0 on an axis: the AABB is finite with [min <= max] as floats, and the
    box's min marker holds [0x80000000], above its max marker [0x7FFFFFFF]. *)
Lemma boxesOrdered_signed_zero :
  let aabb := MkAABB (MkArray3 Float32.pos_zero 0 0)
                     (MkArray3 Float32.neg_zero 0x3F800000 0x3F800000) in
  (forall axis,
     Float32.finite (get3 (minCoordinates aabb) axis) /\
     Float32.finite (get3 (maxCoordinates aabb) axis) /\
     float_le (get3 (minCoordinates aabb) axis) (get3 (maxCoordinates aabb) axis)) /\
  exists s, run initial [OpAdd 7%nat aabb] = Ok s /\
    ~ (arraysSorted s /\ boxesOrdered s).
Proof.
  cbv zeta. split.
  - intros axis. destruct axis; cbn; repeat split; try (vm_compute; congruence).
  - eexists. split; [vm_compute; reflexivity|].
    intros [_ H].
    specialize (H AxisX 7%nat 0%nat (MkEndPoint 0 true 0x80000000)
                  (MkEndPoint 0 false 0x7FFFFFFF)).
    cbn in H.
    assert (Hbad : 0x80000000 <= 0x7FFFFFFF); [|lia].
    apply H; try reflexivity.
    + apply elem_of_cons. right. apply elem_of_cons. left. reflexivity.
    + apply elem_of_cons. left. reflexivity.
Qed.

(** C3 (amended): after every sequence of calls from the empty structure the
    three arrays are sorted ascending by value; and if the AABB last supplied
    for every tracked body is proper (finite, [min <= max], and not
    [min = +0.0] with [max = -0.0]), the min marker of every live box is not
    above its max marker. *)
Theorem sorted_arrays_invariant (ops : list Op) (s : State) :
  run initial ops = Ok s ->
  arraysSorted s /\ (properBoxes (supplied ops) -> boxesOrdered s).
Proof.
  intros Hrun. pose proof (reachable_inv ops s Hrun) as Hinv. split.
  - exact (inv_sorted s _ (inv_arrays s _ Hinv)).
  - intros Hproper. apply (inv_boxesOrdered s _ Hinv).
    intros body a axis Hg. unfold suppliedInt in Hg.
    apply lookup_fmap_Some in Hg as (aabb & <- & Hg).
    apply proper_encoded. exact (Hproper body aabb Hg).
Qed.

End SortedInvariant.

(** ** Notifications alternate (C5) *)

Section NoDuplicateEvents.

Import SAP Invariants Properties.

(** C5: in the notifications of any sequence of calls from the empty
    structure, a pair-added for a pair is not repeated without a pair-removed
    for that pair in between, nor a pair-removed without a pair-added in
    between; a pair-removed always comes after a pair-added for the pair; and
    every notification names its unordered pair smaller body first, so that
    one pair has one name. *)
Theorem no_duplicate_events (ops : list Op) (s : State) :
  run initial ops = Ok s ->
  alternating (mEvents s) /\
  (forall p j, mEvents s !! j = Some (PairRemoved p) ->
     exists i, (i < j)%nat /\ mEvents s !! i = Some (PairAdded p)) /\
  Forall (fun ev => normalPair (eventPair ev)) (mEvents s).
Proof.
  intros Hrun. pose proof (reachable_inv ops s Hrun) as [_ _ Hp]. split; [|split].
  - eapply traceFrom_alternating. exact (inv_trace s Hp).
  - intros p j Hj.
    apply (traceFrom_added_between ∅ (mEvents s) p j (inv_trace s Hp)); [|exact Hj].
    apply not_elem_of_empty.
  - exact (inv_normal s Hp).
Qed.

End NoDuplicateEvents.

(** ** Adding then removing a body (C6) *)

Section RoundTrip.

Import SAP Invariants Properties.

Lemma filter_insertEndPoint (id : bodyindex) (e : EndPoint) (l : list EndPoint) :
  boxID e = id ->
  filter (fun x => boxID x <> id) (insertEndPoint e l)
  = filter (fun x => boxID x <> id) l.
Proof.
  intros He. induction l as [|x l IH]; cbn [insertEndPoint].
  - rewrite filter_cons. destruct (decide (boxID e <> id)); [contradiction | reflexivity].
  - destruct (value e <? value x).
    + rewrite filter_cons. destruct (decide (boxID e <> id)); [contradiction | reflexivity].
    + rewrite !filter_cons, IH. reflexivity.
Qed.

Lemma filter_all (id : bodyindex) (l : list EndPoint) :
  (forall e, e ∈ l -> boxID e <> id) -> filter (fun x => boxID x <> id) l = l.
Proof.
  induction l as [|x l IH]; intros H; [reflexivity|].
  rewrite filter_cons. destruct (decide (boxID x <> id)) as [_ | Hn].
  - f_equal. apply IH. intros e He. apply H. apply elem_of_cons. auto.
  - exfalso. apply Hn, H. apply elem_of_cons. auto.
Qed.

Lemma removeBox_insertBox (eps : Array3 (list EndPoint)) (id : bodyindex) (a : AABBInt.t) :
  (forall axis e, e ∈ get3 eps axis -> boxID e <> id) ->
  removeBox (insertBox eps id a) id = eps.
Proof.
  intros H. unfold removeBox, insertBox, map3. cbn.
  rewrite !filter_insertEndPoint by reflexivity.
  rewrite (filter_all id (at0 eps)) by (apply (H AxisX)).
  rewrite (filter_all id (at1 eps)) by (apply (H AxisY)).
  rewrite (filter_all id (at2 eps)) by (apply (H AxisZ)).
  destruct eps; reflexivity.
Qed.

(** C6: from any reachable state, adding an untracked body and removing it
    at once succeeds and gives back the three arrays and the set of reported
    pairs. *)
Theorem add_remove_round_trip (ops : list Op) (s : State)
    (body : CollisionBody) (aabb : AABB) :
  run initial ops = Ok s ->
  mMapBodyToBoxIndex s !! body = None ->
  exists s1 s2,
    addObject s body aabb = Ok s1 /\ removeObject s1 body = Ok s2 /\
    mEndPoints s2 = mEndPoints s /\
    reported (mEvents s2) = reported (mEvents s) /\
    mPairs s2 = mPairs s.
Proof.
  intros Hrun Hnew. pose proof (reachable_inv ops s Hrun) as Hinv.
  destruct (addObject s body aabb) as [s1|] eqn:Hadd.
  2: { unfold addObject in Hadd. rewrite Hnew in Hadd.
       destruct (allocateBox s) as [[? ?] ?]. discriminate. }
  pose proof (addObject_inv s s1 _ body aabb Hinv Hadd) as Hinv1.
  unfold addObject in Hadd. rewrite Hnew in Hadd.
  destruct (allocateBox s) as [[id free] cap] eqn:Halloc.
  injection Hadd as Hs1.
  set (base := MkState _ _ _ _ _ _ _ _) in Hs1.
  pose proof (testNewPair_fold_structure body (AABBInt_of_AABB aabb)
                (map_to_list (mMapBodyToBoxIndex s)) base) as Hst.
  rewrite Hs1 in Hst. destruct Hst as (_ & Heps1 & _ & _ & _ & Hmap1). cbn in Heps1, Hmap1.
  assert (Hbody1 : mMapBodyToBoxIndex s1 !! body = Some id).
  { rewrite Hmap1. apply lookup_insert_eq. }
  destruct (removeObject s1 body) as [s2|] eqn:Hrem.
  2: { unfold removeObject in Hrem. rewrite Hbody1 in Hrem. discriminate. }
  pose proof (removeObject_inv s1 s2 _ body Hinv1 Hrem) as Hinv2.
  exists s1, s2. split; [reflexivity|]. split; [exact Hrem|].
  unfold removeObject in Hrem. rewrite Hbody1 in Hrem. injection Hrem as Hs2.
  assert (Hpairs : mPairs s2 = mPairs s).
  { rewrite <- Hs2. cbn. apply set_eq. intros p. rewrite removed_pairs.
    rewrite <- Hs1 at 1. rewrite testNewPair_fold_pairs. cbn. split.
    - intros [[Hin | (c & i & _ & _ & ->)] Hninv]; [exact Hin|].
      exfalso. apply Hninv. apply involves_unorderedPair. auto.
    - intros Hin. split; [auto|]. intros [Hb | Hb].
      + destruct (inv_tracked s (inv_pairs s _ Hinv) p Hin) as [[? H1] _]. congruence.
      + destruct (inv_tracked s (inv_pairs s _ Hinv) p Hin) as [_ [? H2]]. congruence. }
  split; [|split].
  - rewrite <- Hs2. cbn.
    destruct (removePairKey_fold_structure
                (filter (involves body) (elements (mPairs s1))) s1)
      as (_ & -> & _).
    rewrite Heps1. apply removeBox_insertBox.
    intros axis e He. destruct (allocateBox_spec s id free cap (inv_slots s _ Hinv) Halloc)
      as (Hid & _).
    pose proof (markersOf_key_live _ _ _ e
                  (inv_markers s _ (inv_arrays s _ Hinv) axis) He) as [b Hb].
    congruence.
  - rewrite <- (inv_reported s2 (inv_pairs s2 _ Hinv2)).
    rewrite <- (inv_reported s (inv_pairs s _ Hinv)). exact Hpairs.
  - exact Hpairs.
Qed.

End RoundTrip.

(** ** Misuse of the interface (C7) *)

Section Misuse.

Import SAP Invariants Lifecycle.

Lemma run_app (s : State) (ops1 ops2 : list Op) :
  run s (ops1 ++ ops2) =
    match run s ops1 with
    | Ok s1 => run s1 ops2
    | Failed e => Failed e
    end.
Proof.
  revert s. induction ops1 as [|op ops1 IH]; intros s; cbn; [reflexivity|].
  destruct (step s op); [apply IH | reflexivity].
Qed.

(** What a call answers, by the body-to-box map of the structure. *)
Lemma step_result (s : State) (op : Op) :
  match op with
  | OpAdd body _ =>
      match mMapBodyToBoxIndex s !! body with
      | Some _ => step s op = Failed DuplicateBody
      | None => exists s', step s op = Ok s'
      end
  | OpRemove body | OpUpdate body _ =>
      match mMapBodyToBoxIndex s !! body with
      | Some _ => exists s', step s op = Ok s'
      | None => step s op = Failed UnknownBody
      end
  end.
Proof.
  destruct op as [body aabb | body | body aabb]; cbn;
    unfold addObject, removeObject, updateObject;
    destruct (mMapBodyToBoxIndex s !! body) as [id|]; try reflexivity;
    try (eexists; reflexivity).
  destruct (allocateBox s) as [[boxIndex free] capacity]. eexists. reflexivity.
Qed.

(** One call moves the body-to-box map as the state machine says. *)
Lemma step_tracked (s s' : State) g (live : gset CollisionBody) (op : Op) :
  Inv s g ->
  (forall b, b ∈ live <-> is_Some (mMapBodyToBoxIndex s !! b)) ->
  step s op = Ok s' ->
  forall b, b ∈ track live op <-> is_Some (mMapBodyToBoxIndex s' !! b).
Proof.
  intros Hinv Hlive Hstep b.
  pose proof (step_inv s s' g op Hinv Hstep) as Hinv'.
  rewrite <- (inv_ghost s' _ (inv_arrays s' _ Hinv') b).
  assert (Hg : forall c, c ∈ live <-> is_Some (g !! c)).
  { intros c. rewrite (inv_ghost s _ (inv_arrays s _ Hinv) c). apply Hlive. }
  destruct op as [body aabb | body | body aabb]; cbn.
  - rewrite elem_of_union, elem_of_singleton, lookup_insert_is_Some, Hg.
    destruct (decide (body = b)) as [<- | Hne]; [tauto|].
    split; [intros [? | ?]; [congruence | tauto] | intros [? | [_ ?]]; tauto].
  - rewrite elem_of_difference, elem_of_singleton, lookup_delete_is_Some, Hg.
    split; intros [? ?]; split; congruence.
  - rewrite lookup_insert_is_Some, Hg.
    destruct (decide (body = b)) as [<- | Hne]; [|tauto].
    split; [tauto|]. intros _. apply Hg, Hlive.
    cbn in Hstep. unfold updateObject in Hstep.
    destruct (mMapBodyToBoxIndex s !! body); [eauto | discriminate].
Qed.

Lemma run_tracked (ops : list Op) (s s' : State) g (live : gset CollisionBody) :
  Inv s g ->
  (forall b, b ∈ live <-> is_Some (mMapBodyToBoxIndex s !! b)) ->
  run s ops = Ok s' ->
  forall b, b ∈ foldl track live ops <-> is_Some (mMapBodyToBoxIndex s' !! b).
Proof.
  revert s g live. induction ops as [|op ops IH]; intros s g live Hinv Hlive H;
    cbn in H |- *.
  - injection H as <-. exact Hlive.
  - destruct (step s op) as [s1|] eqn:Hstep; [|discriminate].
    apply (IH s1 (supplyInt g op)); [|eapply step_tracked; eassumption | exact H].
    eapply step_inv; eassumption.
Qed.

(** C7: after any sequence of calls accepted from the empty structure, the
    next call is refused exactly when the state machine of section 4.2 does
    not permit it, whatever was added, updated and removed before: an
    [addObject] of a live body with [DuplicateBody], an [updateObject] or a
    [removeObject] of a body that is not live with [UnknownBody]; every other
    call returns a state.  The two errors differ, and a refused call is the
    result of the whole sequence, whatever calls follow it. *)
Theorem misuse_is_reported (ops : list Op) (s : State) (op : Op) :
  run initial ops = Ok s ->
  (forall e, step s op = Failed e <-> misuse (tracked ops) op = Some e) /\
  ((exists s', step s op = Ok s') <-> misuse (tracked ops) op = None) /\
  (forall e rest, misuse (tracked ops) op = Some e ->
     run initial (ops ++ op :: rest) = Failed e) /\
  UnknownBody <> DuplicateBody.
Proof.
  intros Hrun.
  assert (Hlive : forall b, b ∈ tracked ops <-> is_Some (mMapBodyToBoxIndex s !! b)).
  { apply (run_tracked ops initial s ∅ ∅ initial_inv); [|exact Hrun].
    intros b. cbn. rewrite lookup_empty, elem_of_empty.
    split; [tauto | intros [? ?]; discriminate]. }
  assert (Hfail : forall e, step s op = Failed e <-> misuse (tracked ops) op = Some e).
  { intros e. pose proof (step_result s op) as Hres.
    destruct op as [body aabb | body | body aabb]; cbn [misuse];
      cbv beta iota in Hres; specialize (Hlive body);
      destruct (decide (body ∈ tracked ops)) as [Hin | Hout];
      destruct (mMapBodyToBoxIndex s !! body) as [id|] eqn:Hmap;
      try solve [exfalso; apply Hlive in Hin; destruct Hin; discriminate];
      try solve [exfalso; apply Hout, Hlive; eauto];
      lazymatch type of Hres with
      | ex _ => destruct Hres as [s' Hres]
      | _ => idtac
      end; rewrite Hres;
      split; intros H; congruence. }
  assert (Hok : (exists s', step s op = Ok s') <-> misuse (tracked ops) op = None).
  { destruct (misuse (tracked ops) op) as [e|] eqn:Hm.
    - rewrite (proj2 (Hfail e) eq_refl). split; [intros [? ?]|]; discriminate.
    - split; [reflexivity|]. intros _.
      destruct (step s op) as [s'|e] eqn:Hstep; [eauto|].
      pose proof (proj1 (Hfail e) eq_refl). discriminate. }
  split; [exact Hfail | split; [exact Hok | split; [|discriminate]]].
  intros e rest Hm. rewrite run_app, Hrun. cbn.
  apply Hfail in Hm. rewrite Hm. reflexivity.
Qed.

End Misuse.

(** ** Pair completeness: the overlap test and the rechecks *)

Section Rechecks.

Import SAP Invariants Properties Completeness.











End Rechecks.

(** ** Pair completeness: one marker of an update *)

Section UpdateStep.

Import SAP Invariants Properties Completeness.



End UpdateStep.

(** ** Pair completeness: the three operations *)

Section CompleteOps.

Import SAP Invariants Properties Completeness.






End CompleteOps.

(** ** Pair completeness: updateObject *)

Section CompleteUpdate.

Import SAP Invariants Properties Completeness.



End CompleteUpdate.

(** ** Pair completeness: from the integers to the floats *)

Section FloatBridge.

Import SAP Invariants Properties Completeness.






Lemma neverTouching_zeroSafe (g : gmap CollisionBody AABB) :
  neverTouching g -> zeroSafe g.
Proof.
  intros Hnt b1 a1 H1. destruct (Hnt b1 a1 H1) as [Hfin Hap].
  split; [exact Hfin|]. intros b2 a2 H2.
  destruct (Hap b2 a2 H2) as [-> | Hap']; [left; reflexivity | right].
  unfold apart, zeroSafePair in *. rewrite Forall_forall in Hap' |- *.
  intros axis Hax [E1 E2]. apply (Hap' axis Hax). rewrite E1, E2.
  vm_compute. reflexivity.
Qed.




End FloatBridge.

(** ** Pair completeness (C4) *)

Section PairCompleteness.

Import SAP Invariants Properties Completeness.





End PairCompleteness.

(** ** The scenarios of section 8 *)

Section Scenarios.

Import SAP Invariants Properties Completeness.

(** Boxes with disjoint x-ranges: no notification after the two adds. *)
Example scenario_disjoint :
  Scenario.eventsOf (run initial [OpAdd Scenario.bodyA Scenario.boxA;
                         OpAdd Scenario.bodyB Scenario.boxB_far]) = Some [].
Proof. vm_compute. reflexivity. Qed.

(** B moves onto A: exactly one pair-added. *)
Example scenario_approach :
  Scenario.eventsOf (run initial Scenario.approach)
  = Some [PairAdded (Scenario.bodyA, Scenario.bodyB)].
Proof. vm_compute. reflexivity. Qed.

(** B moves back: exactly one pair-removed follows. *)
Example scenario_approach_and_leave :
  Scenario.eventsOf (run initial Scenario.approach_and_leave)
  = Some [PairAdded (Scenario.bodyA, Scenario.bodyB);
          PairRemoved (Scenario.bodyA, Scenario.bodyB)].
Proof. vm_compute. reflexivity. Qed.

(** Removing a body with an active pair notifies the removal of the pair. *)
Example scenario_remove_overlapping :
  Scenario.eventsOf (run initial (Scenario.approach ++ [OpRemove Scenario.bodyA]))
  = Some [PairAdded (Scenario.bodyA, Scenario.bodyB);
          PairRemoved (Scenario.bodyA, Scenario.bodyB)].
Proof. vm_compute. reflexivity. Qed.

(** A freed box slot is used again. *)
Example scenario_slot_reuse :
  match run initial (Scenario.approach
                     ++ [OpRemove Scenario.bodyA; OpAdd 30%nat Scenario.boxA]) with
  | Ok s => mMapBodyToBoxIndex s !! 30%nat = Some 0%nat /\ mFreeBoxIndices s = []
  | Failed _ => False
  end.
Proof. vm_compute. split; reflexivity. Qed.

(** Two boxes in exact contact, A = [0,1]^3 and B = [1,2]x[0,1]x[0,1], and B
    then moved away to x in [1.5, 2.5].  The two markers at x = 1.0 hold the
    same code, the specification does not say which of two equal markers
    comes first, and what is notified depends on it: here, on the order of
    the two adds. *)
Example scenario_contact_depends_on_order :
  let boxA := MkAABB (MkArray3 0 0 0) (MkArray3 0x3F800000 0x3F800000 0x3F800000) in
  let boxB := MkAABB (MkArray3 0x3F800000 0 0)
                     (MkArray3 0x40000000 0x3F800000 0x3F800000) in
  let boxB' := MkAABB (MkArray3 0x3FC00000 0 0)
                      (MkArray3 0x40200000 0x3F800000 0x3F800000) in
  Scenario.eventsOf
    (run initial [OpAdd 10%nat boxA; OpAdd 20%nat boxB; OpUpdate 20%nat boxB'])
  = Some [PairAdded (10%nat, 20%nat)] /\
  Scenario.eventsOf
    (run initial [OpAdd 20%nat boxB; OpAdd 10%nat boxA; OpUpdate 20%nat boxB'])
  = Some [PairAdded (10%nat, 20%nat); PairRemoved (10%nat, 20%nat)].
Proof. split; vm_compute; reflexivity. Qed.



(** The sorted-array invariant on the scenario of section 8. *)
Lemma sorted_arrays_invariant_witness :
  exists s,
    run initial Scenario.approach = Ok s /\ arraysSorted s /\ boxesOrdered s.
Proof.
  eexists. split; [vm_compute; reflexivity|].
  destruct (sorted_arrays_invariant Scenario.approach _
              ltac:(vm_compute; reflexivity)) as [Hsorted Hordered].
  split; [exact Hsorted|]. apply Hordered.
  apply (bool_decide_unpack _). vm_compute. exact I.
Defined.

(** Alternation of the notifications on the scenario of section 8. *)
Lemma no_duplicate_events_witness :
  exists s,
    run initial Scenario.approach_and_leave = Ok s /\
    alternating (mEvents s) /\
    (forall p j, mEvents s !! j = Some (PairRemoved p) ->
       exists i, (i < j)%nat /\ mEvents s !! i = Some (PairAdded p)) /\
    Forall (fun ev => normalPair (eventPair ev)) (mEvents s).
Proof.
  eexists. split; [vm_compute; reflexivity|].
  apply (no_duplicate_events Scenario.approach_and_leave).
  vm_compute. reflexivity.
Defined.

(** The round trip of body B after body A was added. *)
Lemma add_remove_round_trip_witness :
  exists s,
    run initial [OpAdd Scenario.bodyA Scenario.boxA] = Ok s /\
    exists s1 s2,
      addObject s Scenario.bodyB Scenario.boxB_near = Ok s1 /\
      removeObject s1 Scenario.bodyB = Ok s2 /\
      mEndPoints s2 = mEndPoints s /\
      reported (mEvents s2) = reported (mEvents s) /\
      mPairs s2 = mPairs s.
Proof.
  eexists. split; [vm_compute; reflexivity|].
  apply (add_remove_round_trip [OpAdd Scenario.bodyA Scenario.boxA]).
  - vm_compute. reflexivity.
  - vm_compute. reflexivity.
Defined.

(** Body A added and removed: an update of A is refused as an unknown
    body, a second add of A is accepted; while A is live a second add is
    refused as a duplicate. *)
Lemma misuse_is_reported_witness :
  (exists s,
     run initial [OpAdd Scenario.bodyA Scenario.boxA; OpRemove Scenario.bodyA] = Ok s /\
     step s (OpUpdate Scenario.bodyA Scenario.boxA) = Failed UnknownBody /\
     exists s', step s (OpAdd Scenario.bodyA Scenario.boxA) = Ok s') /\
  (exists s,
     run initial [OpAdd Scenario.bodyA Scenario.boxA] = Ok s /\
     step s (OpAdd Scenario.bodyA Scenario.boxB_near) = Failed DuplicateBody).
Proof.
  split.
  - eexists. split; [vm_compute; reflexivity|]. split.
    + apply (misuse_is_reported
               [OpAdd Scenario.bodyA Scenario.boxA; OpRemove Scenario.bodyA] _
               (OpUpdate Scenario.bodyA Scenario.boxA)
               ltac:(vm_compute; reflexivity)).
      vm_compute. reflexivity.
    + apply (misuse_is_reported
               [OpAdd Scenario.bodyA Scenario.boxA; OpRemove Scenario.bodyA] _
               (OpAdd Scenario.bodyA Scenario.boxA)
               ltac:(vm_compute; reflexivity)).
      vm_compute. reflexivity.
  - eexists. split; [vm_compute; reflexivity|].
    apply (misuse_is_reported [OpAdd Scenario.bodyA Scenario.boxA] _
             (OpAdd Scenario.bodyA Scenario.boxB_near)
             ltac:(vm_compute; reflexivity)).
    vm_compute. reflexivity.
Defined.


End Scenarios.
(** * Further properties of the codec

    [encodeFloatIntoInteger] on all 32-bit patterns: the two halves of the
    code range, negation, and the places of the infinities and the NaNs. *)

Section CodecClasses.

Lemma neg_arith (w : Z) :
  Word.is_word w ->
  Float32.neg w = if w <? 2 ^ 31 then w + 2 ^ 31 else w - 2 ^ 31.
Proof.
  intros Hw. unfold Float32.neg.
  assert (Hlow : forall x, 0 <= x < 2 ^ 31 -> Z.lxor x 0x80000000 = x + 2 ^ 31).
  { intros x Hx. rewrite Z.lxor_lor.
    - apply lor_sign_mask. exact Hx.
    - apply Z.eqb_eq. rewrite land_sign_mask; [apply Z.ltb_lt; lia|].
      unfold Word.is_word, Word.modulus. lia. }
  unfold Word.is_word, Word.modulus in Hw.
  destruct (Z.ltb_spec w (2 ^ 31)) as [Hlt | Hge].
  - apply Hlow. lia.
  - replace w with (Z.lxor (w - 2 ^ 31) 0x80000000) at 1
      by (rewrite Hlow by lia; lia).
    rewrite Z.lxor_assoc, Z.lxor_nilpotent, Z.lxor_0_r. reflexivity.
Qed.

Lemma neg_is_word (w : Z) : Word.is_word w -> Word.is_word (Float32.neg w).
Proof.
  intros Hw. rewrite neg_arith by assumption.
  unfold Word.is_word, Word.modulus in *.
  destruct (Z.ltb_spec w (2 ^ 31)); lia.
Qed.

Lemma neg_fields (w : Z) :
  Word.is_word w ->
  Float32.sign (Float32.neg w) = negb (Float32.sign w) /\
  Float32.exponent (Float32.neg w) = Float32.exponent w /\
  Float32.fraction (Float32.neg w) = Float32.fraction w.
Proof.
  intros Hw. rewrite neg_arith by assumption.
  unfold Word.is_word, Word.modulus in Hw.
  unfold Float32.sign, Float32.exponent, Float32.fraction.
  destruct (Z.ltb_spec w (2 ^ 31)) as [Hlt | Hge].
  - replace (w + 2 ^ 31) with (w + 2 ^ 8 * 2 ^ 23) by lia.
    rewrite Z.div_add, Z.mod_add by lia.
    replace (w / 2 ^ 23 + 2 ^ 8) with (w / 2 ^ 23 + 1 * 2 ^ 8) by lia.
    rewrite Z.mod_add by lia.
    replace (w + 2 ^ 8 * 2 ^ 23) with (w + 2 ^ 31) by lia.
    destruct (Z.leb_spec (2 ^ 31) (w + 2 ^ 31)), (Z.leb_spec (2 ^ 31) w);
      try lia; repeat split; reflexivity.
  - replace (w - 2 ^ 31) with (w + (- 2 ^ 8) * 2 ^ 23) by lia.
    rewrite Z.div_add, Z.mod_add by lia.
    replace (w / 2 ^ 23 + - 2 ^ 8) with (w / 2 ^ 23 + (-1) * 2 ^ 8) by lia.
    rewrite Z.mod_add by lia.
    replace (w + - 2 ^ 8 * 2 ^ 23) with (w - 2 ^ 31) by lia.
    destruct (Z.leb_spec (2 ^ 31) (w - 2 ^ 31)), (Z.leb_spec (2 ^ 31) w);
      try lia; repeat split; reflexivity.
Qed.

(** [Float32.neg] is the negation of floats. *)
Lemma decode_neg (w : Z) :
  Word.is_word w ->
  Float32.decode (Float32.neg w) = SFopp (Float32.decode w).
Proof.
  intros Hw. destruct (neg_fields w Hw) as (Hs & He & Hm).
  destruct (word_fields w Hw) as (_ & Hfr & _).
  unfold Float32.decode. rewrite Hs, He, Hm. cbv zeta.
  generalize dependent (Float32.fraction w). intros m _ Hfr.
  destruct (Float32.exponent w =? 0).
  - destruct m; reflexivity.
  - destruct (Float32.exponent w =? 255).
    + destruct (m =? 0); reflexivity.
    + destruct (m + 2 ^ 23); reflexivity.
Qed.

(** The fields of a pattern give its sign-magnitude reading. *)
Lemma signed_magnitude_fields (w : Z) :
  Word.is_word w ->
  Float32.signed_magnitude w =
    (if Float32.sign w then -1 else 1)
    * (Float32.exponent w * 2 ^ 23 + Float32.fraction w).
Proof.
  intros Hw. destruct (word_fields w Hw) as (_ & _ & Heq).
  unfold Float32.signed_magnitude.
  destruct (Float32.sign w); lia.
Qed.

Lemma decode_infinity (w : Z) :
  Float32.is_infinity w -> Float32.decode w = S754_infinity (Float32.sign w).
Proof.
  intros (_ & He & Hm). unfold Float32.decode. rewrite He, Hm. reflexivity.
Qed.

Lemma decode_nan (w : Z) : Float32.is_nan w -> Float32.decode w = S754_nan.
Proof.
  intros (_ & He & Hm). unfold Float32.decode. rewrite He. cbv zeta.
  change (255 =? 0) with false. change (255 =? 255) with true. cbv iota.
  destruct (Z.eqb_spec (Float32.fraction w) 0); [contradiction | reflexivity].
Qed.

(** A finite float decodes to a zero or to a finite number of its sign. *)
Lemma decode_finite (w : Z) :
  Float32.finite w ->
  (exists s, Float32.decode w = S754_zero s) \/
  (exists m e, Float32.decode w = S754_finite (Float32.sign w) m e).
Proof.
  intros [Hw Hf]. destruct (word_fields w Hw) as (_ & Hfr & _).
  unfold Float32.decode. cbv zeta.
  rewrite (proj2 (Z.eqb_neq _ 255) Hf).
  generalize dependent (Float32.fraction w). intros m Hfr.
  destruct (Float32.exponent w =? 0).
  - destruct m as [|p|p]; [left; eauto | right; eauto | lia].
  - destruct (m + 2 ^ 23) as [|p|p] eqn:E; [lia | right; eauto | lia].
Qed.

Lemma word_classes (w : Z) :
  Word.is_word w ->
  Float32.finite w \/ Float32.is_infinity w \/ Float32.is_nan w.
Proof.
  intros Hw. unfold Float32.finite, Float32.is_infinity, Float32.is_nan.
  destruct (Z.eq_dec (Float32.exponent w) 255), (Z.eq_dec (Float32.fraction w) 0);
    tauto.
Qed.

(** The comparison of IEEE 754 on all floats that are not NaN. *)
Lemma SFcompare_decode_ordered (a b : Z) :
  Word.is_word a -> Word.is_word b ->
  ~ Float32.is_nan a -> ~ Float32.is_nan b ->
  SFcompare (Float32.decode a) (Float32.decode b)
  = Some (Float32.signed_magnitude a ?= Float32.signed_magnitude b).
Proof.
  intros Ha Hb Hna Hnb.
  destruct (word_classes a Ha) as [Fa | [Ia | Na]]; [| |contradiction];
    destruct (word_classes b Hb) as [Fb | [Ib | Nb]]; try contradiction.
  - apply SFcompare_decode; assumption.
  - rewrite (decode_infinity b Ib).
    rewrite (signed_magnitude_fields a Ha), (signed_magnitude_fields b Hb).
    destruct Ib as (_ & Eb & Mb). rewrite Eb, Mb.
    destruct Fa as [_ Fa]. destruct (word_fields a Ha) as (Hea & Hma & _).
    destruct (decode_finite a (conj Ha Fa)) as [[s ->] | (m & e & ->)];
      cbn [SFcompare]; f_equal;
      destruct (Float32.sign a), (Float32.sign b); symmetry;
      first [apply Z.compare_lt_iff | apply Z.compare_gt_iff]; lia.
  - rewrite (decode_infinity a Ia).
    rewrite (signed_magnitude_fields a Ha), (signed_magnitude_fields b Hb).
    destruct Ia as (_ & Ea & Ma). rewrite Ea, Ma.
    destruct Fb as [_ Fb]. destruct (word_fields b Hb) as (Heb & Hmb & _).
    destruct (decode_finite b (conj Hb Fb)) as [[s ->] | (m & e & ->)];
      cbn [SFcompare]; f_equal;
      destruct (Float32.sign a), (Float32.sign b); symmetry;
      first [apply Z.compare_lt_iff | apply Z.compare_gt_iff]; lia.
  - rewrite (decode_infinity a Ia), (decode_infinity b Ib).
    rewrite (signed_magnitude_fields a Ha), (signed_magnitude_fields b Hb).
    destruct Ia as (_ & Ea & Ma), Ib as (_ & Eb & Mb). rewrite Ea, Ma, Eb, Mb.
    cbn [SFcompare]. f_equal.
    destruct (Float32.sign a), (Float32.sign b); reflexivity.
Qed.

(** X1: the codec sends the patterns with the sign bit set (the negative
    floats) to the lower half of the unsigned range, in the reverse of their
    order as unsigned integers, and the other patterns to the upper half, in
    their order as unsigned integers. *)
Theorem encode_halves (a b : Z) :
  Word.is_word a -> Word.is_word b ->
  (encodeFloatIntoInteger a < 2 ^ 31 <-> Float32.sign a = true) /\
  (Float32.sign a = false -> Float32.sign b = false ->
     (a < b <-> encodeFloatIntoInteger a < encodeFloatIntoInteger b)) /\
  (Float32.sign a = true -> Float32.sign b = true ->
     (a < b <-> encodeFloatIntoInteger b < encodeFloatIntoInteger a)).
Proof.
  intros Ha Hb. rewrite !encode_arith by assumption.
  unfold Word.is_word, Word.modulus, Float32.sign in *.
  destruct (Z.ltb_spec a (2 ^ 31)), (Z.ltb_spec b (2 ^ 31)),
           (Z.leb_spec (2 ^ 31) a), (Z.leb_spec (2 ^ 31) b); try lia;
    (split; [|split]); intros; try discriminate; try lia;
    split; intros; try discriminate; try reflexivity; lia.
Qed.

Lemma encode_halves_witness :
  (encodeFloatIntoInteger 0xC0000000 < 2 ^ 31 <-> Float32.sign 0xC0000000 = true) /\
  (0xBF800000 < 0xC0000000 <->
   encodeFloatIntoInteger 0xC0000000 < encodeFloatIntoInteger 0xBF800000) /\
  (0x3F800000 < 0x40000000 <->
   encodeFloatIntoInteger 0x3F800000 < encodeFloatIntoInteger 0x40000000).
Proof.
  assert (W : forall x, (0 <=? x) && (x <? 2 ^ 32) = true -> Word.is_word x).
  { intros x Hx. apply andb_true_iff in Hx as [H0 H1].
    apply Z.leb_le in H0. apply Z.ltb_lt in H1. split; assumption. }
  destruct (encode_halves 0xBF800000 0xC0000000) as (_ & _ & Hneg);
    [apply W; reflexivity | apply W; reflexivity |].
  destruct (encode_halves 0xC0000000 0x40000000) as (Hhalf & _ & _);
    [apply W; reflexivity | apply W; reflexivity |].
  destruct (encode_halves 0x3F800000 0x40000000) as (_ & Hpos & _);
    [apply W; reflexivity | apply W; reflexivity |].
  split; [exact Hhalf | split].
  - apply Hneg; reflexivity.
  - apply Hpos; reflexivity.
Defined.

(** X2: negating a float complements its code, so that negation reverses
    the order of the codes. *)
Theorem encode_negation (a b : Z) :
  Word.is_word a -> Word.is_word b ->
  Float32.decode (Float32.neg a) = SFopp (Float32.decode a) /\
  encodeFloatIntoInteger (Float32.neg a) = Word.not32 (encodeFloatIntoInteger a) /\
  (encodeFloatIntoInteger (Float32.neg a) < encodeFloatIntoInteger (Float32.neg b)
   <-> encodeFloatIntoInteger b < encodeFloatIntoInteger a).
Proof.
  intros Ha Hb.
  split; [apply decode_neg; assumption|].
  assert (Hc : forall w, Word.is_word w ->
             encodeFloatIntoInteger (Float32.neg w)
             = 2 ^ 32 - 1 - encodeFloatIntoInteger w).
  { intros w Hw. rewrite (encode_arith _ (neg_is_word w Hw)).
    rewrite neg_arith, encode_arith by assumption.
    unfold Word.is_word, Word.modulus in Hw.
    destruct (Z.ltb_spec w (2 ^ 31));
      match goal with |- context [?x <? ?y] => destruct (Z.ltb_spec x y) end; lia. }
  split.
  - rewrite (not32_arith _ (encode_is_word a Ha)). apply Hc. assumption.
  - rewrite (Hc a Ha), (Hc b Hb). lia.
Qed.

Lemma encode_negation_witness :
  Float32.decode (Float32.neg 0x3F800000) = SFopp (Float32.decode 0x3F800000) /\
  encodeFloatIntoInteger (Float32.neg 0x3F800000)
  = Word.not32 (encodeFloatIntoInteger 0x3F800000) /\
  (encodeFloatIntoInteger (Float32.neg 0x3F800000)
   < encodeFloatIntoInteger (Float32.neg 0x40000000)
   <-> encodeFloatIntoInteger 0x40000000 < encodeFloatIntoInteger 0x3F800000).
Proof.
  apply (encode_negation 0x3F800000 0x40000000);
    unfold Word.is_word; vm_compute; split; congruence.
Defined.

Lemma encode_extremes :
  encodeFloatIntoInteger Float32.neg_infinity = 0x007FFFFF /\
  encodeFloatIntoInteger Float32.neg_max = 0x00800000 /\
  encodeFloatIntoInteger Float32.pos_max = 0xFF7FFFFF /\
  encodeFloatIntoInteger Float32.pos_infinity = 0xFF800000.
Proof. repeat split; vm_compute; reflexivity. Qed.

(** X3: the code tells the class of a float.  The codes of the finite floats
    are exactly the integers from the code of [-FLT_MAX] to the code of
    [FLT_MAX]; the two infinities sit just outside this interval, and the
    NaNs take all that remains at both ends of the 32-bit range. *)
Theorem encode_classes (w : Z) :
  Word.is_word w ->
  (Float32.finite w <->
   encodeFloatIntoInteger Float32.neg_max <= encodeFloatIntoInteger w
   <= encodeFloatIntoInteger Float32.pos_max) /\
  (Float32.is_infinity w <->
   encodeFloatIntoInteger w = encodeFloatIntoInteger Float32.neg_infinity \/
   encodeFloatIntoInteger w = encodeFloatIntoInteger Float32.pos_infinity) /\
  (Float32.is_nan w <->
   encodeFloatIntoInteger w < encodeFloatIntoInteger Float32.neg_infinity \/
   encodeFloatIntoInteger Float32.pos_infinity < encodeFloatIntoInteger w) /\
  encodeFloatIntoInteger Float32.neg_infinity + 1
  = encodeFloatIntoInteger Float32.neg_max /\
  encodeFloatIntoInteger Float32.pos_max + 1
  = encodeFloatIntoInteger Float32.pos_infinity.
Proof.
  intros Hw. destruct encode_extremes as (E1 & E2 & E3 & E4).
  rewrite E1, E2, E3, E4.
  split; [|split; [|split; [|split; reflexivity]]].
  all: unfold Float32.finite, Float32.is_infinity, Float32.is_nan.
  all: rewrite (encode_arith w Hw).
  all: destruct (word_fields w Hw) as (He & Hm & Heq).
  all: unfold Float32.sign in Heq.
  all: unfold Word.is_word, Word.modulus in Hw.
  all: destruct (Z.ltb_spec w (2 ^ 31)), (Z.leb_spec (2 ^ 31) w); try lia.
  all: split; [intros HH; decompose [and] HH; clear HH; try lia
              | intros HH; unfold Word.is_word, Word.modulus;
                repeat split; try lia].
Qed.

Lemma encode_classes_witness :
  Float32.finite 0x3F800000 <->
  encodeFloatIntoInteger Float32.neg_max <= encodeFloatIntoInteger 0x3F800000
  <= encodeFloatIntoInteger Float32.pos_max.
Proof.
  apply (encode_classes 0x3F800000).
  unfold Word.is_word. vm_compute. split; congruence.
Defined.

(** X4: the order guarantee of the codec holds on all floats that are not
    NaN, the two infinities included: a smaller float has a smaller code, and
    a smaller code belongs to a smaller float, the pair (-0.0, +0.0) apart. *)
Theorem encode_order_with_infinities (a b : Z) :
  Word.is_word a -> Word.is_word b ->
  ~ Float32.is_nan a -> ~ Float32.is_nan b ->
  (Float32.lt a b -> encodeFloatIntoInteger a < encodeFloatIntoInteger b) /\
  (encodeFloatIntoInteger a < encodeFloatIntoInteger b ->
     Float32.lt a b \/ (a = Float32.neg_zero /\ b = Float32.pos_zero)).
Proof.
  intros Ha Hb Hna Hnb.
  assert (Hlt : Float32.lt a b
                <-> Float32.signed_magnitude a < Float32.signed_magnitude b).
  { unfold Float32.lt, SFltb.
    rewrite (SFcompare_decode_ordered a b Ha Hb Hna Hnb).
    destruct (Z.compare_spec (Float32.signed_magnitude a) (Float32.signed_magnitude b));
      split; intros; try discriminate; try reflexivity; lia. }
  rewrite Hlt.
  rewrite (encode_signed_magnitude a Ha), (encode_signed_magnitude b Hb).
  pose proof (signed_magnitude_range a Ha) as Ra.
  pose proof (signed_magnitude_range b Hb) as Rb.
  unfold Float32.neg_zero, Float32.pos_zero.
  change 0x80000000 with (2 ^ 31).
  destruct (Float32.sign a), (Float32.sign b); lia.
Qed.

Lemma encode_order_with_infinities_witness :
  (Float32.lt Float32.neg_infinity Float32.neg_max ->
   encodeFloatIntoInteger Float32.neg_infinity
   < encodeFloatIntoInteger Float32.neg_max) /\
  (encodeFloatIntoInteger Float32.neg_infinity
   < encodeFloatIntoInteger Float32.neg_max ->
   Float32.lt Float32.neg_infinity Float32.neg_max \/
   (Float32.neg_infinity = Float32.neg_zero /\ Float32.neg_max = Float32.pos_zero)).
Proof.
  apply (encode_order_with_infinities Float32.neg_infinity Float32.neg_max).
  - unfold Word.is_word. vm_compute. split; congruence.
  - unfold Word.is_word. vm_compute. split; congruence.
  - intros (_ & _ & H). apply H. vm_compute. reflexivity.
  - intros (_ & H & _). vm_compute in H. discriminate.
Defined.

(** X5: a NaN compares false with every float, another NaN or itself
    included, in both directions and for equality; the codec nevertheless
    gives it a code, which is below the code of every float that is not a NaN
    when its sign bit is set and above when it is clear.  The order of codes
    says nothing about a NaN. *)
Theorem encode_nan_unordered (w b : Z) :
  Float32.is_nan w ->
  ~ Float32.lt w b /\ ~ Float32.lt b w /\
  ~ Float32.eq w b /\ ~ Float32.eq b w /\ ~ Float32.eq w w /\
  Word.is_word (encodeFloatIntoInteger w) /\
  (Word.is_word b -> ~ Float32.is_nan b ->
   if Float32.sign w
   then encodeFloatIntoInteger w < encodeFloatIntoInteger b
   else encodeFloatIntoInteger b < encodeFloatIntoInteger w).
Proof.
  intros Hn.
  pose proof (decode_nan w Hn) as Hd.
  assert (Hw : Word.is_word w) by apply Hn.
  unfold Float32.lt, Float32.eq, SFltb, SFeqb. rewrite Hd.
  assert (Hr : forall f, SFcompare f S754_nan = None) by (intros []; reflexivity).
  rewrite !Hr. cbn [SFcompare].
  repeat (split; [discriminate|]).
  split; [apply encode_is_word; assumption|].
  intros Hb Hnb.
  rewrite (encode_arith w Hw), (encode_arith b Hb).
  destruct Hn as (_ & Ew & Mw).
  destruct (word_fields w Hw) as (_ & Hmw & Hweq).
  destruct (word_fields b Hb) as (Heb & Hmb & Hbeq).
  assert (Hbb : Float32.exponent b * 2 ^ 23 + Float32.fraction b <= 255 * 2 ^ 23).
  { destruct (Z.eq_dec (Float32.exponent b) 255) as [E | E].
    - destruct (Z.eq_dec (Float32.fraction b) 0) as [M | M]; [lia|].
      exfalso. apply Hnb. repeat split; try assumption; apply Hb.
    - lia. }
  unfold Float32.sign in *.
  unfold Word.is_word, Word.modulus in Hw, Hb.
  destruct (Z.leb_spec (2 ^ 31) w), (Z.leb_spec (2 ^ 31) b),
           (Z.ltb_spec w (2 ^ 31)), (Z.ltb_spec b (2 ^ 31)); lia.
Qed.

(** The NaN [0x7FC00000] against another NaN, [0xFFC00001], and against
    1.0. *)
Lemma encode_nan_unordered_witness :
  (~ Float32.lt 0x7FC00000 0xFFC00001 /\ ~ Float32.lt 0xFFC00001 0x7FC00000 /\
   ~ Float32.eq 0x7FC00000 0xFFC00001 /\ ~ Float32.eq 0xFFC00001 0x7FC00000 /\
   ~ Float32.eq 0x7FC00000 0x7FC00000) /\
  Word.is_word (encodeFloatIntoInteger 0x7FC00000) /\
  encodeFloatIntoInteger 0x3F800000 < encodeFloatIntoInteger 0x7FC00000.
Proof.
  assert (Hn : Float32.is_nan 0x7FC00000).
  { split; [unfold Word.is_word; vm_compute; split; congruence|].
    split; vm_compute; congruence. }
  destruct (encode_nan_unordered 0x7FC00000 0xFFC00001 Hn)
    as (A1 & A2 & A3 & A4 & A5 & _).
  destruct (encode_nan_unordered 0x7FC00000 0x3F800000 Hn)
    as (_ & _ & _ & _ & _ & Hword & Hcode).
  split; [repeat split; assumption|]. split; [exact Hword|].
  apply Hcode.
  - unfold Word.is_word. vm_compute. split; congruence.
  - intros (_ & H & _). vm_compute in H. discriminate.
Defined.

End CodecClasses.

(** * Further properties of the two overlap tests *)

Section OverlapTestsAlone.

Lemma sorted_lookup (l : list EndPoint) (i j : nat) (ei ej : EndPoint) :
  sorted_by_value l ->
  l !! i = Some ei -> l !! j = Some ej ->
  (i <= j)%nat -> value ei <= value ej.
Proof.
  unfold sorted_by_value. intros Hs. revert i j ei ej.
  induction Hs as [|x l Hs IH Hx]; intros i j ei ej Hi Hj Hle.
  - rewrite lookup_nil in Hi. discriminate.
  - destruct i as [|i]; cbn in Hi.
    + injection Hi as <-. destruct j as [|j]; cbn in Hj.
      * injection Hj as <-. lia.
      * rewrite Forall_forall in Hx.
        apply Hx. eapply list_elem_of_lookup_2. exact Hj.
    + destruct j as [|j]; [lia|]. cbn in Hj.
      apply (IH i j); [assumption | assumption | lia].
Qed.

(** On strictly sorted arrays [testIntersect2D] is the test on values. *)
Lemma testIntersect2D_values
    (arr1 arr2 : list EndPoint) (box1 box2 : BoxAABB.t) (axis1 axis2 : Axis)
    (lo11 hi11 lo21 hi21 lo12 hi12 lo22 hi22 : Z) :
  strictly_sorted_by_value arr1 ->
  strictly_sorted_by_value arr2 ->
  box_interval arr1 box1 axis1 = Some (lo11, hi11) ->
  box_interval arr1 box2 axis1 = Some (lo21, hi21) ->
  box_interval arr2 box1 axis2 = Some (lo12, hi12) ->
  box_interval arr2 box2 axis2 = Some (lo22, hi22) ->
  testIntersect2D box1 box2 axis1 axis2 = true <->
  intervals_intersect lo11 hi11 lo21 hi21 /\
  intervals_intersect lo12 hi12 lo22 hi22.
Proof.
  intros Hs1 Hs2 H11 H21 H12 H22.
  destruct (box_interval_inv _ _ _ _ _ H11) as (a1 & b1 & Ha1 & Hb1 & <- & <-).
  destruct (box_interval_inv _ _ _ _ _ H21) as (a2 & b2 & Ha2 & Hb2 & <- & <-).
  destruct (box_interval_inv _ _ _ _ _ H12) as (c1 & d1 & Hc1 & Hd1 & <- & <-).
  destruct (box_interval_inv _ _ _ _ _ H22) as (c2 & d2 & Hc2 & Hd2 & <- & <-).
  unfold testIntersect2D, intervals_intersect.
  rewrite (strictly_sorted_index_order _ _ _ _ _ Hs1 Ha1 Hb2).
  rewrite (strictly_sorted_index_order _ _ _ _ _ Hs1 Ha2 Hb1).
  rewrite (strictly_sorted_index_order _ _ _ _ _ Hs2 Hc1 Hd2).
  rewrite (strictly_sorted_index_order _ _ _ _ _ Hs2 Hc2 Hd1).
  rewrite negb_true_iff, !orb_false_iff, !Z.ltb_ge. tauto.
Qed.

(** X6: with no assumption on the order of the two boxes,
    [testIntersect1DSortedAABBs] never answers false for two intervals that
    intersect; when it answers true for two intervals that do not intersect,
    the second box lies wholly below the first, and for every such pair of
    proper intervals it does answer true. *)
Theorem testIntersect1DSortedAABBs_conservative
    (arr : list EndPoint) (box1 : BoxAABB.t) (box2 : AABBInt.t) (axis : Axis)
    (lo1 hi1 : Z) :
  box_interval arr box1 axis = Some (lo1, hi1) ->
  (intervals_intersect lo1 hi1
     (get3 (AABBInt.min box2) axis) (get3 (AABBInt.max box2) axis) ->
   testIntersect1DSortedAABBs box1 box2 arr axis = Some true) /\
  (testIntersect1DSortedAABBs box1 box2 arr axis = Some true ->
   intervals_intersect lo1 hi1
     (get3 (AABBInt.min box2) axis) (get3 (AABBInt.max box2) axis) \/
   get3 (AABBInt.max box2) axis < lo1) /\
  (lo1 <= hi1 ->
   get3 (AABBInt.min box2) axis <= get3 (AABBInt.max box2) axis ->
   get3 (AABBInt.max box2) axis < lo1 ->
   testIntersect1DSortedAABBs box1 box2 arr axis = Some true).
Proof.
  intros Hbox.
  destruct (box_interval_inv _ _ _ _ _ Hbox) as (elo & ehi & Hlo & Hhi & <- & <-).
  unfold testIntersect1DSortedAABBs, intervals_intersect. rewrite Hhi. cbn.
  destruct (Z.ltb_spec (value ehi) (get3 (AABBInt.min box2) axis)) as [Hlt | Hge];
    cbn; repeat split; intros; try discriminate; try reflexivity; lia.
Qed.

Lemma testIntersect1DSortedAABBs_conservative_witness :
  let arr := [MkEndPoint 0 true 5; MkEndPoint 0 false 8] in
  let box1 := BoxAABB.Mk (MkArray3 0%nat 0%nat 0%nat) (MkArray3 1%nat 1%nat 1%nat) 7%nat in
  let box2 := AABBInt.Mk (MkArray3 1 1 1) (MkArray3 3 3 3) in
  testIntersect1DSortedAABBs box1 box2 arr AxisX = Some true /\
  ~ intervals_intersect 5 8 1 3.
Proof.
  cbv zeta.
  destruct (testIntersect1DSortedAABBs_conservative
              [MkEndPoint 0 true 5; MkEndPoint 0 false 8]
              (BoxAABB.Mk (MkArray3 0%nat 0%nat 0%nat) (MkArray3 1%nat 1%nat 1%nat) 7%nat)
              (AABBInt.Mk (MkArray3 1 1 1) (MkArray3 3 3 3)) AxisX 5 8)
    as (_ & _ & H); [reflexivity|].
  split.
  - apply H; cbn; lia.
  - unfold intervals_intersect. lia.
Defined.

(** X7: [testIntersect2D] does not depend on the order of its two boxes nor
    on the order of its two axes; a box intersects itself exactly when, on
    both axes, the index of its minimum is not above the index of its
    maximum. *)
Theorem testIntersect2D_symmetric (box1 box2 : BoxAABB.t) (axis1 axis2 : Axis) :
  testIntersect2D box1 box2 axis1 axis2 = testIntersect2D box2 box1 axis1 axis2 /\
  testIntersect2D box1 box2 axis1 axis2 = testIntersect2D box1 box2 axis2 axis1 /\
  (testIntersect2D box1 box1 axis1 axis2 = true <->
   (get3 (BoxAABB.min box1) axis1 <= get3 (BoxAABB.max box1) axis1)%nat /\
   (get3 (BoxAABB.min box1) axis2 <= get3 (BoxAABB.max box1) axis2)%nat).
Proof.
  unfold testIntersect2D. split; [|split].
  - f_equal.
    destruct (_ <? _)%nat, (_ <? _)%nat, (_ <? _)%nat, (_ <? _)%nat; reflexivity.
  - f_equal.
    destruct (_ <? _)%nat, (_ <? _)%nat, (_ <? _)%nat, (_ <? _)%nat; reflexivity.
  - rewrite negb_true_iff, !orb_false_iff, !Nat.ltb_ge. tauto.
Qed.

(** X8: when the arrays are sorted by value but may hold equal values,
    [testIntersect2D] is right up to contact: a true answer means that the
    closed value intervals intersect on both axes, and a false answer means
    that on one of the two axes the intervals overlap at most in one point. *)
Theorem testIntersect2D_sorted_with_ties
    (endPoints : Array3 (list EndPoint)) (box1 box2 : BoxAABB.t)
    (axis1 axis2 : Axis) (lo11 hi11 lo21 hi21 lo12 hi12 lo22 hi22 : Z) :
  sorted_by_value (get3 endPoints axis1) ->
  sorted_by_value (get3 endPoints axis2) ->
  box_interval (get3 endPoints axis1) box1 axis1 = Some (lo11, hi11) ->
  box_interval (get3 endPoints axis1) box2 axis1 = Some (lo21, hi21) ->
  box_interval (get3 endPoints axis2) box1 axis2 = Some (lo12, hi12) ->
  box_interval (get3 endPoints axis2) box2 axis2 = Some (lo22, hi22) ->
  (testIntersect2D box1 box2 axis1 axis2 = true ->
   intervals_intersect lo11 hi11 lo21 hi21 /\
   intervals_intersect lo12 hi12 lo22 hi22) /\
  (testIntersect2D box1 box2 axis1 axis2 = false ->
   hi21 <= lo11 \/ hi11 <= lo21 \/ hi22 <= lo12 \/ hi12 <= lo22).
Proof.
  intros Hs1 Hs2 H11 H21 H12 H22.
  destruct (box_interval_inv _ _ _ _ _ H11) as (a1 & b1 & Ha1 & Hb1 & <- & <-).
  destruct (box_interval_inv _ _ _ _ _ H21) as (a2 & b2 & Ha2 & Hb2 & <- & <-).
  destruct (box_interval_inv _ _ _ _ _ H12) as (c1 & d1 & Hc1 & Hd1 & <- & <-).
  destruct (box_interval_inv _ _ _ _ _ H22) as (c2 & d2 & Hc2 & Hd2 & <- & <-).
  unfold testIntersect2D, intervals_intersect. split.
  - rewrite negb_true_iff, !orb_false_iff, !Nat.ltb_ge.
    intros (((L1 & L2) & L3) & L4).
    pose proof (sorted_lookup _ _ _ _ _ Hs1 Ha1 Hb2 L1).
    pose proof (sorted_lookup _ _ _ _ _ Hs1 Ha2 Hb1 L2).
    pose proof (sorted_lookup _ _ _ _ _ Hs2 Hc1 Hd2 L3).
    pose proof (sorted_lookup _ _ _ _ _ Hs2 Hc2 Hd1 L4).
    lia.
  - rewrite negb_false_iff, !orb_true_iff, !Nat.ltb_lt.
    intros [[[L | L] | L] | L].
    + left. apply (sorted_lookup _ _ _ _ _ Hs1 Hb2 Ha1). lia.
    + right. left. apply (sorted_lookup _ _ _ _ _ Hs1 Hb1 Ha2). lia.
    + right. right. left. apply (sorted_lookup _ _ _ _ _ Hs2 Hd2 Hc1). lia.
    + right. right. right. apply (sorted_lookup _ _ _ _ _ Hs2 Hd1 Hc2). lia.
Qed.

(** Two boxes in contact on the x axis, the maximum of the first stored
    before the minimum of the second: the closed intervals intersect and
    [testIntersect2D] answers false. *)
Lemma testIntersect2D_sorted_with_ties_witness :
  let arrX := [MkEndPoint 0 true 1; MkEndPoint 0 false 4; MkEndPoint 1 true 4;
               MkEndPoint 1 false 9] in
  let arrY := [MkEndPoint 0 true 2; MkEndPoint 1 true 3; MkEndPoint 0 false 5;
               MkEndPoint 1 false 8] in
  let box0 := BoxAABB.Mk (MkArray3 0%nat 0%nat 0%nat) (MkArray3 1%nat 2%nat 0%nat) 7%nat in
  let box1 := BoxAABB.Mk (MkArray3 2%nat 1%nat 0%nat) (MkArray3 3%nat 3%nat 0%nat) 8%nat in
  sorted_by_value arrX /\ sorted_by_value arrY /\
  testIntersect2D box0 box1 AxisX AxisY = false /\
  intervals_intersect 1 4 4 9 /\ intervals_intersect 2 5 3 8 /\
  (9 <= 1 \/ 4 <= 4 \/ 8 <= 2 \/ 5 <= 3).
Proof.
  cbv zeta.
  assert (HX : sorted_by_value
                 [MkEndPoint 0 true 1; MkEndPoint 0 false 4; MkEndPoint 1 true 4;
                  MkEndPoint 1 false 9])
    by (unfold sorted_by_value; repeat constructor; unfold value_le; cbn; lia).
  assert (HY : sorted_by_value
                 [MkEndPoint 0 true 2; MkEndPoint 1 true 3; MkEndPoint 0 false 5;
                  MkEndPoint 1 false 8])
    by (unfold sorted_by_value; repeat constructor; unfold value_le; cbn; lia).
  split; [exact HX | split; [exact HY | split; [reflexivity|]]].
  split; [unfold intervals_intersect; lia | split; [unfold intervals_intersect; lia|]].
  apply (testIntersect2D_sorted_with_ties
           (MkArray3
              [MkEndPoint 0 true 1; MkEndPoint 0 false 4; MkEndPoint 1 true 4;
               MkEndPoint 1 false 9]
              [MkEndPoint 0 true 2; MkEndPoint 1 true 3; MkEndPoint 0 false 5;
               MkEndPoint 1 false 8]
              [])
           (BoxAABB.Mk (MkArray3 0%nat 0%nat 0%nat) (MkArray3 1%nat 2%nat 0%nat) 7%nat)
           (BoxAABB.Mk (MkArray3 2%nat 1%nat 0%nat) (MkArray3 3%nat 3%nat 0%nat) 8%nat)
           AxisX AxisY 1 4 4 9 2 5 3 8);
    first [exact HX | exact HY | reflexivity].
Defined.

(** X9: the two tests together decide the overlap of two boxes in space.
    When the arrays of the two other axes are sorted with distinct values,
    and on the swept axis the minimum of the first box is not above the
    minimum of the second, whose integer interval is proper, the conjunction
    of [testIntersect1DSortedAABBs] on the swept axis and [testIntersect2D] on
    the two other axes holds exactly when the value intervals of the two
    boxes intersect on all three axes. *)
Theorem overlap_tests_compose
    (endPoints : Array3 (list EndPoint)) (box1 box2 : BoxAABB.t)
    (aabbInt : AABBInt.t) (axis axis1 axis2 : Axis)
    (lo1 hi1 lo2 hi2 : Array3 Z) :
  axis <> axis1 -> axis <> axis2 -> axis1 <> axis2 ->
  strictly_sorted_by_value (get3 endPoints axis1) ->
  strictly_sorted_by_value (get3 endPoints axis2) ->
  (forall k, box_interval (get3 endPoints k) box1 k = Some (get3 lo1 k, get3 hi1 k)) ->
  (forall k, box_interval (get3 endPoints k) box2 k = Some (get3 lo2 k, get3 hi2 k)) ->
  get3 (AABBInt.min aabbInt) axis = get3 lo2 axis ->
  get3 lo1 axis <= get3 lo2 axis ->
  get3 lo2 axis <= get3 hi2 axis ->
  (testIntersect1DSortedAABBs box1 aabbInt (get3 endPoints axis) axis = Some true /\
   testIntersect2D box1 box2 axis1 axis2 = true)
  <->
  (forall k, intervals_intersect (get3 lo1 k) (get3 hi1 k) (get3 lo2 k) (get3 hi2 k)).
Proof.
  intros Hn1 Hn2 Hn12 Hs1 Hs2 Hb1 Hb2 Hmin Hord Hproper.
  rewrite (testIntersect2D_values _ _ _ _ _ _ _ _ _ _ _ _ _ _ Hs1 Hs2
             (Hb1 axis1) (Hb2 axis1) (Hb1 axis2) (Hb2 axis2)).
  assert (H1D : testIntersect1DSortedAABBs box1 aabbInt (get3 endPoints axis) axis
                = Some true
                <-> intervals_intersect (get3 lo1 axis) (get3 hi1 axis)
                      (get3 lo2 axis) (get3 hi2 axis)).
  { destruct (box_interval_inv _ _ _ _ _ (Hb1 axis)) as (elo & ehi & Hlo & Hhi & E1 & E2).
    unfold testIntersect1DSortedAABBs, intervals_intersect.
    rewrite Hhi, Hmin, <- E2. cbn.
    destruct (Z.ltb_spec (value ehi) (get3 lo2 axis)); cbn;
      split; intros; try discriminate; try reflexivity; lia. }
  rewrite H1D. split.
  - intros (Ha & Hb & Hc) k.
    destruct axis, axis1, axis2, k; try congruence; assumption.
  - intros H. repeat split; apply H.
Qed.

Lemma overlap_tests_compose_witness :
  let arrX := [MkEndPoint 0 true 1; MkEndPoint 1 true 4; MkEndPoint 0 false 6;
               MkEndPoint 1 false 9] in
  let arrY := [MkEndPoint 1 true 2; MkEndPoint 0 true 3; MkEndPoint 1 false 5;
               MkEndPoint 0 false 8] in
  let arrZ := [MkEndPoint 0 true 0; MkEndPoint 1 true 1; MkEndPoint 1 false 2;
               MkEndPoint 0 false 7] in
  let box0 := BoxAABB.Mk (MkArray3 0%nat 1%nat 0%nat) (MkArray3 2%nat 3%nat 3%nat) 7%nat in
  let box1 := BoxAABB.Mk (MkArray3 1%nat 0%nat 1%nat) (MkArray3 3%nat 2%nat 2%nat) 8%nat in
  let aabbInt := AABBInt.Mk (MkArray3 4 2 1) (MkArray3 9 5 2) in
  testIntersect1DSortedAABBs box0 aabbInt arrX AxisX = Some true /\
  testIntersect2D box0 box1 AxisY AxisZ = true.
Proof.
  cbv zeta.
  apply (overlap_tests_compose
           (MkArray3
              [MkEndPoint 0 true 1; MkEndPoint 1 true 4; MkEndPoint 0 false 6;
               MkEndPoint 1 false 9]
              [MkEndPoint 1 true 2; MkEndPoint 0 true 3; MkEndPoint 1 false 5;
               MkEndPoint 0 false 8]
              [MkEndPoint 0 true 0; MkEndPoint 1 true 1; MkEndPoint 1 false 2;
               MkEndPoint 0 false 7])
           (BoxAABB.Mk (MkArray3 0%nat 1%nat 0%nat) (MkArray3 2%nat 3%nat 3%nat) 7%nat)
           (BoxAABB.Mk (MkArray3 1%nat 0%nat 1%nat) (MkArray3 3%nat 2%nat 2%nat) 8%nat)
           (AABBInt.Mk (MkArray3 4 2 1) (MkArray3 9 5 2))
           AxisX AxisY AxisZ
           (MkArray3 1 3 0) (MkArray3 6 8 7) (MkArray3 4 2 1) (MkArray3 9 5 2)).
  - discriminate.
  - discriminate.
  - discriminate.
  - unfold strictly_sorted_by_value. repeat constructor; unfold value_lt; cbn; lia.
  - unfold strictly_sorted_by_value. repeat constructor; unfold value_lt; cbn; lia.
  - intros []; reflexivity.
  - intros []; reflexivity.
  - reflexivity.
  - cbn. lia.
  - cbn. lia.
  - intros []; unfold intervals_intersect; cbn; lia.
Defined.

End OverlapTestsAlone.

(** * Writing an end-point in place *)

Section EndPointWrite.

Lemma sorted_by_value_lookup (l : list EndPoint) :
  (forall i j ei ej, l !! i = Some ei -> l !! j = Some ej ->
                     (i < j)%nat -> value ei <= value ej) ->
  sorted_by_value l.
Proof.
  unfold sorted_by_value. induction l as [|x l IH]; intros H.
  - constructor.
  - constructor.
    + apply IH. intros i j ei ej Hi Hj Hlt.
      apply (H (S i) (S j)); [exact Hi | exact Hj | lia].
    + apply Forall_forall. intros y Hy.
      apply list_elem_of_lookup_1 in Hy as [j Hj].
      apply (H 0%nat (S j)); [reflexivity | exact Hj | lia].
Qed.

(** X14: overwriting the end-point at position [i] of a sorted array with
    [setValues] leaves the array sorted exactly when the new value is not
    below the value of the end-point before it nor above the value of the
    end-point after it; the identifier and the kind written play no part. *)
Theorem setValues_in_place_sorted
    (arr : list EndPoint) (i : nat) (e : EndPoint)
    (id : bodyindex) (kind : bool) (v : Z) :
  sorted_by_value arr ->
  arr !! i = Some e ->
  sorted_by_value (<[i := setValues e id kind v]> arr) <->
  (forall p, (0 < i)%nat -> arr !! (i - 1)%nat = Some p -> value p <= v) /\
  (forall n, arr !! (i + 1)%nat = Some n -> v <= value n).
Proof.
  intros Hs He.
  pose proof (lookup_lt_Some _ _ _ He) as Hlen.
  assert (Hnew : <[i := setValues e id kind v]> arr !! i = Some (setValues e id kind v))
    by (apply list_lookup_insert_eq; exact Hlen).
  split.
  - intros Hs'. split.
    + intros p Hpos Hp.
      assert (Hp' : <[i := setValues e id kind v]> arr !! (i - 1)%nat = Some p)
        by (rewrite list_lookup_insert_ne by lia; exact Hp).
      apply (sorted_lookup _ _ _ _ _ Hs' Hp' Hnew). lia.
    + intros n Hn.
      assert (Hn' : <[i := setValues e id kind v]> arr !! (i + 1)%nat = Some n)
        by (rewrite list_lookup_insert_ne by lia; exact Hn).
      apply (sorted_lookup _ _ _ _ _ Hs' Hnew Hn'). lia.
  - intros [Hprev Hnext]. apply sorted_by_value_lookup.
    intros a b ea eb Ha Hb Hlt.
    apply list_lookup_insert_Some in Ha as [(<- & <- & _) | (Hna & Ha)];
      apply list_lookup_insert_Some in Hb as [(<- & <- & _) | (Hnb & Hb)].
    + lia.
    + cbn. destruct (lookup_lt_is_Some_2 arr (i + 1)%nat) as [n Hn].
      { apply lookup_lt_Some in Hb. lia. }
      pose proof (Hnext n Hn).
      pose proof (sorted_lookup _ _ _ _ _ Hs Hn Hb ltac:(lia)). lia.
    + cbn. destruct (lookup_lt_is_Some_2 arr (i - 1)%nat) as [p Hp]; [lia|].
      pose proof (Hprev p ltac:(lia) Hp).
      pose proof (sorted_lookup _ _ _ _ _ Hs Ha Hp ltac:(lia)). lia.
    + apply (sorted_lookup _ _ _ _ _ Hs Ha Hb). lia.
Qed.

Lemma setValues_in_place_sorted_witness :
  sorted_by_value
    (<[1%nat := setValues (MkEndPoint 1 true 4) 1%nat true 5]>
       [MkEndPoint 0 true 1; MkEndPoint 1 true 4; MkEndPoint 0 false 6;
        MkEndPoint 1 false 9]) /\
  ~ sorted_by_value
    (<[1%nat := setValues (MkEndPoint 1 true 4) 1%nat true 7]>
       [MkEndPoint 0 true 1; MkEndPoint 1 true 4; MkEndPoint 0 false 6;
        MkEndPoint 1 false 9]).
Proof.
  assert (Hs : sorted_by_value
                 [MkEndPoint 0 true 1; MkEndPoint 1 true 4; MkEndPoint 0 false 6;
                  MkEndPoint 1 false 9])
    by (unfold sorted_by_value; repeat constructor; unfold value_le; cbn; lia).
  split.
  - apply (setValues_in_place_sorted _ 1%nat (MkEndPoint 1 true 4) 1%nat true 5 Hs);
      [reflexivity|].
    split.
    + intros p _ Hp. cbn in Hp. injection Hp as <-. cbn. lia.
    + intros n Hn. cbn in Hn. injection Hn as <-. cbn. lia.
  - intros H.
    apply (setValues_in_place_sorted _ 1%nat (MkEndPoint 1 true 4) 1%nat true 7 Hs)
      in H as [_ H]; [|reflexivity].
    specialize (H (MkEndPoint 0 false 6) eq_refl). cbn in H. lia.
Defined.

End EndPointWrite.

(** * Properties of the accessors of a contact point *)

Section ContactPointCalls.

Import ContactPoint.

Context {Vector3 decimal : Type}.

Local Abbreviation CP := (ContactPoint.t Vector3 decimal).
Local Abbreviation CPCall := (ContactPoint.Call Vector3 decimal).

Lemma writeFrictionVector_Some (this this' : CP) (i : nat) (v : Vector3) :
  writeFrictionVector this i v = Some this' ->
  (i < length (mFrictionVectors this))%nat /\
  mFrictionVectors this' = <[i := v]> (mFrictionVectors this) /\
  mNormal this' = mNormal this /\
  mPenetrationDepth this' = mPenetrationDepth this /\
  mLocalPointOnBody1 this' = mLocalPointOnBody1 this /\
  mLocalPointOnBody2 this' = mLocalPointOnBody2 this /\
  mWorldPointOnBody1 this' = mWorldPointOnBody1 this /\
  mWorldPointOnBody2 this' = mWorldPointOnBody2 this /\
  mIsRestingContact this' = mIsRestingContact this.
Proof.
  unfold writeFrictionVector. intros H.
  destruct (mFrictionVectors this !! i) as [x|] eqn:E; [|discriminate].
  cbn in H. injection H as <-. cbn.
  split; [eapply lookup_lt_Some; exact E|]. repeat split; reflexivity.
Qed.

Lemma writeFrictionVector_is_Some (this : CP) (i : nat) (v : Vector3) :
  is_Some (writeFrictionVector this i v) <-> (i < length (mFrictionVectors this))%nat.
Proof.
  unfold writeFrictionVector. rewrite <- lookup_lt_is_Some.
  destruct (mFrictionVectors this !! i); cbn; split; intros [? ?]; eauto; discriminate.
Qed.

(** What one call leaves in each attribute. *)
Lemma call_get (this this' : CP) (c : CPCall) (a : Attribute) :
  call this c = Some this' ->
  get this' a = if decide (attribute c = a) then Some (argument c) else get this a.
Proof.
  destruct c; cbn [call attribute argument]; intros H;
    try (injection H as <-; destruct a; reflexivity).
  - apply writeFrictionVector_Some in H
      as (Hlt & Hf & _ & Hp & _ & _ & Hw1 & Hw2 & Hr).
    destruct a; cbn;
      unfold getFrictionVector1, getFrictionVector2, getPenetrationDepth,
        getWorldPointOnBody1, getWorldPointOnBody2, getIsRestingContact;
      rewrite ?Hp, ?Hw1, ?Hw2, ?Hr, ?Hf; try reflexivity.
    + rewrite list_lookup_insert_eq by exact Hlt. reflexivity.
    + rewrite list_lookup_insert_ne by lia. reflexivity.
  - apply writeFrictionVector_Some in H
      as (Hlt & Hf & _ & Hp & _ & _ & Hw1 & Hw2 & Hr).
    destruct a; cbn;
      unfold getFrictionVector1, getFrictionVector2, getPenetrationDepth,
        getWorldPointOnBody1, getWorldPointOnBody2, getIsRestingContact;
      rewrite ?Hp, ?Hw1, ?Hw2, ?Hr, ?Hf; try reflexivity.
    + rewrite list_lookup_insert_ne by lia. reflexivity.
    + rewrite list_lookup_insert_eq by exact Hlt. reflexivity.
Qed.

(** What one call never touches. *)
Lemma call_const (this this' : CP) (c : CPCall) :
  call this c = Some this' ->
  getNormal this' = getNormal this /\
  getLocalPointOnBody1 this' = getLocalPointOnBody1 this /\
  getLocalPointOnBody2 this' = getLocalPointOnBody2 this /\
  length (mFrictionVectors this') = length (mFrictionVectors this).
Proof.
  destruct c; cbn [call]; intros H;
    try (injection H as <-; repeat split; reflexivity).
  - apply writeFrictionVector_Some in H
      as (_ & Hf & Hn & _ & Hl1 & Hl2 & _).
    unfold getNormal, getLocalPointOnBody1, getLocalPointOnBody2.
    rewrite Hn, Hl1, Hl2, Hf, length_insert. repeat split; reflexivity.
  - apply writeFrictionVector_Some in H
      as (_ & Hf & Hn & _ & Hl1 & Hl2 & _).
    unfold getNormal, getLocalPointOnBody1, getLocalPointOnBody2.
    rewrite Hn, Hl1, Hl2, Hf, length_insert. repeat split; reflexivity.
Qed.

Lemma call_is_Some (this : CP) (c : CPCall) :
  is_Some (call this c) <-> (needs c <= length (mFrictionVectors this))%nat.
Proof.
  destruct c; cbn [call needs];
    try (split; [intros _; lia | intros _; eexists; reflexivity]).
  - unfold setFrictionVector1. rewrite writeFrictionVector_is_Some. lia.
  - unfold setFrictionVector2. rewrite writeFrictionVector_is_Some. lia.
Qed.

Lemma lastWritten_cons (a : Attribute) (c : CPCall) (cs : list CPCall) :
  lastWritten a (c :: cs) =
    match lastWritten a cs with
    | Some v => Some v
    | None => if decide (attribute c = a) then Some (argument c) else None
    end.
Proof.
  unfold lastWritten. rewrite filter_cons.
  destruct (decide (attribute c = a)) as [E | E];
    [|destruct (last _); reflexivity].
  destruct (filter (fun c0 => attribute c0 = a) cs) as [|x l] eqn:F; [reflexivity|].
  rewrite last_cons. destruct (last (x :: l)) eqn:L; [reflexivity|].
  apply last_None in L. discriminate.
Qed.

(** X10: after any sequence of setter calls that succeeds, every getter
    returns the argument of the last call of its setter in the sequence, and
    what it returned before the sequence when its setter was not called. *)
Theorem calls_last_write_wins (this this' : CP) (cs : list CPCall) (a : Attribute) :
  calls this cs = Some this' ->
  get this' a = match lastWritten a cs with
                | Some v => Some v
                | None => get this a
                end.
Proof.
  revert this. induction cs as [|c cs IH]; intros this H.
  - cbn in H. injection H as <-. reflexivity.
  - cbn [calls] in H. destruct (call this c) as [this1|] eqn:Hc; [|discriminate].
    cbn in H. rewrite (IH this1 H), lastWritten_cons, (call_get _ _ _ a Hc).
    destruct (lastWritten a cs); [reflexivity|].
    destruct (decide (attribute c = a)); reflexivity.
Qed.

(** X11: no sequence of setter calls changes the normal of the contact, its
    two local points, or the number of friction vectors the object holds. *)
Theorem calls_preserve_const_members (this this' : CP) (cs : list CPCall) :
  calls this cs = Some this' ->
  getNormal this' = getNormal this /\
  getLocalPointOnBody1 this' = getLocalPointOnBody1 this /\
  getLocalPointOnBody2 this' = getLocalPointOnBody2 this /\
  length (mFrictionVectors this') = length (mFrictionVectors this).
Proof.
  revert this. induction cs as [|c cs IH]; intros this H.
  - cbn in H. injection H as <-. repeat split; reflexivity.
  - cbn [calls] in H. destruct (call this c) as [this1|] eqn:Hc; [|discriminate].
    cbn in H. destruct (IH this1 H) as (A1 & A2 & A3 & A4).
    destruct (call_const _ _ _ Hc) as (B1 & B2 & B3 & B4).
    rewrite A1, A2, A3, A4. repeat split; assumption.
Qed.

(** X12: a sequence of setter calls has a defined result exactly when the
    object holds a first friction vector for every call of
    [setFrictionVector1] in the sequence and a second one for every call of
    [setFrictionVector2]; the other setters are defined on every object. *)
Theorem calls_defined (this : CP) (cs : list CPCall) :
  is_Some (calls this cs) <->
  Forall (fun c => (needs c <= length (mFrictionVectors this))%nat) cs.
Proof.
  revert this. induction cs as [|c cs IH]; intros this.
  - cbn. split; [constructor | eauto].
  - rewrite Forall_cons. cbn [calls].
    destruct (call this c) as [this1|] eqn:Hc; cbn.
    + rewrite IH. destruct (call_const _ _ _ Hc) as (_ & _ & _ & ->).
      pose proof (proj1 (call_is_Some this c)) as Hn. rewrite Hc in Hn.
      specialize (Hn ltac:(eauto)). tauto.
    + pose proof (proj2 (call_is_Some this c)) as Hn. rewrite Hc in Hn.
      split; [intros [? ?]; discriminate|].
      intros [Hle _]. destruct (Hn Hle). discriminate.
Qed.

(** X13: two setter calls on different attributes give the same object in
    either order; of two calls of the same setter only the second counts. *)
Theorem calls_commute (this : CP) (c1 c2 : CPCall) :
  (attribute c1 <> attribute c2 -> calls this [c1; c2] = calls this [c2; c1]) /\
  (attribute c1 = attribute c2 -> calls this [c1; c2] = call this c2).
Proof.
  destruct this as [n p l1 l2 w1 w2 r fs].
  split; intros H; destruct c1, c2; cbn in H; try congruence; clear H;
    cbn; unfold setFrictionVector1, setFrictionVector2, writeFrictionVector;
    cbn; try reflexivity;
    destruct fs as [|f1 [|f2 fs]]; reflexivity.
Qed.

End ContactPointCalls.

Section ContactPointScenarios.

Import ContactPoint.

Lemma calls_last_write_wins_witness :
  exists this',
    calls sampleContact
      [SetFrictionVector2 (MkArray3 0 0 2); SetPenetrationDepth 5;
       SetFrictionVector2 (MkArray3 0 0 3)] = Some this' /\
    get this' FrictionVector2 = Some (VVector3 (MkArray3 0 0 3)) /\
    get this' FrictionVector1 = get sampleContact FrictionVector1.
Proof.
  eexists. split; [reflexivity|]. split.
  - apply (calls_last_write_wins sampleContact _
             [SetFrictionVector2 (MkArray3 0 0 2); SetPenetrationDepth 5;
              SetFrictionVector2 (MkArray3 0 0 3)] FrictionVector2).
    reflexivity.
  - reflexivity.
Defined.

Lemma calls_preserve_const_members_witness :
  exists this',
    calls sampleContact
      [SetWorldPointOnBody1 (MkArray3 0 0 0); SetFrictionVector1 (MkArray3 0 1 0);
       SetIsRestingContact true] = Some this' /\
    getNormal this' = getNormal sampleContact /\
    getLocalPointOnBody1 this' = getLocalPointOnBody1 sampleContact /\
    getLocalPointOnBody2 this' = getLocalPointOnBody2 sampleContact /\
    length (mFrictionVectors this') = length (mFrictionVectors sampleContact).
Proof.
  eexists. split; [reflexivity|].
  apply (calls_preserve_const_members sampleContact _
           [SetWorldPointOnBody1 (MkArray3 0 0 0); SetFrictionVector1 (MkArray3 0 1 0);
            SetIsRestingContact true]).
  reflexivity.
Defined.

(** On an object that holds one friction vector only, a sequence with a call
    of [setFrictionVector2] has no defined result. *)
Lemma calls_defined_witness :
  ~ is_Some
      (calls (Mk (MkArray3 0 1 0) 0 (MkArray3 1 2 3) (MkArray3 4 5 6)
                 (MkArray3 7 8 9) (MkArray3 10 11 12) false [MkArray3 1 0 0])
         [SetFrictionVector1 (MkArray3 0 1 0); SetFrictionVector2 (MkArray3 0 0 1)]).
Proof.
  intros H. apply calls_defined in H.
  apply Forall_cons in H as [_ H]. apply Forall_cons in H as [H _].
  cbn in H. lia.
Defined.

Lemma calls_commute_witness :
  calls sampleContact [SetFrictionVector1 (MkArray3 0 1 0); SetFrictionVector2 (MkArray3 0 0 1)]
  = calls sampleContact [SetFrictionVector2 (MkArray3 0 0 1); SetFrictionVector1 (MkArray3 0 1 0)].
Proof.
  apply (calls_commute sampleContact
           (SetFrictionVector1 (MkArray3 0 1 0)) (SetFrictionVector2 (MkArray3 0 0 1))).
  discriminate.
Defined.

End ContactPointScenarios.
